(** * Fourier ptychography by projections and gradient descent

    A shallow embedding of the notebook
    [Fourier_Ptychography_for_Phase_Retrieval.ipynb]: the error metric
    [minAngMSE], the window geometry and the energy map [counts], the forward
    model in its NumPy and TensorFlow spellings, and [run_simulation] with its
    projection stage and its gradient-descent stage.

    Conventions of the embedding.
    - Python integers are [Z]; loop counts given by the caller are [nat].
    - A 1-D array is a [list], a 2-D array a list of rows, a batch a list of
      2-D arrays.  A 2-D array without rows carries no column count here,
      whereas NumPy keeps one.
    - [float64] and [complex128] are idealised as [R] and pairs of [R]:
      rounding and infinities are not modelled, and the division of an
      array entry is the total division of [R].
    - An operation that raises in Python returns [None], and so do the
      two scalar quotients [0.0/0], of [minAngMSE] on empty vectors and of
      the mean of no trials, whose result, nan, is no real number. *)

From Stdlib Require Import ZArith Reals Lia Lra Psatz Permutation.
From stdpp Require Import base option list.

Abbreviation matrix A := (list (list A)).

(** ** Slices *)

Module Np.

(** A slice [a:b]; a missing bound is [None]. *)
Definition srange : Type := option Z * option Z.

Definition rng (a b : Z) : srange := (Some a, Some b).
Definition from (a : Z) : srange := (Some a, None).
Definition all : srange := (None, None).

(** How Python places a slice bound [i] in a sequence of length [n]. *)
Definition py_bound (n : nat) (i : Z) : nat :=
  if (i <? 0)%Z then Z.to_nat (Z.max 0 (i + Z.of_nat n))
  else Z.to_nat (Z.min i (Z.of_nat n)).

Definition lo (n : nat) (r : srange) : nat :=
  match r.1 with None => 0 | Some a => py_bound n a end.

Definition hi (n : nat) (r : srange) : nat :=
  match r.2 with None => n | Some b => py_bound n b end.

(** Number of selected positions. *)
Definition width (n : nat) (r : srange) : nat := hi n r - lo n r.

Section arrays1.
Context {A : Type}.

(** [l[a:b]] *)
Definition get1 (r : srange) (l : list A) : list A :=
  take (width (length l) r) (drop (lo (length l) r) l).

(** The positions [r] of [l] combined with [src] by [f], the rest kept. *)
Definition upd1 (f : A → A → A) (r : srange) (l src : list A) : list A :=
  let n := length l in
  take (lo n r) l ++ zip_with f (get1 r l) src
    ++ drop (lo n r `max` hi n r) l.

(** The positions [r] of [l] changed by [f], the rest kept. *)
Definition map1 (f : A → A) (r : srange) (l : list A) : list A :=
  let n := length l in
  take (lo n r) l ++ (f <$> get1 r l) ++ drop (lo n r `max` hi n r) l.

(** Broadcasting of one axis: a length that fits stays, length one is
    repeated, anything else is the [ValueError] of NumPy. *)
Definition stretch (n : nat) (l : list A) : option (list A) :=
  if decide (length l = n) then Some l
  else match l with
       | [x] => Some (replicate n x)
       | _ => None
       end.
End arrays1.

Section arrays2.
Context {A : Type}.

(** [m[a:b, c:d]] *)
Definition get2 (rr rc : srange) (m : matrix A) : matrix A :=
  get1 rc <$> get1 rr m.

Definition ncols (m : matrix A) : nat :=
  match m with [] => 0 | row :: _ => length row end.

(** [np.zeros([r, c])] with [v = 0] *)
Definition full (r c : Z) (v : A) : matrix A :=
  replicate (Z.to_nat r) (replicate (Z.to_nat c) v).

(** [matlib.repmat(m, 2, 2)] *)
Definition repmat22 (m : matrix A) : matrix A :=
  ((λ row, row ++ row) <$> m) ++ ((λ row, row ++ row) <$> m).

Definition broadcast_to (r c : nat) (src : matrix A) : option (matrix A) :=
  rows ← stretch r src; mapM (stretch c) rows.

(** [m[a:b, c:d] = src] with [f _ s = s], [m[a:b, c:d] += src] with the
    addition for [f]. *)
Definition upd2 (f : A → A → A) (rr rc : srange) (m src : matrix A)
  : option (matrix A) :=
  let n := length m in
  src' ← broadcast_to (width n rr) (width (ncols m) rc) src;
  Some (take (lo n rr) m ++ zip_with (upd1 f rc) (get1 rr m) src'
          ++ drop (lo n rr `max` hi n rr) m).

Definition assign2
  : srange → srange → matrix A → matrix A → option (matrix A) :=
  upd2 (λ _ s, s).

(** [m[a:b, c:d] += v] for a scalar [v], which always broadcasts. *)
Definition map2 (f : A → A) (rr rc : srange) (m : matrix A) : matrix A :=
  map1 (map1 f rc) rr m.

(** [m.flatten()] *)
Definition flatten (m : matrix A) : list A := concat m.

(** [m.shape == (r, c)] *)
Definition shaped (r c : nat) (m : matrix A) : Prop :=
  length m = r ∧ Forall (λ row, length row = c) m.

Definition has_shape (r c : Z) (m : matrix A) : Prop :=
  Z.of_nat (length m) = r ∧ Forall (λ row, Z.of_nat (length row) = c) m.
End arrays2.

(** The length two broadcast axes agree on. *)
Definition common (a b : nat) : option nat :=
  if decide (a = b) then Some a
  else if decide (a = 1) then Some b
  else if decide (b = 1) then Some a
  else None.

(** Elementwise binary operation of two 2-D arrays, each broadcast to the
    common shape. *)
Definition zip2 {A B D : Type} (f : A → B → D) (a : matrix A) (b : matrix B)
  : option (matrix D) :=
  r ← common (length a) (length b);
  c ← common (ncols a) (ncols b);
  a' ← broadcast_to r c a;
  b' ← broadcast_to r c b;
  Some (zip_with (zip_with f) a' b').

(** [np.arange(0, stop, step)] has [ceil(stop / step)] entries. *)
Definition arange (stop step : Z) : option (list Z) :=
  if (step =? 0)%Z then None
  else Some ((λ k, Z.of_nat k * step)%Z
               <$> seq 0 (Z.to_nat (- (- stop / step)))).

(** [np.meshgrid(v, v)], both results flattened. *)
Definition meshgrid_flat (v : list Z) : list Z * list Z :=
  (concat (replicate (length v) v),
   concat ((λ y, replicate (length v) y) <$> v)).

End Np.

(** ** Complex numbers *)

Module Cx.

Definition C : Type := R * R.

Definition C0 : C := (0, 0)%R.
Definition RtoC (x : R) : C := (x, 0%R).
Definition Cadd (z w : C) : C := (z.1 + w.1, z.2 + w.2)%R.
Definition Csub (z w : C) : C := (z.1 - w.1, z.2 - w.2)%R.
Definition Cmul (z w : C) : C :=
  (z.1 * w.1 - z.2 * w.2, z.1 * w.2 + z.2 * w.1)%R.
Definition Cconj (z : C) : C := (z.1, - z.2)%R.
Definition Cscale (a : R) (z : C) : C := (a * z.1, a * z.2)%R.

(** [z / a] for a real [a] *)
Definition Cdivr (z : C) (a : R) : C := (z.1 / a, z.2 / a)%R.

(** [z / w] *)
Definition Cdiv (z w : C) : C :=
  Cdivr (Cmul z (Cconj w)) (w.1 * w.1 + w.2 * w.2)%R.

(** [np.abs] *)
Definition Cabs (z : C) : R := sqrt (z.1 * z.1 + z.2 * z.2).

(** [np.exp(1j * t)] *)
Definition cis (t : R) : C := (cos t, sin t).

Definition atan2 (y x : R) : R :=
  if Rlt_dec 0 x then atan (y / x)
  else if Rlt_dec x 0 then
    if Rle_dec 0 y then (atan (y / x) + PI)%R else (atan (y / x) - PI)%R
  else if Rlt_dec 0 y then (PI / 2)%R
  else if Rlt_dec y 0 then (- PI / 2)%R
  else 0%R.

(** [np.angle] *)
Definition angle (z : C) : R := atan2 z.2 z.1.

Definition Csum (l : list C) : C := foldr Cadd C0 l.

End Cx.

Import Cx.

(** ** Error metric *)

(** [np.vdot(a, b)]: the first argument is conjugated; operands of different
    sizes are a [ValueError]. *)
Definition vdot (a b : list C) : option C :=
  if decide (length a = length b)
  then Some (Csum (zip_with (λ x y, Cmul (Cconj x) y) a b))
  else None.

(** [mse = np.abs(np.vdot(xt,xt)) + np.abs(np.vdot(xest,xest))
           - 2*np.abs(np.vdot(xt,xest))], then [mse / xt.shape[0]].  For
    empty vectors [mse] is [0.0] and the quotient [0.0/0] is nan: there is
    no value. *)
Definition minAngMSE (xt xest : list C) : option R :=
  vtt ← vdot xt xt;
  vee ← vdot xest xest;
  vte ← vdot xt xest;
  let mse := (Cabs vtt + Cabs vee - 2 * Cabs vte)%R in
  if decide (length xt = 0) then None
  else Some (mse / INR (length xt))%R.

(** The squared Euclidean norm of a vector. *)
Definition norm2 (x : list C) : R :=
  foldr (λ z acc, z.1 * z.1 + z.2 * z.2 + acc)%R 0%R x.


(** ** Configuration and window geometry *)

Fixpoint foldlM {S B : Type} (f : S → B → option S) (s : S) (l : list B)
  : option S :=
  match l with
  | [] => Some s
  | b :: l => s' ← f s b; foldlM f s' l
  end.

(** The globals of the notebook. *)
Record config : Type := Config {
  N : Z;
  L : Z;
  pad_size : Z;
  pitch : Z;
  is_mask : bool;
  is_noisy : bool;
  mask : matrix C
}.

Definition M (cfg : config) : Z := (L cfg + pad_size cfg * 2)%Z.

(** [int(N/pitch)**2]; the division raises for [pitch = 0]. *)
Definition total_frame (cfg : config) : option Z :=
  if (pitch cfg =? 0)%Z then None
  else Some ((N cfg ÷ pitch cfg) ^ 2)%Z.

(** [np.zeros([r, c])] raises for a negative dimension. *)
Definition zeros {A : Type} (zero : A) (r c : Z) : option (matrix A) :=
  if ((r <? 0) || (c <? 0))%Z then None else Some (Np.full r c zero).

Definition mesh (cfg : config) : option (list Z) :=
  Np.arange (N cfg) (pitch cfg).

Definition xlocations (cfg : config) : option (list Z) :=
  v ← mesh cfg; Some (Np.meshgrid_flat v).1.

Definition ylocations (cfg : config) : option (list Z) :=
  v ← mesh cfg; Some (Np.meshgrid_flat v).2.

(** The window of frame [i] as the two slices [x:x+L] and [y:y+L]. *)
Definition footprint (cfg : config) (x y : Z) : Np.srange * Np.srange :=
  (Np.rng x (x + L cfg), Np.rng y (y + L cfg)).

(** One pass of [counts[x:x+L, y:y+L] += 1]. *)
Definition count_window (cfg : config) (xs ys : list Z)
    (cnt : matrix Z) (i : nat) : option (matrix Z) :=
  x ← xs !! i;
  y ← ys !! i;
  Some (Np.map2 Z.succ (footprint cfg x y).1 (footprint cfg x y).2 cnt).

(** The accumulator on the 2N x 2N grid, before the quadrants are added. *)
Definition counts_2N (cfg : config) : option (matrix Z) :=
  tf ← total_frame cfg;
  xs ← xlocations cfg;
  ys ← ylocations cfg;
  cnt ← zeros 0%Z (2 * N cfg) (2 * N cfg);
  foldlM (count_window cfg xs ys) cnt (seq 0 (Z.to_nat tf)).

(** [counts[0:N,0:N] + counts[0:N,N:2*N] + counts[N:2*N,0:N]
     + counts[N:2*N,N:2*N]] *)
Definition fold_quadrants (n : Z) (cnt : matrix Z) : option (matrix Z) :=
  let q00 := Np.get2 (Np.rng 0 n) (Np.rng 0 n) cnt in
  let q01 := Np.get2 (Np.rng 0 n) (Np.rng n (2 * n)) cnt in
  let q10 := Np.get2 (Np.rng n (2 * n)) (Np.rng 0 n) cnt in
  let q11 := Np.get2 (Np.rng n (2 * n)) (Np.rng n (2 * n)) cnt in
  s ← Np.zip2 Z.add q00 q01;
  s ← Np.zip2 Z.add s q10;
  Np.zip2 Z.add s q11.

Definition counts (cfg : config) : option (matrix Z) :=
  cnt ← counts_2N cfg; fold_quadrants (N cfg) cnt.

(** Frame [w] covers the cell [(i, j)] of the 2N x 2N grid. *)
Definition covers (cfg : config) (xs ys : list Z) (w i j : nat) : Prop :=
  ∃ x y, xs !! w = Some x ∧ ys !! w = Some y
         ∧ (x ≤ Z.of_nat i < x + L cfg)%Z ∧ (y ≤ Z.of_nat j < y + L cfg)%Z.

(** Sum of the entries of an integer array. *)
Definition sumZ (l : list Z) : Z := foldr Z.add 0%Z l.
Definition sum2 (m : matrix Z) : Z := sumZ (sumZ <$> m).

(** ** Sample configurations and inputs *)

Definition example_cfg (n l p : Z) : config :=
  Config n l 0 p false false [].

(** Size 4, windows of 3 every 2: the last frame crosses both borders. *)
Definition cfg_wrap : config := example_cfg 4 3 2.

(** Size 4, windows of 1 every 2: the pitch exceeds the window. *)
Definition cfg_sparse : config := example_cfg 4 1 2.

Definition sample_grid : matrix Z :=
  [[1; 2; 3; 4]; [5; 6; 7; 8]; [9; 10; 11; 12]; [13; 14; 15; 16]]%Z.

(** ** Transforms, shifts and padding *)

Definition mmap {A B : Type} (f : A → B) (m : matrix A) : matrix B :=
  (λ row : list A, f <$> row) <$> m.

(** [b] copies of [zero], then [l], then [a] copies of [zero]. *)
Definition pad_axis {A : Type} (b a : Z) (zero : A) (l : list A) : list A :=
  replicate (Z.to_nat b) zero ++ l ++ replicate (Z.to_nat a) zero.

(** Padding of the two axes of a 2-D array by [(b1, a1)] and [(b2, a2)]. *)
Definition pad_rows_cols (b1 a1 b2 a2 : Z) (m : matrix C) : matrix C :=
  let w := (b2 + Z.of_nat (Np.ncols m) + a2)%Z in
  pad_axis b1 a1 (replicate (Z.to_nat w) C0) (pad_axis b2 a2 C0 <$> m).

(** [np.pad(m, p)]: every axis gets [p] zeros on both sides; a negative
    width is a [ValueError]. *)
Definition np_pad (p : Z) (m : matrix C) : option (matrix C) :=
  if (p <? 0)%Z then None else Some (pad_rows_cols p p p p m).

(** [np.roll(l, -k)] *)
Definition roll_left {A : Type} (k : nat) (l : list A) : list A :=
  drop k l ++ take k l.

(** One axis of [ifftshift]: a roll by [-(n//2)]. *)
Definition ifftshift1 {A : Type} (l : list A) : list A :=
  roll_left (length l / 2) l.

(** One axis of [fftshift]: a roll by [n//2]. *)
Definition fftshift1 {A : Type} (l : list A) : list A :=
  roll_left (length l - length l / 2) l.

(** [np.fft.ifftshift], [np.fft.fftshift] of a 2-D array (both axes). *)
Definition ifftshift (m : matrix C) : matrix C :=
  ifftshift1 (ifftshift1 <$> m).
Definition fftshift (m : matrix C) : matrix C :=
  fftshift1 (fftshift1 <$> m).

(** The 2-D discrete Fourier sum with sign [sgn] in the exponent:
    entry [(k, l)] is the sum over [(p, q)] of
    [m[p][q] * exp(sgn * 2 pi j (p k / r + q l / c))]. *)
Definition dft_entry (sgn : R) (r c : nat) (m : matrix C) (k l : nat) : C :=
  Csum (imap (λ p row,
    Csum (imap (λ q v,
      Cmul v (cis (sgn * 2 * PI *
                   (INR p * INR k / INR r + INR q * INR l / INR c))%R)) row)) m).

Definition dft2 (sgn : R) (m : matrix C) : matrix C :=
  let r := length m in
  let c := Np.ncols m in
  (λ k, (λ l, dft_entry sgn r c m k l) <$> seq 0 c) <$> seq 0 r.

Definition is_empty2 {A : Type} (m : matrix A) : bool :=
  (length m =? 0) || (Np.ncols m =? 0).

(** [np.fft.fft2], [np.fft.ifft2]; an axis of length 0 is a [ValueError]. *)
Definition fft2 (m : matrix C) : option (matrix C) :=
  if is_empty2 m then None else Some (dft2 (-1) m).

Definition ifft2 (m : matrix C) : option (matrix C) :=
  if is_empty2 m then None
  else Some (mmap (λ z, Cdivr z (INR (length m) * INR (Np.ncols m))%R)
               (dft2 1 m)).

(** ** Forward model, NumPy spelling (measurement synthesis) *)

(** [np.pad(W * mask, pad_size)] or [np.pad(W, pad_size)] *)
Definition masked_pad (cfg : config) (W : matrix C) : option (matrix C) :=
  if is_mask cfg then
    Wm ← Np.zip2 Cmul W (mask cfg); np_pad (pad_size cfg) Wm
  else np_pad (pad_size cfg) W.

(** [np.abs(np.fft.ifft2(np.fft.ifftshift(imSeqLowFT))) * M] *)
Definition forward_np (cfg : config) (W : matrix C) : option (matrix R) :=
  imSeqLowFT ← masked_pad cfg W;
  f ← ifft2 (ifftshift imSeqLowFT);
  Some (mmap (λ z, Cabs z * IZR (M cfg))%R f).

(** ** Forward model, TensorFlow spelling (the graph of the loss) *)

Module Tf.

(** [tf.multiply(X, MASK)]: the mask is broadcast along the batch axis. *)
Definition multiply (X : list (matrix C)) (MASK : matrix C)
  : option (list (matrix C)) :=
  mapM (λ W, Np.zip2 Cmul W MASK) X.

(** [tf.pad] of a rank-3 tensor; [paddings] has one pair per axis. *)
Definition pad (X : list (matrix C)) (paddings : list (Z * Z))
  : option (list (matrix C)) :=
  match paddings with
  | [(b0, a0); (b1, a1); (b2, a2)] =>
      if ((b0 <? 0) || (a0 <? 0) || (b1 <? 0) || (a1 <? 0)
          || (b2 <? 0) || (a2 <? 0))%Z then None
      else
        let inner := pad_rows_cols b1 a1 b2 a2 <$> X in
        let zero := match inner with
                    | [] => []
                    | W :: _ => mmap (λ _, C0) W
                    end in
        Some (pad_axis b0 a0 zero inner)
  | _ => None
  end.

(** [tf.signal.ifftshift(X, axes)] for axes among 0, 1, 2. *)
Definition ifftshift (X : list (matrix C)) (axes : list nat)
  : list (matrix C) :=
  let X2 := if bool_decide (2 ∈ axes)
            then (λ W : matrix C, ifftshift1 <$> W) <$> X else X in
  let X1 := if bool_decide (1 ∈ axes)
            then (λ W : matrix C, ifftshift1 W) <$> X2 else X2 in
  if bool_decide (0 ∈ axes) then ifftshift1 X1 else X1.

(** [tf.signal.ifft2d]: the inverse transform of the two inner axes. *)
Definition ifft2d (X : list (matrix C)) : option (list (matrix C)) :=
  mapM ifft2 X.

(** [tf.abs(...) * M] *)
Definition abs_scale (m : Z) (X : list (matrix C)) : list (matrix R) :=
  mmap (λ z, Cabs z * IZR m)%R <$> X.

Definition paddings (cfg : config) : list (Z * Z) :=
  [(0, 0); (pad_size cfg, pad_size cfg); (pad_size cfg, pad_size cfg)]%Z.

Definition X_FT_EST_PAD (cfg : config) (X_FT_EST : list (matrix C))
  : option (list (matrix C)) :=
  if is_mask cfg then
    Xm ← multiply X_FT_EST (mask cfg); pad Xm (paddings cfg)
  else pad X_FT_EST (paddings cfg).

Definition FORWARD (cfg : config) (X_FT_EST : list (matrix C))
  : option (list (matrix R)) :=
  Xp ← X_FT_EST_PAD cfg X_FT_EST;
  f ← ifft2d (ifftshift Xp [1; 2]);
  Some (abs_scale (M cfg) f).

(** [tf.math.reduce_sum(tf.math.square(abs(MEASUREMENT) - abs(FORWARD)))],
    cast to a complex number.  The gradient of this node with respect to
    [X_FT_EST] is taken by [tf.gradients]; its values enter the embedding
    as the parameter [gradient_entry] of the simulation. *)
Definition loss (cfg : config) (X_FT_EST : list (matrix C))
    (MEASUREMENT : list (matrix R)) : option C :=
  F ← FORWARD cfg X_FT_EST;
  if decide (length MEASUREMENT = length F) then
    sq ← mapM (λ p, Np.zip2 (λ a b, (Rabs a - Rabs b) ^ 2)%R p.1 p.2)
           (zip MEASUREMENT F);
    Some (RtoC (foldr Rplus 0%R (concat (Np.flatten <$> sq))))
  else None.

End Tf.

(** ** run_simulation *)

(** The random draws of one trial: the entries of [np.random.randn(N, N)],
    the Poisson draw for an entry of a frame given its mean (the one call
    of [np.random.poisson] of a trial draws once for every entry), and the
    rearrangement that [random.shuffle] applies in a given outer loop. *)
Record oracle : Type := Oracle {
  randn : nat → nat → R;
  poisson : nat → nat → nat → R → R;
  shuffle : nat → list nat → list nat
}.

(** The largest mean that [np.random.poisson] accepts,
    [np.iinfo('l').max - np.sqrt(np.iinfo('l').max)*10], for a [long] of
    64 bits: about 9.22e18. *)
Definition poisson_lam_max : R :=
  (IZR (2 ^ 63 - 1) - sqrt (IZR (2 ^ 63 - 1)) * 10)%R.

(** The test of [np.random.poisson] on a mean: one below 0 or above
    [poisson_lam_max] is a [ValueError]. *)
Definition poisson_accepts (lam : R) : bool :=
  if Rle_dec 0 lam then (if Rle_dec lam poisson_lam_max then true else false)
  else false.

(** Ghost record of the solver steps taken. *)
Inductive event : Type :=
  | Projected (loop i : nat)
  | Descended (iter_ : nat).

(** [np.zeros([n, r, c])] *)
Definition zeros3 {A : Type} (zero : A) (n r c : Z)
  : option (list (matrix A)) :=
  if ((n <? 0) || (r <? 0) || (c <? 0))%Z then None
  else Some (replicate (Z.to_nat n) (Np.full r c zero)).

(** [t[i,:,:] = src] for a frame [i] inside the batch *)
Definition set_frame {A : Type} (r c : Z) (t : list (matrix A)) (i : nat)
    (src : matrix A) : option (list (matrix A)) :=
  src' ← Np.broadcast_to (Z.to_nat r) (Z.to_nat c) src;
  Some (<[i := src']> t).

Section simulation.
Context (cfg : config).

(** Entry [(i, r, c)] of what the session returns for [gradient], given
    the feeds for [X_FT_EST] and [MEASUREMENT]. *)
Context (gradient_entry :
           list (matrix C) → list (matrix R) → nat → nat → nat → C).

Definition crosses (v : Z) : bool := (v >? N cfg - L cfg)%Z.

(** *** Measurement *)

Definition measure_frame (objectFT : matrix C) (xs ys : list Z)
    (imSeqLowRes : list (matrix R)) (i : nat) : option (list (matrix R)) :=
  x ← xs !! i;
  y ← ys !! i;
  frame ← forward_np cfg
    (Np.get2 (footprint cfg x y).1 (footprint cfg x y).2 objectFT);
  set_frame (M cfg) (M cfg) imSeqLowRes i frame.

(** [np.sqrt(np.random.poisson(np.power(np.abs(imSeqLowRes), 2)))]:
    no draw is made when the sampler refuses one of the means. *)
Definition add_noise (o : oracle) (imSeqLowRes : list (matrix R))
  : option (list (matrix R)) :=
  let lam := mmap (λ v, (Rabs v ^ 2)%R) <$> imSeqLowRes in
  if forallb (forallb (forallb poisson_accepts)) lam then
    Some (imap (λ i frame,
            imap (λ r row,
              imap (λ c m, sqrt (poisson o i r c m)) row) frame) lam)
  else None.

Definition measurement (o : oracle) (xt : matrix C) (cnts : matrix Z)
    (xs ys : list Z) (tf : Z) : option (list (matrix R)) :=
  f ← fft2 xt;
  objectFT ← Np.zip2 (λ z c, Cdivr z (sqrt (IZR c)))
               (mmap (λ z, Cdivr z (IZR (N cfg))) (fftshift f)) cnts;
  let objectFT := Np.repmat22 objectFT in
  imSeqLowRes ← zeros3 0%R tf (M cfg) (M cfg);
  imSeqLowRes ← foldlM (measure_frame objectFT xs ys) imSeqLowRes
                   (seq 0 (Z.to_nat tf));
  if is_noisy cfg then add_noise o imSeqLowRes else Some imSeqLowRes.

(** *** Projection *)

(** The block of every window, as the measurement and the gradient stage
    read it from the 2 x 2 replication. *)
Definition window {A : Type} (imageRecoverFT : matrix A) (x y : Z)
  : matrix A :=
  Np.get2 (footprint cfg x y).1 (footprint cfg x y).2
    (Np.repmat22 imageRecoverFT).

(** The block a projection step reads: from the estimate itself when the
    window crosses no border, from its replication otherwise. *)
Definition read_window {A : Type} (imageRecoverFT : matrix A) (x y : Z)
  : matrix A :=
  if negb (crosses x) && negb (crosses y)
  then Np.get2 (footprint cfg x y).1 (footprint cfg x y).2 imageRecoverFT
  else window imageRecoverFT x y.

(** From the block read to the block written: the measured amplitude
    replaces the modulus of the low resolution field. *)
Definition gs_correct (frame : matrix R) (blk : matrix C)
  : option (matrix C) :=
  padded ← masked_pad cfg blk;
  imLowRes ← ifft2 (ifftshift padded);
  imLowRes ← Np.zip2 (λ a z, Cmul (RtoC a) (cis (angle z))) frame imLowRes;
  f ← fft2 imLowRes;
  let inverse := mmap (λ z, Cdivr z (IZR (M cfg))) (fftshift f) in
  let p := pad_size cfg in
  let inverse :=
  Np.get2 (Np.rng p (p + L cfg)) (Np.rng p (p + L cfg)) inverse in
  if is_mask cfg then Np.zip2 Cdiv inverse (mask cfg) else Some inverse.

(** The write of the corrected block, whole or in two or four pieces. *)
Definition write_back {A : Type} (imageRecoverFT : matrix A) (x y : Z)
    (inverse : matrix A) : option (matrix A) :=
  let n := N cfg in
  let l := L cfg in
  if negb (crosses x) && negb (crosses y) then
    Np.assign2 (Np.rng x (x + l)) (Np.rng y (y + l)) imageRecoverFT inverse
  else if crosses x && negb (crosses y) then
    e ← Np.assign2 (Np.rng x n) (Np.rng y (y + l)) imageRecoverFT
           (Np.get2 (Np.rng 0 (n - x)) Np.all inverse);
    Np.assign2 (Np.rng 0 (l + x - n)) (Np.rng y (y + l)) e
      (Np.get2 (Np.from (n - x)) Np.all inverse)
  else if negb (crosses x) && crosses y then
    e ← Np.assign2 (Np.rng x (x + l)) (Np.rng y n) imageRecoverFT
           (Np.get2 Np.all (Np.rng 0 (n - y)) inverse);
    Np.assign2 (Np.rng x (x + l)) (Np.rng 0 (l + y - n)) e
      (Np.get2 Np.all (Np.from (n - y)) inverse)
  else
    e ← Np.assign2 (Np.rng x n) (Np.rng y n) imageRecoverFT
           (Np.get2 (Np.rng 0 (n - x)) (Np.rng 0 (n - y)) inverse);
    e ← Np.assign2 (Np.rng 0 (l + x - n)) (Np.rng 0 (l + y - n)) e
           (Np.get2 (Np.rng (n - x) n) (Np.from (n - y)) inverse);
    e ← Np.assign2 (Np.rng x n) (Np.rng 0 (l + y - n)) e
           (Np.get2 (Np.rng 0 (n - x)) (Np.from (n - y)) inverse);
    Np.assign2 (Np.rng 0 (l + x - n)) (Np.rng y n) e
      (Np.get2 (Np.from (n - x)) (Np.rng 0 (n - y)) inverse).

Definition projection_step (imSeqLowRes : list (matrix R)) (xs ys : list Z)
    (loop : nat) (st : matrix C * list event) (i : nat)
  : option (matrix C * list event) :=
  x ← xs !! i;
  y ← ys !! i;
  frame ← imSeqLowRes !! i;
  inverse ← gs_correct frame (read_window st.1 x y);
  e ← write_back st.1 x y inverse;
  Some (e, st.2 ++ [Projected loop i]).

Definition projection_loop (o : oracle) (imSeqLowRes : list (matrix R))
    (xs ys : list Z) (st : matrix C * list nat * list event) (loop : nat)
  : option (matrix C * list nat * list event) :=
  let sq := shuffle o loop st.1.2 in
  r ← foldlM (projection_step imSeqLowRes xs ys loop) (st.1.1, st.2) sq;
  Some (r.1, sq, r.2).

(** *** Gradient descent *)

Definition extract_frame (rep : matrix C) (xs ys : list Z)
    (batch_tensor : list (matrix C)) (i : nat) : option (list (matrix C)) :=
  x ← xs !! i;
  y ← ys !! i;
  set_frame (L cfg) (L cfg) batch_tensor i
    (Np.get2 (footprint cfg x y).1 (footprint cfg x y).2 rep).

Definition extract_batch (imageRecoverFT : matrix C) (xs ys : list Z)
    (tf : Z) : option (list (matrix C)) :=
  let imageRecoverFTRep := Np.repmat22 imageRecoverFT in
  batch_tensor ← zeros3 C0 tf (L cfg) (L cfg);
  foldlM (extract_frame imageRecoverFTRep xs ys) batch_tensor
    (seq 0 (Z.to_nat tf)).

(** What [sess.run(gradient, ...)[0]] returns: an array with the shape of
    the feed for [X_FT_EST]. *)
Definition gradient (batch_tensor : list (matrix C))
    (imSeqLowRes : list (matrix R)) : list (matrix C) :=
  imap (λ i W,
    imap (λ r row,
      imap (λ c _, gradient_entry batch_tensor imSeqLowRes i r c) row) W)
    batch_tensor.

Definition iadd2 : Np.srange → Np.srange → matrix C → matrix C
                   → option (matrix C) :=
  Np.upd2 Cadd.

(** The accumulation of one gradient block, whole or in pieces. *)
Definition scatter_add (gradient_sum : matrix C) (x y : Z) (g : matrix C)
  : option (matrix C) :=
  let n := N cfg in
  let l := L cfg in
  if negb (crosses x) && negb (crosses y) then
    iadd2 (Np.rng x (x + l)) (Np.rng y (y + l)) gradient_sum g
  else if crosses x && negb (crosses y) then
    s ← iadd2 (Np.rng x n) (Np.rng y (y + l)) gradient_sum
           (Np.get2 (Np.rng 0 (n - x)) Np.all g);
    iadd2 (Np.rng 0 (l + x - n)) (Np.rng y (y + l)) s
      (Np.get2 (Np.from (n - x)) Np.all g)
  else if negb (crosses x) && crosses y then
    s ← iadd2 (Np.rng x (x + l)) (Np.rng y n) gradient_sum
           (Np.get2 Np.all (Np.rng 0 (n - y)) g);
    iadd2 (Np.rng x (x + l)) (Np.rng 0 (l + y - n)) s
      (Np.get2 Np.all (Np.from (n - y)) g)
  else
    s ← iadd2 (Np.rng x n) (Np.rng y n) gradient_sum
           (Np.get2 (Np.rng 0 (n - x)) (Np.rng 0 (n - y)) g);
    s ← iadd2 (Np.rng 0 (l + x - n)) (Np.rng 0 (l + y - n)) s
           (Np.get2 (Np.rng (n - x) n) (Np.from (n - y)) g);
    s ← iadd2 (Np.rng x n) (Np.rng 0 (l + y - n)) s
           (Np.get2 (Np.rng 0 (n - x)) (Np.from (n - y)) g);
    iadd2 (Np.rng 0 (l + x - n)) (Np.rng y n) s
      (Np.get2 (Np.from (n - x)) (Np.rng 0 (n - y)) g).

Definition scatter_frame (gradient_tensor : list (matrix C)) (xs ys : list Z)
    (gradient_sum : matrix C) (i : nat) : option (matrix C) :=
  x ← xs !! i;
  y ← ys !! i;
  g ← gradient_tensor !! i;
  scatter_add gradient_sum x y g.

(** From the gradient of the batch to the next estimate:
    [imageRecoverFT - lr * gradient_sum/counts]. *)
Definition gd_update (lr : R) (cnts : matrix Z) (xs ys : list Z) (tf : Z)
    (imageRecoverFT : matrix C) (gradient_tensor : list (matrix C))
  : option (matrix C) :=
  gradient_sum ← zeros C0 (N cfg) (N cfg);
  gradient_sum ← foldlM (scatter_frame gradient_tensor xs ys) gradient_sum
                    (seq 0 (Z.to_nat tf));
  step ← Np.zip2 (λ g c, Cdivr g (IZR c))
           (mmap (Cscale lr) gradient_sum) cnts;
  Np.zip2 Csub imageRecoverFT step.

Definition gd_iteration (lr : R) (imSeqLowRes : list (matrix R))
    (cnts : matrix Z) (xs ys : list Z) (tf : Z)
    (st : matrix C * list event) (iter_ : nat)
  : option (matrix C * list event) :=
  batch_tensor ← extract_batch st.1 xs ys tf;
  e ← gd_update lr cnts xs ys tf st.1 (gradient batch_tensor imSeqLowRes);
  Some (e, st.2 ++ [Descended iter_]).

(** *** One trial and the whole simulation *)

Record outcome : Type := Outcome {
  estimate : matrix C;
  steps : list event;
  error : R
}.

Definition run_trial (num_projection_loop num_gd_iteration : nat) (lr : R)
    (o : oracle) (xt : matrix C) : option outcome :=
  tf ← total_frame cfg;
  xs ← xlocations cfg;
  ys ← ylocations cfg;
  cnts ← counts cfg;
  imSeqLowRes ← measurement o xt cnts xs ys tf;
  let n := Z.to_nat (N cfg) in
  let imageRecover :=
    (λ i, (λ j, RtoC (randn o i j)) <$> seq 0 n) <$> seq 0 n in
  f ← fft2 imageRecover;
  let imageRecoverFT := fftshift f in
  st ← foldlM (projection_loop o imSeqLowRes xs ys)
         (imageRecoverFT, seq 0 (Z.to_nat tf), [])
         (seq 0 num_projection_loop);
  st ← foldlM (gd_iteration lr imSeqLowRes cnts xs ys tf) (st.1.1, st.2)
         (seq 0 num_gd_iteration);
  scaled ← Np.zip2 (λ z c, Cscale (sqrt (IZR c)) z) st.1 cnts;
  f ← ifft2 (ifftshift scaled);
  let imageRecover := mmap (Cscale (IZR (N cfg))) f in
  mse ← minAngMSE (Np.flatten xt) (Np.flatten imageRecover);
  Some (Outcome st.1 st.2 mse).

(** [np.mean] of the errors of all trials; without trials it is nan. *)
Definition run_simulation (XT : list (matrix C))
    (num_projection_loop num_gd_iteration : nat) (lr : R)
    (os : nat → oracle) : option R :=
  outs ← mapM (λ p, run_trial num_projection_loop num_gd_iteration lr
                      (os p.1) p.2) (imap pair XT);
  if decide (length outs = 0) then None
  else Some (foldr Rplus 0%R (error <$> outs) / INR (length outs))%R.

End simulation.

(** ** More sample configurations and inputs *)

(** Size 4, masked windows of 2 every 2, padded by 1, noisy. *)
Definition cfg_masked : config :=
  Config 4 2 1 2 true true (Np.full 2 2 (1, 0)%R).

(** Size 3 with pitch 2, which does not divide it: one frame, of the size
    of the array. *)
Definition cfg_odd : config := Config 3 3 1 2 false false [].

(** Size 3 with pitch 2 and a mask whose entries are all zero, noisy. *)
Definition cfg_zero_mask : config :=
  Config 3 2 1 2 true true (Np.full 2 2 C0).

(** Size 1, its single frame the whole array, noisy. *)
Definition cfg_point : config := Config 1 1 0 1 false true [].

(** A signal of one entry whose intensity, 1e20, is above
    [poisson_lam_max]. *)
Definition bright : matrix C := [[(10 ^ 10, 0)%R]].

Definition ones (n : Z) : matrix C := Np.full n n (1, 0)%R.

(** An oracle whose shuffle keeps the order. *)
Definition still : oracle :=
  Oracle (λ _ _, 1%R) (λ _ _ _ m, m) (λ _ l, l).

(** An oracle whose shuffle reverses the order. *)
Definition turning : oracle :=
  Oracle (λ i j, INR (i + j)) (λ _ _ _ m, (m + 1)%R) (λ _ l, reverse l).

Definition no_gradient
  : list (matrix C) → list (matrix R) → nat → nat → nat → C :=
  λ _ _ _ _ _, C0.

(** ** Cells, and the other inputs of the notebook *)

(** [m[i, j]], when both indices are in range. *)
Definition at2 {A : Type} (m : matrix A) (i j : nat) : option A :=
  m !! i ≫= λ row, row !! j.

(** The index inside a window that starts at [x] of the position [p] of the
    array, the window wrapping around at [N]; [None] outside the window. *)
Definition wrap_index (cfg : config) (x : Z) (p : nat) : option nat :=
  let d := if (x <=? Z.of_nat p)%Z then (Z.of_nat p - x)%Z
           else (Z.of_nat p - x + N cfg)%Z in
  if (d <? L cfg)%Z then Some (Z.to_nat d) else None.

(** [np.exp(1j * np.random.random([L,L]) * 2 * np.pi)], the random phase
    mask; [u i j] is the uniform draw for the entry [(i, j)], and a
    negative dimension is a [ValueError]. *)
Definition random_phase_mask (l : Z) (u : nat → nat → R)
  : option (matrix C) :=
  if (l <? 0)%Z then None
  else Some ((λ i, (λ j, cis (u i j * 2 * PI)%R) <$> seq 0 (Z.to_nat l))
               <$> seq 0 (Z.to_nat l)).

(** A 3 x 3 block to write into [sample_grid]. *)
Definition sample_block : matrix Z :=
  [[21; 22; 23]; [24; 25; 26]; [27; 28; 29]]%Z.

(** Size 4, windows of 2 every 2, padded by 1, with the mask [j] on every
    entry and no noise. *)
Definition cfg_phase : config :=
  Config 4 2 1 2 true false (Np.full 2 2 (0, 1)%R).

(** * Proofs *)

(** ** Slices *)

Section slice_facts.
Context {A : Type}.
Implicit Types (l w : list A) (r : Np.srange).

Lemma py_bound_le n i : Np.py_bound n i ≤ n.
Proof. unfold Np.py_bound. destruct (Z.ltb_spec i 0); lia. Qed.

Lemma py_bound_inside n i : (0 ≤ i ≤ Z.of_nat n)%Z → Np.py_bound n i = Z.to_nat i.
Proof. intros. unfold Np.py_bound. destruct (Z.ltb_spec i 0); lia. Qed.

Lemma py_bound_nonneg n i :
  (0 ≤ i)%Z → Np.py_bound n i = Z.to_nat (Z.min i (Z.of_nat n)).
Proof. intros. unfold Np.py_bound. destruct (Z.ltb_spec i 0); lia. Qed.

Lemma lo_le n r : Np.lo n r ≤ n.
Proof. unfold Np.lo. destruct r.1; [apply py_bound_le | lia]. Qed.

Lemma hi_le n r : Np.hi n r ≤ n.
Proof. unfold Np.hi. destruct r.2; [apply py_bound_le | lia]. Qed.

Lemma length_get1 r l : length (Np.get1 r l) = Np.width (length l) r.
Proof.
  unfold Np.get1, Np.width. rewrite length_take, length_drop.
  pose proof (hi_le (length l) r). lia.
Qed.

(** A list is what lies before a slice, the slice, and what lies after. *)
Lemma get1_reassemble r l :
  take (Np.lo (length l) r) l ++ Np.get1 r l
    ++ drop (Np.lo (length l) r `max` Np.hi (length l) r) l = l.
Proof.
  unfold Np.get1, Np.width.
  pose proof (lo_le (length l) r). pose proof (hi_le (length l) r).
  destruct (decide (Np.lo (length l) r ≤ Np.hi (length l) r)) as [Hle|Hgt].
  - rewrite Nat.max_r by done.
    rewrite app_assoc, take_take_drop.
    replace (Np.lo (length l) r + (Np.hi (length l) r - Np.lo (length l) r))
      with (Np.hi (length l) r) by lia.
    apply take_drop.
  - rewrite Nat.max_l by lia.
    replace (Np.hi (length l) r - Np.lo (length l) r) with 0 by lia.
    simpl. apply take_drop.
Qed.

(** Writing back what a slice holds changes nothing. *)
Lemma upd1_same f r l src :
  zip_with f (Np.get1 r l) src = Np.get1 r l → Np.upd1 f r l src = l.
Proof.
  intros Hsame. unfold Np.upd1. rewrite Hsame. apply get1_reassemble.
Qed.

Lemma zip_with_keep_right (a b : list A) :
  length b ≤ length a → zip_with (λ _ s, s) a b = b.
Proof.
  revert a. induction b as [|y b IH]; intros [|x a] Hlen; simpl in *;
    try done; try lia.
  f_equal. apply IH. lia.
Qed.

Lemma zip_with_keep_left {B : Type} (f : A → B → A) (a : list A) (b : list B) :
  length a = length b → Forall (λ s, ∀ v, f v s = v) b →
  zip_with f a b = a.
Proof.
  intros Hlen Hb. revert a Hlen.
  induction Hb as [|y b Hy _ IH]; intros [|x a] Hlen; simpl in *; try done.
  rewrite Hy. f_equal. apply IH. lia.
Qed.

Lemma get1_fmap {B : Type} (g : A → B) r l :
  Np.get1 r (g <$> l) = g <$> Np.get1 r l.
Proof.
  unfold Np.get1. rewrite length_fmap, fmap_take, fmap_drop. done.
Qed.

Lemma get1_all l : Np.get1 Np.all l = l.
Proof.
  unfold Np.get1, Np.width, Np.hi, Np.lo. simpl.
  rewrite Nat.sub_0_r. apply take_ge. done.
Qed.

Lemma get1_from l (a : Z) :
  (0 ≤ a ≤ Z.of_nat (length l))%Z →
  Np.get1 (Np.from a) l = drop (Z.to_nat a) l.
Proof.
  intros. unfold Np.get1, Np.width, Np.hi, Np.lo. simpl.
  rewrite !py_bound_inside by lia. apply take_ge. rewrite length_drop. lia.
Qed.
End slice_facts.

Section slice_facts2.
Context {A : Type}.
Implicit Types (l w : list A) (r : Np.srange) (m : matrix A).

Lemma get1_rng' l (a b : Z) :
  (0 ≤ a)%Z → (0 ≤ b)%Z →
  Np.get1 (Np.rng a b) l = take (Z.to_nat b - Z.to_nat a) (drop (Z.to_nat a) l).
Proof.
  intros Ha Hb. unfold Np.get1, Np.width, Np.hi, Np.lo, Np.py_bound. simpl.
  destruct (Z.ltb_spec a 0), (Z.ltb_spec b 0); try lia.
  apply list_eq. intros i. rewrite !lookup_take, !lookup_drop.
  repeat case_decide; try done; try lia.
  all: try (f_equal; lia).
  all: try (symmetry; apply lookup_ge_None; lia).
  all: try (apply lookup_ge_None; lia).
Qed.

Lemma Forall_get1 (P : A → Prop) r l : Forall P l → Forall P (Np.get1 r l).
Proof. intros. unfold Np.get1. by apply Forall_take, Forall_drop. Qed.

Lemma stretch_fit n l : length l = n → Np.stretch n l = Some l.
Proof. intros. unfold Np.stretch. by rewrite decide_True. Qed.

End slice_facts2.

Section slice2_facts.
Context {A : Type}.
Implicit Types (l w : list A) (r : Np.srange) (m : matrix A).

Lemma broadcast_to_fit (rows cols : nat) m :
  length m = rows → Forall (λ row, length row = cols) m →
  Np.broadcast_to rows cols m = Some m.
Proof.
  intros Hr Hc. unfold Np.broadcast_to. rewrite stretch_fit by done. simpl.
  apply mapM_Some. apply Forall_Forall2_diag.
  eapply Forall_impl; [exact Hc|]. intros row Hrow. by apply stretch_fit.
Qed.

(** An update that leaves every selected row as it was leaves the array. *)
Lemma upd2_same f rr rc m src (cols : nat) :
  Forall (λ row, length row = cols) m →
  length src = Np.width (length m) rr →
  Forall (λ row, length row = Np.width cols rc) src →
  zip_with (Np.upd1 f rc) (Np.get1 rr m) src = Np.get1 rr m →
  Np.upd2 f rr rc m src = Some m.
Proof.
  intros Hm Hlen Hsrc Hsame. unfold Np.upd2.
  assert (Np.broadcast_to (Np.width (length m) rr)
            (Np.width (Np.ncols m) rc) src = Some src) as ->.
  { apply broadcast_to_fit; [done|].
    destruct m as [|row m].
    - destruct src; [constructor|].
      unfold Np.width, Np.hi, Np.lo in Hlen; simpl in Hlen.
      pose proof (hi_le 0 rr). unfold Np.hi in *. simpl in *. lia.
    - simpl. inversion Hm; subst. done. }
  simpl. f_equal. rewrite Hsame. apply get1_reassemble.
Qed.

Lemma assign2_same rr rc m (cols : nat) :
  Forall (λ row, length row = cols) m →
  Np.assign2 rr rc m (Np.get2 rr rc m) = Some m.
Proof.
  intros Hm. unfold Np.assign2, Np.get2. apply upd2_same with cols; [done|..].
  - by rewrite length_fmap, length_get1.
  - apply Forall_fmap. apply Forall_get1.
    eapply Forall_impl; [exact Hm|]. intros row <-. simpl. apply length_get1.
  - induction (Np.get1 rr m) as [|row rows IH]; [done|]. simpl. f_equal; [|done].
    apply upd1_same. apply zip_with_keep_right. done.
Qed.

(** An accumulation of blocks that are neutral for [f]. *)
Lemma upd2_neutral f rr rc m src (cols : nat) :
  Forall (λ row, length row = cols) m →
  length src = Np.width (length m) rr →
  Forall (λ row, length row = Np.width cols rc) src →
  Forall (Forall (λ s, ∀ v, f v s = v)) src →
  Np.upd2 f rr rc m src = Some m.
Proof.
  intros Hm Hlen Hsrc Hneutral. apply upd2_same with cols; try done.
  assert (Forall (λ row, length row = cols) (Np.get1 rr m)) as Hrows
    by by apply Forall_get1.
  assert (length (Np.get1 rr m) = length src) as Hl
    by by rewrite length_get1.
  clear Hlen. revert src Hsrc Hneutral Hl.
  induction Hrows as [|row rows Hrow _ IH]; intros [|s src] Hsrc Hn Hl;
    simpl in *; try done.
  inversion Hsrc; inversion Hn; subst. f_equal.
  - apply upd1_same. apply zip_with_keep_left; [|done].
    rewrite length_get1. congruence.
  - apply IH; try done. lia.
Qed.
End slice2_facts.

(** ** Windows of the replicated array *)

Section window_facts.
Context {A : Type}.
Implicit Types (l : list A).

(** A window that ends before the border reads the array itself. *)
Lemma window_inside l (x len : Z) :
  (0 ≤ x)%Z → (0 ≤ len)%Z → (x + len ≤ Z.of_nat (length l))%Z →
  Np.get1 Np.all (Np.get1 (Np.rng x (x + len)) (l ++ l))
  = Np.get1 (Np.rng x (x + len)) l.
Proof.
  intros. rewrite get1_all, !get1_rng' by lia.
  rewrite drop_app_le by lia. rewrite take_app_le; [done|].
  rewrite length_drop. lia.
Qed.

Lemma window_wrap l (x len : Z) :
  (0 ≤ x)%Z → (x ≤ Z.of_nat (length l))%Z → (len ≤ Z.of_nat (length l))%Z →
  (Z.of_nat (length l) < x + len)%Z →
  Np.get1 (Np.rng x (x + len)) (l ++ l)
  = drop (Z.to_nat x) l ++ take (Z.to_nat (len + x - Z.of_nat (length l))) l.
Proof.
  intros. rewrite get1_rng' by lia. rewrite drop_app_le by lia.
  rewrite take_app, length_drop. f_equal.
  - apply take_ge. rewrite length_drop. lia.
  - f_equal. lia.
Qed.

(** The leading piece of a wrapped window is the tail of the array. *)
Lemma window_head l (x len : Z) :
  (0 ≤ x)%Z → (x ≤ Z.of_nat (length l))%Z → (len ≤ Z.of_nat (length l))%Z →
  (Z.of_nat (length l) < x + len)%Z →
  Np.get1 (Np.rng 0 (Z.of_nat (length l) - x))
    (Np.get1 (Np.rng x (x + len)) (l ++ l))
  = Np.get1 (Np.rng x (Z.of_nat (length l))) l.
Proof.
  intros. rewrite window_wrap by lia. rewrite !get1_rng' by lia.
  change (Z.to_nat 0) with 0. rewrite Nat.sub_0_r, drop_0.
  rewrite take_app_length'; [|rewrite length_drop; lia].
  symmetry. apply take_ge. rewrite length_drop. lia.
Qed.

(** The trailing piece of a wrapped window is the head of the array. *)
Lemma window_tail l (x len : Z) :
  (0 ≤ x)%Z → (x ≤ Z.of_nat (length l))%Z → (len ≤ Z.of_nat (length l))%Z →
  (Z.of_nat (length l) < x + len)%Z →
  Np.get1 (Np.from (Z.of_nat (length l) - x))
    (Np.get1 (Np.rng x (x + len)) (l ++ l))
  = Np.get1 (Np.rng 0 (len + x - Z.of_nat (length l))) l.
Proof.
  intros. rewrite window_wrap by lia. rewrite get1_from.
  2:{ rewrite length_app, length_drop, length_take. lia. }
  rewrite get1_rng' by lia.
  change (Z.to_nat 0) with 0. rewrite Nat.sub_0_r, drop_0.
  rewrite drop_app_length'; [|rewrite length_drop; lia].
  done.
Qed.

Lemma window_tail_upto l (x len : Z) :
  (0 ≤ x)%Z → (x ≤ Z.of_nat (length l))%Z → (len ≤ Z.of_nat (length l))%Z →
  (Z.of_nat (length l) < x + len)%Z →
  Np.get1 (Np.rng (Z.of_nat (length l) - x) (Z.of_nat (length l)))
    (Np.get1 (Np.rng x (x + len)) (l ++ l))
  = Np.get1 (Np.rng 0 (len + x - Z.of_nat (length l))) l.
Proof.
  intros. rewrite <- window_tail by lia. rewrite window_wrap by lia.
  rewrite get1_rng' by lia. rewrite get1_from.
  2:{ rewrite length_app, length_drop, length_take. lia. }
  apply take_ge. rewrite length_drop, length_app, length_drop, length_take. lia.
Qed.
End window_facts.

(** The pieces of a 2-D window, from the facts for one axis. *)
Lemma get2_window_piece {A : Type} (pr pc wr wc qr qc : Np.srange)
    (m : matrix A) (n : nat) :
  (∀ (B : Type) (l : list B), length l = n →
     Np.get1 pr (Np.get1 wr (l ++ l)) = Np.get1 qr l) →
  (∀ (B : Type) (l : list B), length l = n →
     Np.get1 pc (Np.get1 wc (l ++ l)) = Np.get1 qc l) →
  length m = n → Forall (λ row, length row = n) m →
  Np.get2 pr pc (Np.get2 wr wc (Np.repmat22 m)) = Np.get2 qr qc m.
Proof.
  intros Hr Hc Hlen Hm. unfold Np.get2, Np.repmat22.
  rewrite <- fmap_app, !get1_fmap, <- !list_fmap_compose.
  rewrite Hr by done.
  apply Forall_fmap_ext. apply Forall_get1.
  eapply Forall_impl; [exact Hm|]. intros row Hrow. simpl. by apply Hc.
Qed.

Lemma get2_all {A : Type} (m : matrix A) : Np.get2 Np.all Np.all m = m.
Proof.
  unfold Np.get2. rewrite get1_all.
  rewrite <- (list_fmap_id m) at 2. apply list_fmap_ext. intros _ row _.
  apply get1_all.
Qed.

Lemma has_shape_nat {A : Type} (r c : Z) (m : matrix A) :
  Np.has_shape r c m →
  length m = Z.to_nat r ∧ Forall (λ row, length row = Z.to_nat c) m.
Proof.
  intros [Hr Hc]. split; [lia|].
  eapply Forall_impl; [exact Hc|]. simpl. intros; lia.
Qed.

Section write_back_facts.
Context {A : Type} (cfg : config).
Implicit Types (est : matrix A).

Local Ltac axis_fact :=
  let B := fresh "B" in let l := fresh "l" in let Hl := fresh "Hl" in
  intros B l Hl;
  replace (N cfg) with (Z.of_nat (length l)) by lia;
  first [ apply window_inside | apply window_head | apply window_tail
        | apply window_tail_upto ]; lia.

Local Ltac piece pr' pc' qr' qc' n' :=
  rewrite (get2_window_piece pr' pc' _ _ qr' qc' _ n');
  [ | axis_fact | axis_fact | done | done ].

(** Every block of a window, written where it was read, keeps the
    estimate. *)
Lemma write_back_window est (x y : Z) :
  Np.has_shape (N cfg) (N cfg) est →
  (0 ≤ L cfg ≤ N cfg)%Z → (0 ≤ x < N cfg)%Z → (0 ≤ y < N cfg)%Z →
  write_back cfg est x y (window cfg est x y) = Some est.
Proof.
  intros Hshape HL Hx Hy.
  destruct (has_shape_nat _ _ _ Hshape) as [Hlen Hrect].
  set (n := Z.to_nat (N cfg)) in *.
  assert (N cfg = Z.of_nat n) as HN by lia.
  unfold write_back, window, crosses, footprint. simpl.
  destruct (Z.gtb_spec x (N cfg - L cfg)), (Z.gtb_spec y (N cfg - L cfg));
    simpl.
  - piece (Np.rng 0 (N cfg - x)) (Np.rng 0 (N cfg - y))
          (Np.rng x (N cfg)) (Np.rng y (N cfg)) n.
    rewrite (assign2_same _ _ _ n) by done. simpl.
    piece (Np.rng (N cfg - x) (N cfg)) (Np.from (N cfg - y))
          (Np.rng 0 (L cfg + x - N cfg)) (Np.rng 0 (L cfg + y - N cfg)) n.
    rewrite (assign2_same _ _ _ n) by done. simpl.
    piece (Np.rng 0 (N cfg - x)) (Np.from (N cfg - y))
          (Np.rng x (N cfg)) (Np.rng 0 (L cfg + y - N cfg)) n.
    rewrite (assign2_same _ _ _ n) by done. simpl.
    piece (Np.from (N cfg - x)) (Np.rng 0 (N cfg - y))
          (Np.rng 0 (L cfg + x - N cfg)) (Np.rng y (N cfg)) n.
    by rewrite (assign2_same _ _ _ n).
  - piece (Np.rng 0 (N cfg - x)) Np.all
          (Np.rng x (N cfg)) (Np.rng y (y + L cfg)) n.
    rewrite (assign2_same _ _ _ n) by done. simpl.
    piece (Np.from (N cfg - x)) Np.all
          (Np.rng 0 (L cfg + x - N cfg)) (Np.rng y (y + L cfg)) n.
    by rewrite (assign2_same _ _ _ n).
  - piece Np.all (Np.rng 0 (N cfg - y))
          (Np.rng x (x + L cfg)) (Np.rng y (N cfg)) n.
    rewrite (assign2_same _ _ _ n) by done. simpl.
    piece Np.all (Np.from (N cfg - y))
          (Np.rng x (x + L cfg)) (Np.rng 0 (L cfg + y - N cfg)) n.
    by rewrite (assign2_same _ _ _ n).
  - rewrite <- (get2_all (Np.get2 _ _ (Np.repmat22 est))).
    piece Np.all Np.all
          (Np.rng x (x + L cfg)) (Np.rng y (y + L cfg)) n.
    by rewrite (assign2_same _ _ _ n).
Qed.
End write_back_facts.

(** ** Lookups in slices and in updated arrays *)

Section lookup_facts.
Context {A : Type}.
Implicit Types (l : list A) (r : Np.srange).

Lemma lookup_get1 r l i :
  Np.get1 r l !! i
  = if decide (i < Np.width (length l) r) then l !! (Np.lo (length l) r + i)
    else None.
Proof. unfold Np.get1. by rewrite lookup_take, lookup_drop. Qed.

Lemma lookup_map1 (f : A → A) r l i :
  Np.map1 f r l !! i
  = if decide (Np.lo (length l) r ≤ i < Np.hi (length l) r)
    then f <$> l !! i else l !! i.
Proof.
  unfold Np.map1.
  pose proof (lo_le (length l) r) as Hlo.
  pose proof (hi_le (length l) r) as Hhi.
  set (a := Np.lo (length l) r) in *. set (b := Np.hi (length l) r) in *.
  assert (length (take a l) = a) as Hta by (rewrite length_take; lia).
  assert (length (f <$> Np.get1 r l) = b - a) as Hmid
    by (rewrite length_fmap, length_get1; done).
  destruct (decide (i < a)) as [Hi|Hi].
  - rewrite lookup_app_l by lia. rewrite lookup_take_lt by done.
    rewrite decide_False by lia. done.
  - rewrite lookup_app_r by lia. rewrite Hta.
    destruct (decide (i < b)) as [Hib|Hib].
    + rewrite lookup_app_l by lia. rewrite list_lookup_fmap, lookup_get1.
      fold a. rewrite !decide_True by (unfold Np.width; fold a b; lia).
      do 2 f_equal. lia.
    + rewrite lookup_app_r by lia. rewrite Hmid, lookup_drop.
      rewrite decide_False by lia. f_equal. lia.
Qed.

Lemma length_map1 (f : A → A) r l : length (Np.map1 f r l) = length l.
Proof.
  unfold Np.map1.
  rewrite !length_app, length_fmap, length_take, length_drop, length_get1.
  pose proof (lo_le (length l) r). pose proof (hi_le (length l) r).
  unfold Np.width. lia.
Qed.
End lookup_facts.

Lemma lo_rng n (a b : Z) : (0 ≤ a ≤ Z.of_nat n)%Z → Np.lo n (Np.rng a b) = Z.to_nat a.
Proof. intros. unfold Np.lo. simpl. by apply py_bound_inside. Qed.

Lemma hi_rng n (a b : Z) : (0 ≤ b ≤ Z.of_nat n)%Z → Np.hi n (Np.rng a b) = Z.to_nat b.
Proof. intros. unfold Np.hi. simpl. by apply py_bound_inside. Qed.

Lemma width_rng n (a b : Z) :
  (0 ≤ a ≤ b)%Z → (b ≤ Z.of_nat n)%Z →
  Np.width n (Np.rng a b) = Z.to_nat (b - a).
Proof. intros. unfold Np.width. rewrite lo_rng, hi_rng by lia. lia. Qed.

(** ** Sums *)

Lemma sumZ_app (l k : list Z) : sumZ (l ++ k) = (sumZ l + sumZ k)%Z.
Proof.
  unfold sumZ. induction l as [|x l IH]; simpl; [done|]. rewrite IH. lia.
Qed.

Lemma sumZ_shift {A : Type} (g h : A → Z) (c : Z) (l : list A) :
  Forall (λ x, g x = (h x + c)%Z) l →
  sumZ (g <$> l) = (sumZ (h <$> l) + Z.of_nat (length l) * c)%Z.
Proof.
  unfold sumZ. induction 1 as [|x l Hx _ IH]; [simpl; lia|].
  rewrite !fmap_cons, length_cons. cbn [foldr]. rewrite Hx, IH. lia.
Qed.

Lemma sumZ_map1_succ r (l : list Z) :
  sumZ (Np.map1 Z.succ r l) = (sumZ l + Z.of_nat (Np.width (length l) r))%Z.
Proof.
  assert (sumZ l = sumZ (take (Np.lo (length l) r) l)
            + (sumZ (Np.get1 r l)
            + sumZ (drop (Np.lo (length l) r `max` Np.hi (length l) r) l)))%Z
    as Hl.
  { rewrite <- (get1_reassemble r l) at 1. by rewrite !sumZ_app. }
  unfold Np.map1. rewrite !sumZ_app.
  rewrite (sumZ_shift Z.succ (λ x, x) 1).
  2:{ apply Forall_forall. intros; lia. }
  rewrite list_fmap_id, length_get1. lia.
Qed.

Lemma sum2_app (m k : matrix Z) : sum2 (m ++ k) = (sum2 m + sum2 k)%Z.
Proof. unfold sum2. by rewrite fmap_app, sumZ_app. Qed.

Lemma sum2_map2_succ rr rc (m : matrix Z) (cols : nat) :
  Forall (λ row, length row = cols) m →
  sum2 (Np.map2 Z.succ rr rc m)
  = (sum2 m + Z.of_nat (Np.width (length m) rr) * Z.of_nat (Np.width cols rc))%Z.
Proof.
  intros Hm.
  assert (sum2 m = sum2 (take (Np.lo (length m) rr) m)
            + (sum2 (Np.get1 rr m)
            + sum2 (drop (Np.lo (length m) rr `max` Np.hi (length m) rr) m)))%Z
    as Hl.
  { rewrite <- (get1_reassemble rr m) at 1. by rewrite !sum2_app. }
  unfold Np.map2. unfold Np.map1 at 1. rewrite !sum2_app.
  assert (sum2 (Np.map1 Z.succ rc <$> Np.get1 rr m)
          = sum2 (Np.get1 rr m)
            + Z.of_nat (Np.width (length m) rr) * Z.of_nat (Np.width cols rc))%Z
    as Hmid.
  { unfold sum2. rewrite <- list_fmap_compose.
    rewrite (sumZ_shift _ sumZ (Z.of_nat (Np.width cols rc))).
    - by rewrite length_get1.
    - apply Forall_get1. eapply Forall_impl; [exact Hm|].
      intros row <-. simpl. apply sumZ_map1_succ. }
  lia.
Qed.

Lemma map2_shape (f : Z → Z) rr rc (m : matrix Z) (cols : nat) :
  Forall (λ row, length row = cols) m →
  length (Np.map2 f rr rc m) = length m
  ∧ Forall (λ row, length row = cols) (Np.map2 f rr rc m).
Proof.
  intros Hm. unfold Np.map2. split; [apply length_map1|].
  apply Forall_lookup. intros i row. rewrite lookup_map1.
  case_decide.
  - destruct (m !! i) as [row'|] eqn:Hrow; simpl; [|done].
    intros [= <-]. rewrite length_map1.
    by eapply (Forall_lookup_1 _ _ _ _ Hm).
  - intros Hrow. by eapply (Forall_lookup_1 _ _ _ _ Hm).
Qed.

(** ** Window coordinates *)

Lemma lookup_concat_replicate {A : Type} (k : nat) (v : list A) (i : nat) :
  i < k * length v → concat (replicate k v) !! i = v !! (i mod length v).
Proof.
  revert i. induction k as [|k IH]; intros i Hi; [lia|].
  simpl. destruct (decide (i < length v)) as [Hlt|Hge].
  - rewrite lookup_app_l by done. by rewrite Nat.mod_small.
  - rewrite lookup_app_r by lia. rewrite IH by lia.
    f_equal. replace i with ((i - length v) + 1 * length v) at 2 by lia.
    by rewrite Nat.Div0.mod_add.
Qed.

Lemma lookup_concat_repeat_each {A : Type} (n : nat) (v : list A) (i : nat) :
  i < n * length v →
  concat ((λ y, replicate n y) <$> v) !! i = v !! (i / n).
Proof.
  revert i. induction v as [|y v IH]; intros i Hi; [simpl in Hi; lia|].
  assert (0 < n) by (destruct n; simpl in *; lia).
  rewrite fmap_cons. simpl concat.
  destruct (decide (i < n)) as [Hlt|Hge].
  - rewrite lookup_app_l by (rewrite length_replicate; done).
    rewrite Nat.div_small by done. simpl. by apply lookup_replicate_2.
  - rewrite lookup_app_r by (rewrite length_replicate; lia).
    rewrite length_replicate. rewrite IH by (simpl in Hi; lia).
    replace i with ((i - n) + 1 * n) at 2 by lia.
    rewrite Nat.div_add by lia. replace ((i - n) / n + 1) with (S ((i - n) / n)) by lia.
    done.
Qed.

Lemma arange_spec (stop step : Z) :
  (0 < step)%Z → (0 ≤ stop)%Z →
  Np.arange stop step
  = Some ((λ k, Z.of_nat k * step)%Z <$> seq 0 (Z.to_nat (- (- stop / step))))
  ∧ (Z.to_nat (stop / step) ≤ Z.to_nat (- (- stop / step)))
  ∧ (∀ k, k < Z.to_nat (- (- stop / step)) → (0 ≤ Z.of_nat k * step < stop)%Z)
  ∧ ((step | stop)%Z → (- (- stop / step) = stop / step)%Z).
Proof.
  intros Hstep Hstop. unfold Np.arange.
  destruct (Z.eqb_spec step 0); [lia|].
  pose proof (Z.div_mod (- stop) step ltac:(lia)) as Hdm.
  pose proof (Z.mod_pos_bound (- stop) step Hstep) as Hmod.
  pose proof (Z.div_mod stop step ltac:(lia)) as Hdm'.
  pose proof (Z.mod_pos_bound stop step Hstep) as Hmod'.
  repeat split.
  - nia.
  - nia.
  - nia.
  - intros [c Hc]. subst stop. rewrite <- Z.mul_opp_l, !Z.div_mul by lia. lia.
Qed.

(** The coordinates of the frames, for a positive pitch. *)
Lemma locations_spec (cfg : config) :
  (0 < pitch cfg)%Z → (0 ≤ N cfg)%Z →
  ∃ (n : nat) (xs ys : list Z),
    xlocations cfg = Some xs ∧ ylocations cfg = Some ys
    ∧ total_frame cfg = Some ((N cfg / pitch cfg) ^ 2)%Z
    ∧ Z.to_nat (N cfg / pitch cfg) ≤ n
    ∧ ((pitch cfg | N cfg)%Z → Z.of_nat n = (N cfg / pitch cfg)%Z)
    ∧ (∀ k, k < n → (0 ≤ Z.of_nat k * pitch cfg < N cfg)%Z)
    ∧ (∀ i, i < n * n →
         xs !! i = Some (Z.of_nat (i mod n) * pitch cfg)%Z
         ∧ ys !! i = Some (Z.of_nat (i / n) * pitch cfg)%Z).
Proof.
  intros Hp HN.
  destruct (arange_spec (N cfg) (pitch cfg) Hp HN) as (Har & Hle & Hin & Hdiv).
  set (n := Z.to_nat (- (- N cfg / pitch cfg))) in *.
  exists n. unfold xlocations, ylocations, mesh, total_frame. rewrite Har. simpl.
  destruct (Z.eqb_spec (pitch cfg) 0); [lia|].
  do 2 eexists. repeat split; try done.
  - f_equal. f_equal. apply Z.quot_div_nonneg; lia.
  - intros Hd. specialize (Hdiv Hd). pose proof (Z.div_pos (N cfg) (pitch cfg)). lia.
  - by apply Hin.
  - by apply Hin.
  - rewrite !length_fmap, !length_seq.
    rewrite lookup_concat_replicate by (rewrite length_fmap, length_seq; done).
    rewrite length_fmap, length_seq, list_lookup_fmap.
    rewrite lookup_seq_lt by (apply Nat.mod_upper_bound; lia). done.
  - rewrite !length_fmap, !length_seq.
    rewrite lookup_concat_repeat_each by (rewrite length_fmap, length_seq; done).
    rewrite list_lookup_fmap.
    rewrite lookup_seq_lt by (apply Nat.Div0.div_lt_upper_bound; lia). done.
Qed.

(** Every frame has coordinates, and they lie inside the array. *)
Lemma locations_inside (cfg : config) :
  (0 < pitch cfg)%Z → (0 ≤ N cfg)%Z →
  ∃ (tf : Z) (xs ys : list Z),
    total_frame cfg = Some tf ∧ xlocations cfg = Some xs
    ∧ ylocations cfg = Some ys ∧ (0 ≤ tf)%Z
    ∧ ∀ i, i < Z.to_nat tf →
        ∃ x y, xs !! i = Some x ∧ ys !! i = Some y
               ∧ (0 ≤ x < N cfg)%Z ∧ (0 ≤ y < N cfg)%Z.
Proof.
  intros Hp HN.
  destruct (locations_spec cfg Hp HN)
    as (n & xs & ys & Hxs & Hys & Htf & Hle & _ & Hin & Hat).
  exists ((N cfg / pitch cfg) ^ 2)%Z, xs, ys. repeat split; try done.
  - apply Z.pow_nonneg. apply Z.div_pos; lia.
  - intros i Hi.
    assert (i < n * n) as Hi'.
    { pose proof (Z.div_pos (N cfg) (pitch cfg)). nia. }
    destruct (Hat i Hi') as [Hx Hy].
    assert (0 < n) by lia.
    eexists _, _. repeat split; try done.
    all: apply Hin; first [ apply Nat.mod_upper_bound; lia
                          | apply Nat.Div0.div_lt_upper_bound; lia ].
Qed.

(** ** Loops *)

(** A loop over [range(n)] that keeps an invariant runs to its end. *)
Lemma foldlM_range {St : Type} (f : St → nat → option St)
    (Inv : nat → St → Prop) (n : nat) (s0 : St) :
  Inv 0 s0 →
  (∀ i s, i < n → Inv i s → ∃ s', f s i = Some s' ∧ Inv (S i) s') →
  ∃ s', foldlM f s0 (seq 0 n) = Some s' ∧ Inv n s'.
Proof.
  intros H0 Hstep.
  assert (∀ k j s, j + k = n → Inv j s →
            ∃ s', foldlM f s (seq j k) = Some s' ∧ Inv n s') as Hgen.
  { induction k as [|k IH]; intros j s Hjk Hs.
    - exists s. split; [done|]. by replace n with j by lia.
    - simpl. destruct (Hstep j s ltac:(lia) Hs) as (s1 & -> & Hs1). simpl.
      apply IH; [lia|done]. }
  by apply (Hgen n 0 s0).
Qed.

Lemma foldlM_app {St B : Type} (f : St → B → option St) (s : St)
    (l k : list B) :
  foldlM f s (l ++ k) = foldlM f s l ≫= λ s', foldlM f s' k.
Proof.
  revert s. induction l as [|b l IH]; intros s; simpl; [done|].
  destruct (f s b); simpl; [apply IH|done].
Qed.

(** ** Shapes *)

Section shape_facts.
Context {A : Type}.
Implicit Types (m : matrix A).

Lemma full_shape (r c : nat) (v : A) :
  length (Np.full (Z.of_nat r) (Z.of_nat c) v) = r
  ∧ Forall (λ row, length row = c) (Np.full (Z.of_nat r) (Z.of_nat c) v).
Proof.
  unfold Np.full. rewrite !Nat2Z.id. split; [apply length_replicate|].
  apply Forall_replicate. apply length_replicate.
Qed.

Lemma get2_shape (a b c d : Z) m (rows cols : nat) :
  length m = rows → Forall (λ row, length row = cols) m →
  (0 ≤ a ≤ b)%Z → (b ≤ Z.of_nat rows)%Z →
  (0 ≤ c ≤ d)%Z → (d ≤ Z.of_nat cols)%Z →
  length (Np.get2 (Np.rng a b) (Np.rng c d) m) = Z.to_nat (b - a)
  ∧ Forall (λ row, length row = Z.to_nat (d - c))
      (Np.get2 (Np.rng a b) (Np.rng c d) m).
Proof.
  intros Hr Hc Hab Hb Hcd Hd. unfold Np.get2. split.
  - rewrite length_fmap, length_get1, width_rng; [done|lia|lia].
  - apply Forall_fmap, Forall_get1.
    eapply Forall_impl; [exact Hc|]. intros row Hrow. simpl in *.
    rewrite length_get1, width_rng; [done|lia|lia].
Qed.

Lemma ncols_rect m (cols : nat) :
  Forall (λ row, length row = cols) m →
  Forall (λ row, length row = Np.ncols m) m.
Proof.
  intros Hm. destruct m as [|row m]; [constructor|].
  simpl. inversion Hm; subst. done.
Qed.
End shape_facts.

Lemma zip2_fit {A B D : Type} (f : A → B → D) (a : matrix A) (b : matrix B)
    (cols : nat) :
  length a = length b →
  Forall (λ row, length row = cols) a → Forall (λ row, length row = cols) b →
  Np.zip2 f a b = Some (zip_with (zip_with f) a b).
Proof.
  intros Hlen Ha Hb. unfold Np.zip2.
  assert (Np.ncols a = Np.ncols b) as Hn.
  { destruct a, b; simpl in *; try done.
    inversion Ha; inversion Hb; subst. congruence. }
  unfold Np.common. rewrite !decide_True by done. simpl.
  rewrite (broadcast_to_fit _ _ a); [|done|by eapply ncols_rect]. simpl.
  rewrite (broadcast_to_fit _ _ b); [done|done|].
  rewrite Hn. by eapply ncols_rect.
Qed.

Lemma zip_with2_shape {A B D : Type} (f : A → B → D) (a : matrix A)
    (b : matrix B) (cols : nat) :
  length a = length b →
  Forall (λ row, length row = cols) a → Forall (λ row, length row = cols) b →
  length (zip_with (zip_with f) a b) = length a
  ∧ Forall (λ row, length row = cols) (zip_with (zip_with f) a b).
Proof.
  intros Hlen Ha Hb. split.
  - rewrite length_zip_with. lia.
  - apply Forall_lookup. intros i row. rewrite lookup_zip_with.
    destruct (a !! i) as [ra|] eqn:Hra; simpl; [|done].
    destruct (b !! i) as [rb|] eqn:Hrb; simpl; [|done].
    intros [= <-]. rewrite length_zip_with.
    rewrite (Forall_lookup_1 _ _ _ _ Ha Hra), (Forall_lookup_1 _ _ _ _ Hb Hrb).
    lia.
Qed.

(** ** Sums of blocks *)

Lemma sumZ_zip_add (a b : list Z) :
  length a = length b → sumZ (zip_with Z.add a b) = (sumZ a + sumZ b)%Z.
Proof.
  unfold sumZ. revert b. induction a as [|x a IH]; intros [|y b] Hlen;
    simpl in *; try done.
  rewrite IH by lia. lia.
Qed.

Lemma sum2_zip_add (a b : matrix Z) (cols : nat) :
  length a = length b →
  Forall (λ row, length row = cols) a → Forall (λ row, length row = cols) b →
  sum2 (zip_with (zip_with Z.add) a b) = (sum2 a + sum2 b)%Z.
Proof.
  intros Hlen Ha. revert b Hlen.
  induction Ha as [|ra a Hra _ IH]; intros [|rb b] Hlen Hb; simpl in *;
    try done.
  inversion Hb; subst.
  change (sum2 (zip_with Z.add ra rb :: zip_with (zip_with Z.add) a b)
          = (sum2 (ra :: a) + sum2 (rb :: b))%Z).
  assert (∀ (row : list Z) rows, sum2 (row :: rows) = (sumZ row + sum2 rows)%Z)
    as Hcons by done.
  rewrite !Hcons, IH by (done || lia).
  rewrite sumZ_zip_add by congruence. lia.
Qed.

Lemma sumZ_halves (n : Z) (row : list Z) :
  (0 ≤ n)%Z →
  (sumZ (Np.get1 (Np.rng 0 n) row) + sumZ (Np.get1 (Np.rng n (2 * n)) row))%Z
  = sumZ (Np.get1 (Np.rng 0 (2 * n)) row).
Proof.
  intros Hn. rewrite !get1_rng' by lia.
  change (Z.to_nat 0) with 0. rewrite !Nat.sub_0_r, !drop_0.
  rewrite <- sumZ_app, take_take_drop. do 2 f_equal. lia.
Qed.

Lemma sum2_halves_cols rr (n : Z) (m : matrix Z) :
  (0 ≤ n)%Z →
  (sum2 (Np.get2 rr (Np.rng 0 n) m) + sum2 (Np.get2 rr (Np.rng n (2 * n)) m))%Z
  = sum2 (Np.get2 rr (Np.rng 0 (2 * n)) m).
Proof.
  intros Hn. unfold Np.get2.
  induction (Np.get1 rr m) as [|row rows IH]; [done|].
  rewrite !fmap_cons.
  assert (∀ (r : list Z) rs, sum2 (r :: rs) = (sumZ r + sum2 rs)%Z)
    as Hcons by done.
  rewrite !Hcons. pose proof (sumZ_halves n row Hn). lia.
Qed.

Lemma sum2_halves_rows rc (n : Z) (m : matrix Z) :
  (0 ≤ n)%Z →
  (sum2 (Np.get2 (Np.rng 0 n) rc m) + sum2 (Np.get2 (Np.rng n (2 * n)) rc m))%Z
  = sum2 (Np.get2 (Np.rng 0 (2 * n)) rc m).
Proof.
  intros Hn. unfold Np.get2. rewrite !get1_rng' by lia.
  change (Z.to_nat 0) with 0. rewrite !Nat.sub_0_r, !drop_0.
  rewrite <- sum2_app, <- fmap_app, take_take_drop. do 3 f_equal. lia.
Qed.

Lemma get2_whole {A : Type} (m : matrix A) (r c : Z) :
  Np.has_shape r c m → Np.get2 (Np.rng 0 r) (Np.rng 0 c) m = m.
Proof.
  intros [Hr Hc]. unfold Np.get2.
  assert (∀ (B : Type) (l : list B) (k : Z),
            Z.of_nat (length l) = k → Np.get1 (Np.rng 0 k) l = l) as Hall.
  { intros B l k Hk. rewrite get1_rng' by lia. change (Z.to_nat 0) with 0.
    rewrite drop_0. apply take_ge. lia. }
  rewrite Hall by done. rewrite <- (list_fmap_id m) at 2.
  apply Forall_fmap_ext. eapply Forall_impl; [exact Hc|].
  intros row Hrow. simpl. by apply Hall.
Qed.

(** The four quadrants add up to the whole grid. *)
Lemma fold_quadrants_spec (n : Z) (cnt : matrix Z) :
  (0 ≤ n)%Z → Np.has_shape (2 * n) (2 * n) cnt →
  let q00 := Np.get2 (Np.rng 0 n) (Np.rng 0 n) cnt in
  let q01 := Np.get2 (Np.rng 0 n) (Np.rng n (2 * n)) cnt in
  let q10 := Np.get2 (Np.rng n (2 * n)) (Np.rng 0 n) cnt in
  let q11 := Np.get2 (Np.rng n (2 * n)) (Np.rng n (2 * n)) cnt in
  let c := zip_with (zip_with Z.add)
             (zip_with (zip_with Z.add) (zip_with (zip_with Z.add) q00 q01) q10)
             q11 in
  fold_quadrants n cnt = Some c ∧ Np.has_shape n n c ∧ sum2 c = sum2 cnt.
Proof.
  intros Hn Hshape. destruct (has_shape_nat _ _ _ Hshape) as [Hlen Hrect].
  intros q00 q01 q10 q11 c. unfold fold_quadrants.
  fold q00 q01 q10 q11.
  assert (∀ a b c d, (a = 0 ∧ b = n ∨ a = n ∧ b = 2 * n)%Z →
            (c = 0 ∧ d = n ∨ c = n ∧ d = 2 * n)%Z →
            length (Np.get2 (Np.rng a b) (Np.rng c d) cnt) = Z.to_nat n
            ∧ Forall (λ row, length row = Z.to_nat n)
                (Np.get2 (Np.rng a b) (Np.rng c d) cnt)) as Hq.
  { intros a b c' d Hab Hcd.
    destruct (get2_shape a b c' d cnt _ _ Hlen Hrect) as [H1 H2]; try lia.
    replace (Z.to_nat n) with (Z.to_nat (b - a)) at 1 by lia.
    replace (Z.to_nat n) with (Z.to_nat (d - c')) by lia. done. }
  destruct (Hq 0 n 0 n)%Z as [L00 R00]; [lia..|].
  destruct (Hq 0 n n (2 * n))%Z as [L01 R01]; [lia..|].
  destruct (Hq n (2 * n) 0 n)%Z as [L10 R10]; [lia..|].
  destruct (Hq n (2 * n) n (2 * n))%Z as [L11 R11]; [lia..|].
  fold q00 in L00, R00. fold q01 in L01, R01. fold q10 in L10, R10.
  fold q11 in L11, R11.
  rewrite (zip2_fit _ _ _ (Z.to_nat n)) by (done || lia). simpl.
  destruct (zip_with2_shape Z.add q00 q01 (Z.to_nat n)) as [La Ra];
    [lia|done|done|].
  rewrite (zip2_fit _ _ _ (Z.to_nat n)) by (done || lia). simpl.
  destruct (zip_with2_shape Z.add (zip_with (zip_with Z.add) q00 q01) q10
              (Z.to_nat n)) as [Lb Rb]; [lia|done|done|].
  rewrite (zip2_fit _ _ _ (Z.to_nat n)) by (done || lia).
  destruct (zip_with2_shape Z.add
              (zip_with (zip_with Z.add) (zip_with (zip_with Z.add) q00 q01) q10)
              q11 (Z.to_nat n)) as [Lc Rc]; [lia|done|done|].
  split; [done|]. split.
  - split; [unfold c; lia|]. eapply Forall_impl; [exact Rc|]. simpl. intros; lia.
  - unfold c. rewrite !(sum2_zip_add _ _ (Z.to_nat n)) by (done || lia).
    unfold q00, q01, q10, q11.
    pose proof (sum2_halves_cols (Np.rng 0 n) n cnt Hn).
    pose proof (sum2_halves_cols (Np.rng n (2 * n)) n cnt Hn).
    pose proof (sum2_halves_rows (Np.rng 0 (2 * n)) n cnt Hn).
    rewrite (get2_whole cnt (2 * n) (2 * n)) in * by done. lia.
Qed.

Lemma zip_add_lower (k : Z) (a b : matrix Z) :
  Forall (Forall (λ v, k ≤ v)%Z) a → Forall (Forall (λ v, 0 ≤ v)%Z) b →
  Forall (Forall (λ v, k ≤ v)%Z) (zip_with (zip_with Z.add) a b).
Proof.
  intros Ha Hb. apply Forall_lookup. intros i row. rewrite lookup_zip_with.
  destruct (a !! i) as [ra|] eqn:Hra; simpl; [|done].
  destruct (b !! i) as [rb|] eqn:Hrb; simpl; [|done].
  intros [= <-]. apply Forall_lookup. intros j v. rewrite lookup_zip_with.
  destruct (ra !! j) as [va|] eqn:Hva; simpl; [|done].
  destruct (rb !! j) as [vb|] eqn:Hvb; simpl; [|done].
  intros [= <-].
  pose proof (Forall_lookup_1 _ _ _ _ (Forall_lookup_1 _ _ _ _ Ha Hra) Hva).
  pose proof (Forall_lookup_1 _ _ _ _ (Forall_lookup_1 _ _ _ _ Hb Hrb) Hvb).
  simpl in *. lia.
Qed.

Lemma Forall_get2 {A : Type} (P : A → Prop) rr rc (m : matrix A) :
  Forall (Forall P) m → Forall (Forall P) (Np.get2 rr rc m).
Proof.
  intros Hm. unfold Np.get2. apply Forall_fmap, Forall_get1.
  eapply Forall_impl; [exact Hm|]. intros row Hrow. simpl. by apply Forall_get1.
Qed.

(** ** The energy map *)

Lemma map2_succ_entry rr rc (m : matrix Z) (i j : nat) (row' : list Z) (v' : Z) :
  Np.map2 Z.succ rr rc m !! i = Some row' → row' !! j = Some v' →
  ∃ row v, m !! i = Some row ∧ row !! j = Some v ∧ (v ≤ v' ≤ v + 1)%Z
    ∧ (Np.lo (length m) rr ≤ i < Np.hi (length m) rr →
       Np.lo (length row) rc ≤ j < Np.hi (length row) rc → v' = (v + 1)%Z).
Proof.
  unfold Np.map2. rewrite lookup_map1. intros Hrow' Hv'.
  destruct (m !! i) as [row|] eqn:Hrow; [|by case_decide].
  exists row.
  case_decide as Hi; simpl in Hrow'; injection Hrow' as <-.
  - rewrite lookup_map1 in Hv'.
    destruct (row !! j) as [v|] eqn:Hv; [|by case_decide].
    exists v. case_decide as Hj; simpl in Hv'; injection Hv' as <-.
    + repeat split; try done; lia.
    + repeat split; try done; lia.
  - exists v'. repeat split; try done; lia.
Qed.

Section counts_facts.
Context (cfg : config) (xs ys : list Z) (tf : nat).
Hypothesis HL : (0 ≤ L cfg ≤ N cfg)%Z.
Hypothesis Hwin : ∀ i, i < tf →
  ∃ x y, xs !! i = Some x ∧ ys !! i = Some y
         ∧ (0 ≤ x < N cfg)%Z ∧ (0 ≤ y < N cfg)%Z.

Lemma count_loop_spec (cnt0 : matrix Z) :
  Np.has_shape (2 * N cfg) (2 * N cfg) cnt0 →
  Forall (Forall (λ v, 0 ≤ v)%Z) cnt0 →
  ∃ cnt, foldlM (count_window cfg xs ys) cnt0 (seq 0 tf) = Some cnt
    ∧ Np.has_shape (2 * N cfg) (2 * N cfg) cnt
    ∧ sum2 cnt = (sum2 cnt0 + Z.of_nat tf * (L cfg * L cfg))%Z
    ∧ ∀ i j row v, cnt !! i = Some row → row !! j = Some v →
        (0 ≤ v)%Z ∧ ∀ w, w < tf → covers cfg xs ys w i j → (1 ≤ v)%Z.
Proof.
  intros Hshape Hpos.
  apply (foldlM_range (count_window cfg xs ys)
    (λ k cnt, Np.has_shape (2 * N cfg) (2 * N cfg) cnt
      ∧ sum2 cnt = (sum2 cnt0 + Z.of_nat k * (L cfg * L cfg))%Z
      ∧ ∀ i j row v, cnt !! i = Some row → row !! j = Some v →
          (0 ≤ v)%Z ∧ ∀ w, w < k → covers cfg xs ys w i j → (1 ≤ v)%Z)).
  - split; [done|]. split; [lia|]. intros i j row v Hrow Hv. split; [|lia].
    eapply (Forall_lookup_1 _ _ _ _ (Forall_lookup_1 _ _ _ _ Hpos Hrow) Hv).
  - intros k cnt Hk (Hsh & Hsum & Hent).
    destruct (Hwin k Hk) as (x & y & Hx & Hy & Hxb & Hyb).
    unfold count_window. rewrite Hx, Hy. simpl.
    eexists; split; [done|].
    destruct (has_shape_nat _ _ _ Hsh) as [Hlen Hrect].
    destruct (map2_shape Z.succ (Np.rng x (x + L cfg)) (Np.rng y (y + L cfg))
                cnt _ Hrect) as [Hlen' Hrect'].
    split; [|split].
    + split; [lia|]. eapply Forall_impl; [exact Hrect'|]. simpl. intros; lia.
    + rewrite (sum2_map2_succ _ _ _ _ Hrect), !width_rng by lia. lia.
    + intros i j row' v' Hrow' Hv'.
      destruct (map2_succ_entry _ _ _ _ _ _ _ Hrow' Hv')
        as (row & v & Hrow & Hv & Hvv & Hin).
      destruct (Hent i j row v Hrow Hv) as [Hv0 Hcov].
      split; [lia|]. intros w Hw Hc.
      destruct (decide (w = k)) as [->|Hne].
      * destruct Hc as (x' & y' & Hx' & Hy' & Hxi & Hyj); simpl in *.
        rewrite Hx in Hx'. rewrite Hy in Hy'.
        injection Hx' as <-. injection Hy' as <-.
        rewrite Hin; [lia| |].
        -- rewrite lo_rng, hi_rng by lia. lia.
        -- rewrite (Forall_lookup_1 _ _ _ _ Hrect Hrow).
           rewrite lo_rng, hi_rng by lia. lia.
      * specialize (Hcov w ltac:(lia) Hc). lia.
Qed.
End counts_facts.

Lemma zeros_spec {A : Type} (zero : A) (r c : Z) :
  (0 ≤ r)%Z → (0 ≤ c)%Z →
  zeros zero r c = Some (Np.full r c zero)
  ∧ Np.has_shape r c (Np.full r c zero)
  ∧ Forall (Forall (λ v, v = zero)) (Np.full r c zero).
Proof.
  intros Hr Hc. unfold zeros.
  destruct (Z.ltb_spec r 0), (Z.ltb_spec c 0); try lia. simpl.
  split; [done|]. unfold Np.full, Np.has_shape. split; [split|].
  - rewrite length_replicate. lia.
  - apply Forall_replicate. rewrite length_replicate. lia.
  - apply Forall_replicate, Forall_replicate. done.
Qed.

Lemma sum2_full_zero (r c : Z) : sum2 (Np.full r c 0%Z) = 0%Z.
Proof.
  unfold Np.full.
  assert (∀ k, sumZ (replicate k 0%Z) = 0%Z) as Hrow.
  { induction k as [|k IH]; [done|].
    change (0 + sumZ (replicate k 0) = 0)%Z. lia. }
  induction (Z.to_nat r) as [|k IH]; [done|].
  change (sumZ (replicate (Z.to_nat c) 0)
          + sum2 (replicate k (replicate (Z.to_nat c) 0)) = 0)%Z.
  rewrite Hrow, IH. done.
Qed.

(** The energy map of a configuration with a positive pitch and a window
    no larger than the array. *)
Lemma counts_spec (cfg : config) :
  (0 < pitch cfg)%Z → (0 ≤ L cfg ≤ N cfg)%Z →
  ∃ (tf : Z) (xs ys : list Z) (cnt c : matrix Z),
    total_frame cfg = Some tf ∧ xlocations cfg = Some xs
    ∧ ylocations cfg = Some ys ∧ counts_2N cfg = Some cnt
    ∧ counts cfg = Some c
    ∧ tf = ((N cfg / pitch cfg) ^ 2)%Z
    ∧ Np.has_shape (2 * N cfg) (2 * N cfg) cnt
    ∧ Np.has_shape (N cfg) (N cfg) c
    ∧ sum2 c = (tf * (L cfg * L cfg))%Z
    ∧ c = zip_with (zip_with Z.add)
            (zip_with (zip_with Z.add)
               (zip_with (zip_with Z.add)
                  (Np.get2 (Np.rng 0 (N cfg)) (Np.rng 0 (N cfg)) cnt)
                  (Np.get2 (Np.rng 0 (N cfg)) (Np.rng (N cfg) (2 * N cfg)) cnt))
               (Np.get2 (Np.rng (N cfg) (2 * N cfg)) (Np.rng 0 (N cfg)) cnt))
            (Np.get2 (Np.rng (N cfg) (2 * N cfg)) (Np.rng (N cfg) (2 * N cfg)) cnt)
    ∧ ∀ i j row v, cnt !! i = Some row → row !! j = Some v →
        (0 ≤ v)%Z
        ∧ ∀ w, w < Z.to_nat tf → covers cfg xs ys w i j → (1 ≤ v)%Z.
Proof.
  intros Hp HL.
  destruct (locations_inside cfg Hp ltac:(lia))
    as (tf & xs & ys & Htf & Hxs & Hys & Htf0 & Hwin).
  destruct (zeros_spec 0%Z (2 * N cfg) (2 * N cfg)) as (Hz & Hzs & Hz0);
    [lia..|].
  destruct (count_loop_spec cfg xs ys (Z.to_nat tf) HL Hwin
              (Np.full (2 * N cfg) (2 * N cfg) 0%Z) Hzs)
    as (cnt & Hloop & Hsh & Hsum & Hent).
  { eapply Forall_impl; [exact Hz0|]. intros row Hrow.
    eapply Forall_impl; [exact Hrow|]. simpl. intros; lia. }
  destruct (fold_quadrants_spec (N cfg) cnt ltac:(lia) Hsh)
    as (Hfold & Hcs & Hcsum).
  exists tf, xs, ys, cnt. eexists.
  assert (counts_2N cfg = Some cnt) as H2N.
  { unfold counts_2N. rewrite Htf, Hxs, Hys, Hz. simpl. exact Hloop. }
  split_and!; try done.
  - unfold counts. rewrite H2N. simpl. exact Hfold.
  - destruct (locations_spec cfg Hp ltac:(lia)) as (_ & _ & _ & _ & _ & Ht & _).
    congruence.
  - rewrite Hcsum, Hsum, sum2_full_zero. lia.
Qed.

(** With the pitch dividing the size and no larger than the window, every
    cell of the array lies under a frame. *)
Lemma every_cell_covered (cfg : config) (xs ys : list Z) (i j : nat) :
  (0 < pitch cfg)%Z → (pitch cfg | N cfg)%Z → (pitch cfg ≤ L cfg)%Z →
  xlocations cfg = Some xs → ylocations cfg = Some ys →
  (Z.of_nat i < N cfg)%Z → (Z.of_nat j < N cfg)%Z →
  ∃ w, w < Z.to_nat ((N cfg / pitch cfg) ^ 2) ∧ covers cfg xs ys w i j.
Proof.
  intros Hp Hdiv HpL Hxs Hys Hi Hj.
  destruct (locations_spec cfg Hp ltac:(lia))
    as (n & xs' & ys' & Hxs' & Hys' & _ & _ & Hn & _ & Hat).
  rewrite Hxs in Hxs'. rewrite Hys in Hys'.
  injection Hxs' as <-. injection Hys' as <-.
  specialize (Hn Hdiv).
  destruct Hdiv as [q Hq].
  assert (N cfg / pitch cfg = q)%Z as Hquot by (rewrite Hq; apply Z.div_mul; lia).
  set (p := Z.to_nat (pitch cfg)).
  assert (pitch cfg = Z.of_nat p) as Hpp by lia.
  assert (0 < p) by lia.
  assert (i < n * p) as Hi' by nia.
  assert (j < n * p) as Hj' by nia.
  assert (i / p < n) as Hin by (apply Nat.Div0.div_lt_upper_bound; lia).
  assert (j / p < n) as Hjn by (apply Nat.Div0.div_lt_upper_bound; lia).
  exists (j / p * n + i / p).
  assert (j / p * n + i / p < n * n) as Hw by nia.
  split; [nia|].
  destruct (Hat _ Hw) as [Hx Hy].
  replace ((j / p * n + i / p) mod n) with (i / p) in Hx.
  2:{ rewrite Nat.add_comm, Nat.Div0.mod_add. by rewrite Nat.mod_small. }
  replace ((j / p * n + i / p) / n) with (j / p) in Hy.
  2:{ rewrite Nat.div_add_l by lia. rewrite (Nat.div_small (i / p)) by done. lia. }
  exists (Z.of_nat (i / p) * pitch cfg)%Z, (Z.of_nat (j / p) * pitch cfg)%Z.
  pose proof (Nat.div_mod i p ltac:(lia)) as Hdi.
  pose proof (Nat.mod_upper_bound i p ltac:(lia)) as Hmi.
  pose proof (Nat.div_mod j p ltac:(lia)) as Hdj.
  pose proof (Nat.mod_upper_bound j p ltac:(lia)) as Hmj.
  split_and!; try done; nia.
Qed.

Lemma lookup_get2_origin {A : Type} (m : matrix A) (n : Z) (i j : nat)
    (row : list A) (v : A) :
  (0 ≤ n)%Z →
  Np.get2 (Np.rng 0 n) (Np.rng 0 n) m !! i = Some row → row !! j = Some v →
  (Z.of_nat i < n)%Z ∧ (Z.of_nat j < n)%Z
  ∧ ∃ row0, m !! i = Some row0 ∧ row0 !! j = Some v.
Proof.
  intros Hn. unfold Np.get2. rewrite list_lookup_fmap.
  rewrite !get1_rng' by lia. change (Z.to_nat 0) with 0.
  rewrite Nat.sub_0_r, drop_0, lookup_take.
  case_decide as Hi; [|done].
  destruct (m !! i) as [row0|] eqn:Hrow0; [|done]. simpl.
  intros [= <-]. rewrite get1_rng' by lia. change (Z.to_nat 0) with 0.
  rewrite Nat.sub_0_r, drop_0, lookup_take.
  case_decide as Hj; [|done]. intros Hv.
  split_and!; [lia|lia|]. by exists row0.
Qed.

(** ** Updates that fit *)

Section upd_fit.
Context {A : Type}.

Lemma length_upd1 (f : A → A → A) r (l src : list A) :
  length src = Np.width (length l) r → length (Np.upd1 f r l src) = length l.
Proof.
  intros Hsrc. unfold Np.upd1.
  rewrite !length_app, length_zip_with, length_take, length_drop, length_get1.
  pose proof (lo_le (length l) r). pose proof (hi_le (length l) r).
  unfold Np.width in *. lia.
Qed.
End upd_fit.

Lemma get2_shape_width {A : Type} rr rc (m : matrix A) (cols : nat) :
  Forall (λ row, length row = cols) m →
  length (Np.get2 rr rc m) = Np.width (length m) rr
  ∧ Forall (λ row, length row = Np.width cols rc) (Np.get2 rr rc m).
Proof.
  intros Hm. unfold Np.get2. split.
  - by rewrite length_fmap, length_get1.
  - apply Forall_fmap, Forall_get1. eapply Forall_impl; [exact Hm|].
    intros row <-. simpl. apply length_get1.
Qed.

(** An update with a block of the shape of the slice succeeds and keeps the
    shape of the array. *)
Lemma upd2_fit {A : Type} (f : A → A → A) rr rc (m src : matrix A) (cols : nat) :
  Forall (λ row, length row = cols) m →
  length src = Np.width (length m) rr →
  Forall (λ row, length row = Np.width cols rc) src →
  ∃ m', Np.upd2 f rr rc m src = Some m' ∧ length m' = length m
        ∧ Forall (λ row, length row = cols) m'.
Proof.
  intros Hm Hlen Hsrc. unfold Np.upd2.
  assert (Np.broadcast_to (Np.width (length m) rr)
            (Np.width (Np.ncols m) rc) src = Some src) as ->.
  { apply broadcast_to_fit; [done|].
    destruct m as [|row m].
    - destruct src; [constructor|].
      pose proof (hi_le 0 rr). unfold Np.width in Hlen. simpl in *. lia.
    - simpl. inversion Hm; subst. done. }
  simpl. eexists. split; [done|]. split.
  - rewrite !length_app, length_zip_with, length_take, length_drop, length_get1.
    pose proof (lo_le (length m) rr). pose proof (hi_le (length m) rr).
    unfold Np.width in *. lia.
  - apply Forall_app. split; [by apply Forall_take|].
    apply Forall_app. split; [|by apply Forall_drop].
    apply Forall_lookup. intros i row. rewrite lookup_zip_with.
    destruct (Np.get1 rr m !! i) as [r0|] eqn:Hr0; simpl; [|done].
    destruct (src !! i) as [s|] eqn:Hs; simpl; [|done].
    intros [= <-].
    assert (length r0 = cols) as Hr0c.
    { eapply (Forall_lookup_1 _ _ _ _ (Forall_get1 _ rr m Hm) Hr0). }
    rewrite length_upd1; [done|].
    rewrite Hr0c. eapply (Forall_lookup_1 _ _ _ _ Hsrc Hs).
Qed.

(** Widths of the slices that the solver stages use, along one axis: the
    slices of the array on the right, those of the block on the left. *)
Lemma wrap_widths (n l : nat) (x size len : Z) :
  size = Z.of_nat n → len = Z.of_nat l →
  (0 ≤ len ≤ size)%Z → (0 ≤ x < size)%Z →
  ((x ≤ size - len)%Z →
     Np.width l Np.all = Np.width n (Np.rng x (x + len)))
  ∧ ((size - len < x)%Z →
       Np.width l (Np.rng 0 (size - x)) = Np.width n (Np.rng x size)
       ∧ Np.width l (Np.from (size - x))
         = Np.width n (Np.rng 0 (len + x - size))
       ∧ Np.width l (Np.rng (size - x) size)
         = Np.width n (Np.rng 0 (len + x - size))).
Proof.
  intros -> -> Hlen Hx.
  unfold Np.width, Np.hi, Np.lo, Np.rng, Np.from, Np.all. simpl.
  split; [intros Hin|intros Hout; split_and!];
    rewrite ?py_bound_nonneg by lia; lia.
Qed.

Section wrap_facts.
Context (cfg : config).

(** One of the writes of a piece of the block: it succeeds and keeps the
    shape. *)
Lemma piece_fit {A : Type} (f : A → A → A) rr rc pr pc
    (m blk : matrix A) (n l : nat) :
  length m = n → Forall (λ row, length row = n) m →
  length blk = l → Forall (λ row, length row = l) blk →
  Np.width l pr = Np.width n rr → Np.width l pc = Np.width n rc →
  ∃ m', Np.upd2 f rr rc m (Np.get2 pr pc blk) = Some m' ∧ length m' = n
        ∧ Forall (λ row, length row = n) m'.
Proof.
  intros Hm Hmr Hb Hbr Hwr Hwc.
  destruct (get2_shape_width pr pc blk l Hbr) as [Hl Hr].
  destruct (upd2_fit f rr rc m (Np.get2 pr pc blk) n Hmr) as (m' & H1 & H2 & H3).
  - rewrite Hl, Hb, Hm. done.
  - rewrite <- Hwc. done.
  - exists m'. split_and!; [done|lia|done].
Qed.

(** The same for a piece whose entries are neutral: nothing changes. *)
Lemma piece_neutral {A : Type} (f : A → A → A) rr rc pr pc
    (m blk : matrix A) (n l : nat) :
  length m = n → Forall (λ row, length row = n) m →
  length blk = l → Forall (λ row, length row = l) blk →
  Forall (Forall (λ s, ∀ v, f v s = v)) blk →
  Np.width l pr = Np.width n rr → Np.width l pc = Np.width n rc →
  Np.upd2 f rr rc m (Np.get2 pr pc blk) = Some m.
Proof.
  intros Hm Hmr Hb Hbr Hneutral Hwr Hwc.
  destruct (get2_shape_width pr pc blk l Hbr) as [Hl Hr].
  apply upd2_neutral with n; try done.
  - rewrite Hl, Hb, Hm. done.
  - rewrite <- Hwc. done.
  - by apply Forall_get2.
Qed.
End wrap_facts.

Lemma has_shape_of_nat {A : Type} (r c : Z) (m : matrix A) :
  (0 ≤ r)%Z → (0 ≤ c)%Z →
  length m = Z.to_nat r → Forall (λ row, length row = Z.to_nat c) m →
  Np.has_shape r c m.
Proof.
  intros Hr Hc Hlen Hrect. split; [lia|].
  eapply Forall_impl; [exact Hrect|]. simpl. intros; lia.
Qed.

(** The widths of the case at hand, from [wrap_widths] for both axes. *)
Ltac case_widths :=
  repeat match goal with
         | Hw : (?a ≤ ?b)%Z → _, H : (?a ≤ ?b)%Z |- _ => specialize (Hw H)
         | Hw : (?a < ?b)%Z → _, H : (?a < ?b)%Z |- _ => specialize (Hw H)
         end;
  destruct_and?.

Ltac fit_step n l :=
  match goal with
  | |- context [Np.upd2 ?f ?rr ?rc ?m (Np.get2 ?pr ?pc ?blk)] =>
      let m' := fresh "e" in
      let Hl := fresh "Hlen" in
      let Hr := fresh "Hrect" in
      destruct (piece_fit f rr rc pr pc m blk n l) as (m' & -> & Hl & Hr);
      [assumption..|];
      cbn [mbind option_bind]
  end.

Ltac neutral_step n l :=
  match goal with
  | |- context [Np.upd2 ?f ?rr ?rc ?m (Np.get2 ?pr ?pc ?blk)] =>
      rewrite (piece_neutral f rr rc pr pc m blk n l);
      [ | assumption..];
      cbn [mbind option_bind]
  end.

Section wrap_updates.
Context (cfg : config).

(** A block of the size of the window can always be written back. *)
Lemma write_back_fit {A : Type} (est inverse : matrix A) (x y : Z) :
  Np.has_shape (N cfg) (N cfg) est → Np.has_shape (L cfg) (L cfg) inverse →
  (0 ≤ L cfg ≤ N cfg)%Z → (0 ≤ x < N cfg)%Z → (0 ≤ y < N cfg)%Z →
  ∃ e, write_back cfg est x y inverse = Some e
       ∧ Np.has_shape (N cfg) (N cfg) e.
Proof.
  intros He Hi HL Hx Hy.
  destruct (has_shape_nat _ _ _ He) as [Hlen Hrect].
  destruct (has_shape_nat _ _ _ Hi) as [Hlen' Hrect'].
  set (n := Z.to_nat (N cfg)) in *. set (l := Z.to_nat (L cfg)) in *.
  assert (N cfg = Z.of_nat n) as HN by lia.
  assert (L cfg = Z.of_nat l) as HLl by lia.
  destruct (wrap_widths n l x (N cfg) (L cfg) HN HLl HL Hx) as [Hxi Hxo].
  destruct (wrap_widths n l y (N cfg) (L cfg) HN HLl HL Hy) as [Hyi Hyo].
  unfold write_back, crosses, Np.assign2.
  destruct (Z.gtb_spec x (N cfg - L cfg)), (Z.gtb_spec y (N cfg - L cfg));
    cbn [negb andb]; case_widths;
    [ | | | rewrite <- (get2_all inverse)]; repeat fit_step n l;
    (eexists; split; [done|]; apply has_shape_of_nat; [lia|lia|done|done]).
Qed.

(** A gradient block of the size of the window can always be added. *)
Lemma scatter_add_fit (gradient_sum g : matrix C) (x y : Z) :
  Np.has_shape (N cfg) (N cfg) gradient_sum →
  Np.has_shape (L cfg) (L cfg) g →
  (0 ≤ L cfg ≤ N cfg)%Z → (0 ≤ x < N cfg)%Z → (0 ≤ y < N cfg)%Z →
  ∃ s, scatter_add cfg gradient_sum x y g = Some s
       ∧ Np.has_shape (N cfg) (N cfg) s.
Proof.
  intros He Hi HL Hx Hy.
  destruct (has_shape_nat _ _ _ He) as [Hlen Hrect].
  destruct (has_shape_nat _ _ _ Hi) as [Hlen' Hrect'].
  set (n := Z.to_nat (N cfg)) in *. set (l := Z.to_nat (L cfg)) in *.
  assert (N cfg = Z.of_nat n) as HN by lia.
  assert (L cfg = Z.of_nat l) as HLl by lia.
  destruct (wrap_widths n l x (N cfg) (L cfg) HN HLl HL Hx) as [Hxi Hxo].
  destruct (wrap_widths n l y (N cfg) (L cfg) HN HLl HL Hy) as [Hyi Hyo].
  unfold scatter_add, crosses, iadd2.
  destruct (Z.gtb_spec x (N cfg - L cfg)), (Z.gtb_spec y (N cfg - L cfg));
    cbn [negb andb]; case_widths;
    [ | | | rewrite <- (get2_all g)]; repeat fit_step n l;
    (eexists; split; [done|]; apply has_shape_of_nat; [lia|lia|done|done]).
Qed.

(** A block of zeros adds nothing. *)
Lemma scatter_add_zero (gradient_sum g : matrix C) (x y : Z) :
  Np.has_shape (N cfg) (N cfg) gradient_sum →
  Np.has_shape (L cfg) (L cfg) g →
  Forall (Forall (λ z, z = C0)) g →
  (0 ≤ L cfg ≤ N cfg)%Z → (0 ≤ x < N cfg)%Z → (0 ≤ y < N cfg)%Z →
  scatter_add cfg gradient_sum x y g = Some gradient_sum.
Proof.
  intros He Hi Hzero HL Hx Hy.
  destruct (has_shape_nat _ _ _ He) as [Hlen Hrect].
  destruct (has_shape_nat _ _ _ Hi) as [Hlen' Hrect'].
  set (n := Z.to_nat (N cfg)) in *. set (l := Z.to_nat (L cfg)) in *.
  assert (N cfg = Z.of_nat n) as HN by lia.
  assert (L cfg = Z.of_nat l) as HLl by lia.
  assert (Forall (Forall (λ s, ∀ v, Cadd v s = v)) g) as Hneutral.
  { eapply Forall_impl; [exact Hzero|]. intros row Hrow.
    eapply Forall_impl; [exact Hrow|]. intros z -> [a b].
    unfold Cadd, C0. simpl. f_equal; lra. }
  destruct (wrap_widths n l x (N cfg) (L cfg) HN HLl HL Hx) as [Hxi Hxo].
  destruct (wrap_widths n l y (N cfg) (L cfg) HN HLl HL Hy) as [Hyi Hyo].
  unfold scatter_add, crosses, iadd2.
  destruct (Z.gtb_spec x (N cfg - L cfg)), (Z.gtb_spec y (N cfg - L cfg));
    cbn [negb andb]; case_widths;
    [ | | | rewrite <- (get2_all g)]; repeat neutral_step n l; done.
Qed.
End wrap_updates.

(** ** Shapes along the forward model *)

Lemma shaped_has_shape {A : Type} (r c : Z) (m : matrix A) :
  (0 ≤ r)%Z → (0 ≤ c)%Z →
  Np.shaped (Z.to_nat r) (Z.to_nat c) m ↔ Np.has_shape r c m.
Proof.
  intros Hr Hc. split.
  - intros [H1 H2]. by apply has_shape_of_nat.
  - intros H. by apply has_shape_nat.
Qed.

Lemma ncols_shaped {A : Type} (r c : nat) (m : matrix A) :
  0 < r → Np.shaped r c m → Np.ncols m = c.
Proof.
  intros Hr [Hlen Hrect]. destruct m as [|row m]; simpl in *; [lia|].
  by inversion Hrect.
Qed.

Lemma mmap_shaped {A B : Type} (f : A → B) (r c : nat) (m : matrix A) :
  Np.shaped r c m → Np.shaped r c (mmap f m).
Proof.
  intros [Hlen Hrect]. unfold mmap. split; [by rewrite length_fmap|].
  apply Forall_fmap. eapply Forall_impl; [exact Hrect|].
  intros row Hrow. simpl. by rewrite length_fmap.
Qed.

Lemma roll_left_length {A : Type} (k : nat) (l : list A) :
  length (roll_left k l) = length l.
Proof.
  unfold roll_left. rewrite length_app, length_drop, length_take. lia.
Qed.

Lemma roll_left_Forall {A : Type} (P : A → Prop) (k : nat) (l : list A) :
  Forall P l → Forall P (roll_left k l).
Proof.
  intros H. unfold roll_left. apply Forall_app.
  split; [by apply Forall_drop | by apply Forall_take].
Qed.

Lemma ifftshift_shaped (r c : nat) (m : matrix C) :
  Np.shaped r c m → Np.shaped r c (ifftshift m).
Proof.
  intros [Hlen Hrect]. unfold ifftshift, ifftshift1. split.
  - by rewrite roll_left_length, length_fmap.
  - apply roll_left_Forall, Forall_fmap. eapply Forall_impl; [exact Hrect|].
    intros row Hrow. simpl. by rewrite roll_left_length.
Qed.

Lemma fftshift_shaped (r c : nat) (m : matrix C) :
  Np.shaped r c m → Np.shaped r c (fftshift m).
Proof.
  intros [Hlen Hrect]. unfold fftshift, fftshift1. split.
  - by rewrite roll_left_length, length_fmap.
  - apply roll_left_Forall, Forall_fmap. eapply Forall_impl; [exact Hrect|].
    intros row Hrow. simpl. by rewrite roll_left_length.
Qed.

Lemma dft2_shaped (sgn : R) (r c : nat) (m : matrix C) :
  0 < r → Np.shaped r c m → Np.shaped r c (dft2 sgn m).
Proof.
  intros Hr Hm. unfold dft2. rewrite (ncols_shaped r c m Hr Hm).
  destruct Hm as [Hlen Hrect]. split.
  - by rewrite length_fmap, length_seq.
  - apply Forall_fmap, Forall_forall. intros k _. simpl.
    by rewrite length_fmap, length_seq.
Qed.

Lemma is_empty2_shaped {A : Type} (r c : nat) (m : matrix A) :
  0 < r → 0 < c → Np.shaped r c m → is_empty2 m = false.
Proof.
  intros Hr Hc Hm. unfold is_empty2. rewrite (ncols_shaped r c m Hr Hm).
  destruct Hm as [-> _].
  destruct (Nat.eqb_spec r 0), (Nat.eqb_spec c 0); simpl; lia || done.
Qed.

Lemma fft2_shaped (r c : nat) (m : matrix C) :
  0 < r → 0 < c → Np.shaped r c m →
  ∃ f, fft2 m = Some f ∧ Np.shaped r c f.
Proof.
  intros Hr Hc Hm. unfold fft2. rewrite (is_empty2_shaped r c) by done.
  eexists. split; [done|]. by apply dft2_shaped.
Qed.

Lemma ifft2_shaped (r c : nat) (m : matrix C) :
  0 < r → 0 < c → Np.shaped r c m →
  ∃ f, ifft2 m = Some f ∧ Np.shaped r c f.
Proof.
  intros Hr Hc Hm. unfold ifft2. rewrite (is_empty2_shaped r c) by done.
  eexists. split; [done|]. by apply mmap_shaped, dft2_shaped.
Qed.

Lemma zip2_shaped {A B D : Type} (f : A → B → D) (r c : nat)
    (a : matrix A) (b : matrix B) :
  Np.shaped r c a → Np.shaped r c b →
  Np.zip2 f a b = Some (zip_with (zip_with f) a b)
  ∧ Np.shaped r c (zip_with (zip_with f) a b).
Proof.
  intros [La Ra] [Lb Rb]. split.
  - apply zip2_fit with c; [lia|done|done].
  - destruct (zip_with2_shape f a b c) as [H1 H2]; [lia|done|done|].
    split; [lia|done].
Qed.

Lemma pad_rows_cols_shaped (p : Z) (r c : nat) (m : matrix C) :
  (0 ≤ p)%Z → 0 < r → Np.shaped r c m →
  Np.shaped (r + 2 * Z.to_nat p) (c + 2 * Z.to_nat p) (pad_rows_cols p p p p m).
Proof.
  intros Hp Hr Hm. unfold pad_rows_cols, pad_axis.
  rewrite (ncols_shaped r c m Hr Hm). destruct Hm as [Hlen Hrect]. split.
  - rewrite !length_app, !length_replicate, length_fmap. lia.
  - assert (Forall (λ row : list C, length row = c + 2 * Z.to_nat p)
              (replicate (Z.to_nat p)
                 (replicate (Z.to_nat (p + Z.of_nat c + p)) C0))) as Hz.
    { apply Forall_replicate. rewrite length_replicate. lia. }
    apply Forall_app. split; [done|]. apply Forall_app. split; [|done].
    apply Forall_fmap. eapply Forall_impl; [exact Hrect|].
    intros row Hrow. simpl in *. rewrite !length_app, !length_replicate. lia.
Qed.

Section forward_facts.
Context (cfg : config).
Hypothesis Hpad : (0 ≤ pad_size cfg)%Z.
Hypothesis HL : (0 < L cfg)%Z.
Hypothesis Hmask :
  is_mask cfg = true → Np.has_shape (L cfg) (L cfg) (mask cfg).

Lemma M_nat :
  Z.to_nat (M cfg) = Z.to_nat (L cfg) + 2 * Z.to_nat (pad_size cfg).
Proof. unfold M. lia. Qed.

Lemma masked_pad_shaped (W : matrix C) :
  Np.has_shape (L cfg) (L cfg) W →
  ∃ P, masked_pad cfg W = Some P
       ∧ Np.shaped (Z.to_nat (M cfg)) (Z.to_nat (M cfg)) P.
Proof.
  intros HW. apply shaped_has_shape in HW; [|lia..].
  unfold masked_pad, np_pad. destruct (Z.ltb_spec (pad_size cfg) 0); [lia|].
  rewrite M_nat.
  destruct (is_mask cfg) eqn:Hm.
  - specialize (Hmask eq_refl). apply shaped_has_shape in Hmask; [|lia..].
    destruct (zip2_shaped Cmul _ _ W (mask cfg) HW Hmask) as [-> Hs]. simpl.
    eexists. split; [done|]. apply pad_rows_cols_shaped; [done|lia|done].
  - eexists. split; [done|]. apply pad_rows_cols_shaped; [done|lia|done].
Qed.

Lemma forward_np_shaped (W : matrix C) :
  Np.has_shape (L cfg) (L cfg) W →
  ∃ F, forward_np cfg W = Some F
       ∧ Np.shaped (Z.to_nat (M cfg)) (Z.to_nat (M cfg)) F.
Proof.
  intros HW. unfold forward_np.
  destruct (masked_pad_shaped W HW) as (P & -> & HP). simpl.
  pose proof M_nat as HM.
  destruct (ifft2_shaped (Z.to_nat (M cfg)) (Z.to_nat (M cfg)) (ifftshift P))
    as (f & -> & Hf); [lia|lia|by apply ifftshift_shaped|]. simpl.
  eexists. split; [done|]. by apply mmap_shaped.
Qed.

Lemma gs_correct_shaped (frame : matrix R) (blk : matrix C) :
  Np.shaped (Z.to_nat (M cfg)) (Z.to_nat (M cfg)) frame →
  Np.has_shape (L cfg) (L cfg) blk →
  ∃ inverse, gs_correct cfg frame blk = Some inverse
             ∧ Np.has_shape (L cfg) (L cfg) inverse.
Proof.
  intros Hframe Hblk. unfold gs_correct.
  destruct (masked_pad_shaped blk Hblk) as (P & -> & HP). simpl.
  pose proof M_nat as HM.
  destruct (ifft2_shaped (Z.to_nat (M cfg)) (Z.to_nat (M cfg)) (ifftshift P))
    as (f & -> & Hf); [lia|lia|by apply ifftshift_shaped|]. simpl.
  destruct (zip2_shaped (λ a z, Cmul (RtoC a) (cis (angle z))) _ _ frame f
              Hframe Hf) as [-> Hz]. simpl.
  destruct (fft2_shaped (Z.to_nat (M cfg)) (Z.to_nat (M cfg))
              (zip_with (zip_with (λ a z, Cmul (RtoC a) (cis (angle z))))
                 frame f)) as (g & -> & Hg); [lia|lia|done|].
  simpl.
  set (inv := mmap (λ z, Cdivr z (IZR (M cfg))) (fftshift g)).
  assert (Np.shaped (Z.to_nat (M cfg)) (Z.to_nat (M cfg)) inv) as Hinv
    by by apply mmap_shaped, fftshift_shaped.
  destruct Hinv as [Li Ri].
  destruct (get2_shape (pad_size cfg) (pad_size cfg + L cfg)
              (pad_size cfg) (pad_size cfg + L cfg) inv _ _ Li Ri)
    as [Lc Rc]; [lia..|].
  replace (pad_size cfg + L cfg - pad_size cfg)%Z with (L cfg) in * by lia.
  assert (Np.shaped (Z.to_nat (L cfg)) (Z.to_nat (L cfg))
            (Np.get2 (Np.rng (pad_size cfg) (pad_size cfg + L cfg))
               (Np.rng (pad_size cfg) (pad_size cfg + L cfg)) inv)) as Hcrop
    by done.
  destruct (is_mask cfg) eqn:Hm.
  - specialize (Hmask eq_refl). apply shaped_has_shape in Hmask; [|lia..].
    destruct (zip2_shaped Cdiv _ _ _ (mask cfg) Hcrop Hmask) as [-> Hs].
    eexists. split; [done|]. apply shaped_has_shape; [lia|lia|done].
  - eexists. split; [done|]. apply shaped_has_shape; [lia|lia|done].
Qed.
End forward_facts.

(** ** Batches of frames *)

Lemma repmat22_shaped {A : Type} (r c : nat) (m : matrix A) :
  Np.shaped r c m → Np.shaped (2 * r) (2 * c) (Np.repmat22 m).
Proof.
  intros [Hlen Hrect]. unfold Np.repmat22. split.
  - rewrite length_app, !length_fmap. lia.
  - assert (Forall (λ row : list A, length row = 2 * c)
              ((λ row, row ++ row) <$> m)) as Hhalf.
    { apply Forall_fmap. eapply Forall_impl; [exact Hrect|].
      intros row Hrow. simpl in *. rewrite length_app. lia. }
    by apply Forall_app.
Qed.

Lemma zeros3_spec {A : Type} (zero : A) (n r c : Z) :
  (0 ≤ n)%Z → (0 ≤ r)%Z → (0 ≤ c)%Z →
  ∃ t, zeros3 zero n r c = Some t ∧ length t = Z.to_nat n
       ∧ Forall (Np.shaped (Z.to_nat r) (Z.to_nat c)) t.
Proof.
  intros Hn Hr Hc. unfold zeros3.
  destruct (Z.ltb_spec n 0), (Z.ltb_spec r 0), (Z.ltb_spec c 0); try lia.
  simpl. eexists. split; [done|]. split; [apply length_replicate|].
  apply Forall_replicate. apply shaped_has_shape; [done..|].
  by apply zeros_spec.
Qed.

Lemma set_frame_spec {A : Type} (r c : Z) (t : list (matrix A)) (i : nat)
    (src : matrix A) :
  Np.shaped (Z.to_nat r) (Z.to_nat c) src →
  Forall (Np.shaped (Z.to_nat r) (Z.to_nat c)) t →
  ∃ t', set_frame r c t i src = Some t' ∧ length t' = length t
        ∧ Forall (Np.shaped (Z.to_nat r) (Z.to_nat c)) t'.
Proof.
  intros Hsrc Ht. unfold set_frame.
  destruct Hsrc as [Hl Hr]. rewrite broadcast_to_fit by done. simpl.
  eexists. split; [done|]. split; [apply length_insert|].
  by apply Forall_insert.
Qed.

(** The block of a frame that fits the replicated array. *)
Lemma window_shaped {A : Type} (cfg : config) (m : matrix A) (x y : Z) :
  Np.has_shape (N cfg) (N cfg) m → (0 ≤ L cfg)%Z →
  (0 ≤ x)%Z → (x + L cfg ≤ 2 * N cfg)%Z →
  (0 ≤ y)%Z → (y + L cfg ≤ 2 * N cfg)%Z →
  Np.has_shape (L cfg) (L cfg) (window cfg m x y).
Proof.
  intros Hm HL Hx Hx' Hy Hy'.
  apply shaped_has_shape in Hm; [|lia..].
  destruct (repmat22_shaped _ _ m Hm) as [Lr Rr].
  unfold window, footprint. simpl.
  destruct (get2_shape x (x + L cfg) y (y + L cfg) (Np.repmat22 m) _ _ Lr Rr)
    as [H1 H2]; [lia..|].
  replace (x + L cfg - x)%Z with (L cfg) in * by lia.
  replace (y + L cfg - y)%Z with (L cfg) in * by lia.
  apply shaped_has_shape; [lia|lia|done].
Qed.

Lemma read_window_shaped {A : Type} (cfg : config) (m : matrix A) (x y : Z) :
  Np.has_shape (N cfg) (N cfg) m → (0 ≤ L cfg ≤ N cfg)%Z →
  (0 ≤ x < N cfg)%Z → (0 ≤ y < N cfg)%Z →
  Np.has_shape (L cfg) (L cfg) (read_window cfg m x y).
Proof.
  intros Hm HL Hx Hy. unfold read_window, crosses.
  destruct (Z.gtb_spec x (N cfg - L cfg)), (Z.gtb_spec y (N cfg - L cfg));
    simpl; try (apply window_shaped; lia || done).
  apply shaped_has_shape in Hm; [|lia..]. destruct Hm as [Lm Rm].
  unfold footprint. simpl.
  destruct (get2_shape x (x + L cfg) y (y + L cfg) m _ _ Lm Rm)
    as [H1 H2]; [lia..|].
  replace (x + L cfg - x)%Z with (L cfg) in * by lia.
  replace (y + L cfg - y)%Z with (L cfg) in * by lia.
  apply shaped_has_shape; [lia|lia|done].
Qed.

Lemma imap_shaped {A B : Type} (f : nat → nat → A → B) (r c : nat)
    (m : matrix A) :
  Np.shaped r c m → Np.shaped r c (imap (λ i row, imap (f i) row) m).
Proof.
  intros [Hlen Hrect]. split; [by rewrite length_imap|].
  apply Forall_lookup. intros i row. rewrite list_lookup_imap.
  destruct (m !! i) as [row0|] eqn:Hrow0; simpl; [|done].
  intros [= <-]. rewrite length_imap.
  eapply (Forall_lookup_1 _ _ _ _ Hrect Hrow0).
Qed.

Lemma imap3_shaped {A B : Type} (f : nat → nat → nat → A → B) (r c : nat)
    (t : list (matrix A)) :
  Forall (Np.shaped r c) t →
  length (imap (λ i W, imap (λ k row, imap (f i k) row) W) t) = length t
  ∧ Forall (Np.shaped r c)
      (imap (λ i W, imap (λ k row, imap (f i k) row) W) t).
Proof.
  intros Ht. split; [by rewrite length_imap|].
  apply Forall_lookup. intros i W. rewrite list_lookup_imap.
  destruct (t !! i) as [W0|] eqn:HW0; simpl; [|done].
  intros [= <-]. apply (imap_shaped (f i)).
  eapply (Forall_lookup_1 _ _ _ _ Ht HW0).
Qed.

Section measurement_facts.
Context (cfg : config).
Hypothesis Hpad : (0 ≤ pad_size cfg)%Z.
Hypothesis HL : (0 < L cfg ≤ N cfg)%Z.
Hypothesis Hmask :
  is_mask cfg = true → Np.has_shape (L cfg) (L cfg) (mask cfg).

Context (xs ys : list Z) (tf : Z).
Hypothesis Htf : (0 ≤ tf)%Z.
Hypothesis Hwin : ∀ i, i < Z.to_nat tf →
  ∃ x y, xs !! i = Some x ∧ ys !! i = Some y
         ∧ (0 ≤ x < N cfg)%Z ∧ (0 ≤ y < N cfg)%Z.

(** The measurement, before any noise: frame [i] is the forward model of
    the window [i] of the normalised spectrum; the noise, if there is
    any, is added to these frames. *)
Lemma measurement_fold (o : oracle) (xt : matrix C) (cnts : matrix Z) :
  Np.has_shape (N cfg) (N cfg) xt → Np.has_shape (N cfg) (N cfg) cnts →
  ∃ f objectFT t,
    fft2 xt = Some f
    ∧ Np.zip2 (λ z c, Cdivr z (sqrt (IZR c)))
        (mmap (λ z, Cdivr z (IZR (N cfg))) (fftshift f)) cnts
      = Some objectFT
    ∧ Np.has_shape (N cfg) (N cfg) objectFT
    ∧ measurement cfg o xt cnts xs ys tf
      = (if is_noisy cfg then add_noise o t else Some t)
    ∧ length t = Z.to_nat tf
    ∧ Forall (Np.shaped (Z.to_nat (M cfg)) (Z.to_nat (M cfg))) t
    ∧ (∀ i, i < Z.to_nat tf →
        ∃ x y frame,
          xs !! i = Some x ∧ ys !! i = Some y ∧ t !! i = Some frame
          ∧ forward_np cfg (window cfg objectFT x y) = Some frame)
    ∧ ∀ i frame, t !! i = Some frame →
        ∃ x y, (0 ≤ x < N cfg)%Z ∧ (0 ≤ y < N cfg)%Z
               ∧ forward_np cfg (window cfg objectFT x y) = Some frame.
Proof.
  intros Hxt Hcnts. unfold measurement.
  apply shaped_has_shape in Hxt; [|lia..].
  apply shaped_has_shape in Hcnts; [|lia..].
  destruct (fft2_shaped (Z.to_nat (N cfg)) (Z.to_nat (N cfg)) xt)
    as (f & -> & Hf); [lia|lia|done|].
  simpl. exists f.
  set (scaled := mmap (λ z, Cdivr z (IZR (N cfg))) (fftshift f)).
  assert (Np.shaped (Z.to_nat (N cfg)) (Z.to_nat (N cfg)) scaled) as Hsc
    by by apply mmap_shaped, fftshift_shaped.
  destruct (zip2_shaped (λ z c, Cdivr z (sqrt (IZR c))) _ _ scaled cnts
              Hsc Hcnts) as [-> Hobj]. simpl.
  set (objectFT := zip_with (zip_with (λ z c, Cdivr z (sqrt (IZR c))))
                     scaled cnts) in *.
  exists objectFT.
  assert (Np.has_shape (N cfg) (N cfg) objectFT) as Hobj'
    by (apply shaped_has_shape; [lia..|done]).
  assert (0 ≤ M cfg)%Z as HM by (unfold M; lia).
  destruct (zeros3_spec 0%R tf (M cfg) (M cfg)) as (t0 & -> & Lt0 & St0);
    [lia..|]. simpl.
  destruct (foldlM_range (measure_frame cfg (Np.repmat22 objectFT) xs ys)
              (λ k t, length t = Z.to_nat tf
                      ∧ Forall (Np.shaped (Z.to_nat (M cfg))
                                  (Z.to_nat (M cfg))) t
                      ∧ ∀ i, i < k →
                          ∃ x y frame,
                            xs !! i = Some x ∧ ys !! i = Some y
                            ∧ t !! i = Some frame
                            ∧ forward_np cfg (window cfg objectFT x y)
                              = Some frame)
              (Z.to_nat tf) t0) as (t & -> & Lt & St & Ht).
  - split; [done|]. split; [done|]. intros i Hi. lia.
  - intros k t Hk (Lt & St & Ht).
    destruct (Hwin k Hk) as (x & y & Hx & Hy & Hxb & Hyb).
    unfold measure_frame. rewrite Hx, Hy. simpl.
    assert (Np.has_shape (L cfg) (L cfg) (window cfg objectFT x y)) as Hw
      by (apply window_shaped; lia || done).
    destruct (forward_np_shaped cfg Hpad ltac:(lia) Hmask _ Hw)
      as (F & HF & HFs).
    pose proof HF as HF'.
    unfold window, footprint in HF'. simpl in HF'. unfold footprint. simpl.
    rewrite HF'. simpl.
    unfold set_frame. rewrite broadcast_to_fit by apply HFs. simpl.
    eexists. split; [done|]. split; [by rewrite length_insert|].
    split; [by apply Forall_insert|].
    intros i Hi. destruct (decide (i = k)) as [->|Hne].
    + exists x, y, F. split_and!; [done..| |done].
      apply list_lookup_insert_eq. lia.
    + destruct (Ht i ltac:(lia)) as (x' & y' & F' & ? & ? & ? & ?).
      exists x', y', F'. split_and!; [done..| |done].
      by rewrite list_lookup_insert_ne by done.
  - simpl. exists t. split_and!; try done.
    intros i frame Hi.
    destruct (Ht i) as (x & y & frame' & Hx & Hy & Hi' & Hfwd).
    { apply lookup_lt_Some in Hi. lia. }
    destruct (Hwin i) as (x' & y' & Hx' & Hy' & Hxb & Hyb).
    { apply lookup_lt_Some in Hi. lia. }
    simplify_eq. by exists x, y.
Qed.
End measurement_facts.

(** ** The solver stages *)

(** A loop over a list whose invariant speaks about the part visited. *)
Lemma foldlM_prefix {St B : Type} (f : St → B → option St) (P : B → Prop)
    (Inv : list B → St → Prop) (l : list B) (s0 : St) :
  Inv [] s0 → Forall P l →
  (∀ pre s b, Inv pre s → P b → ∃ s', f s b = Some s' ∧ Inv (pre ++ [b]) s') →
  ∃ s', foldlM f s0 l = Some s' ∧ Inv l s'.
Proof.
  intros H0 Hl Hstep.
  assert (∀ k pre s, Inv pre s → Forall P k →
            ∃ s', foldlM f s k = Some s' ∧ Inv (pre ++ k) s') as Hgen.
  { induction k as [|b k IH]; intros pre s Hs Hk.
    - exists s. by rewrite app_nil_r.
    - inversion Hk; subst. simpl.
      destruct (Hstep pre s b Hs) as (s1 & -> & Hs1); [done|]. simpl.
      destruct (IH (pre ++ [b]) s1 Hs1) as (s2 & Hs2 & Hinv); [done|].
      exists s2. split; [done|]. by rewrite <- app_assoc in Hinv. }
  by apply (Hgen l [] s0).
Qed.

Section stage_facts.
Context (cfg : config).
Context (gradient_entry :
           list (matrix C) → list (matrix R) → nat → nat → nat → C).
Hypothesis Hpad : (0 ≤ pad_size cfg)%Z.
Hypothesis HL : (0 < L cfg ≤ N cfg)%Z.
Hypothesis Hmask :
  is_mask cfg = true → Np.has_shape (L cfg) (L cfg) (mask cfg).

Context (xs ys : list Z) (tf : Z).
Hypothesis Htf : (0 ≤ tf)%Z.
Hypothesis Hwin : ∀ i, i < Z.to_nat tf →
  ∃ x y, xs !! i = Some x ∧ ys !! i = Some y
         ∧ (0 ≤ x < N cfg)%Z ∧ (0 ≤ y < N cfg)%Z.

Context (imSeqLowRes : list (matrix R)).
Hypothesis Hmeas_len : length imSeqLowRes = Z.to_nat tf.
Hypothesis Hmeas :
  Forall (Np.shaped (Z.to_nat (M cfg)) (Z.to_nat (M cfg))) imSeqLowRes.

Lemma projection_step_spec (loop i : nat) (est : matrix C) (tr : list event) :
  Np.has_shape (N cfg) (N cfg) est → i < Z.to_nat tf →
  ∃ e, projection_step cfg imSeqLowRes xs ys loop (est, tr) i
       = Some (e, tr ++ [Projected loop i])
       ∧ Np.has_shape (N cfg) (N cfg) e.
Proof.
  intros Hest Hi. unfold projection_step.
  destruct (Hwin i Hi) as (x & y & -> & -> & Hx & Hy). simpl.
  destruct (lookup_lt_is_Some_2 imSeqLowRes i ltac:(lia)) as [frame Hframe].
  rewrite Hframe. simpl.
  pose proof (Forall_lookup_1 _ _ _ _ Hmeas Hframe) as Hfs.
  destruct (gs_correct_shaped cfg Hpad ltac:(lia) Hmask frame
              (read_window cfg est x y) Hfs) as (inverse & -> & Hinv).
  { apply read_window_shaped; lia || done. }
  simpl.
  destruct (write_back_fit cfg est inverse x y Hest Hinv) as (e & -> & He);
    [lia..|].
  by exists e.
Qed.

Lemma projection_loop_spec (o : oracle) (loop : nat) (est : matrix C)
    (sq : list nat) (tr : list event) :
  (∀ k l, Permutation (shuffle o k l) l) →
  Np.has_shape (N cfg) (N cfg) est →
  Permutation sq (seq 0 (Z.to_nat tf)) →
  ∃ e, projection_loop cfg o imSeqLowRes xs ys (est, sq, tr) loop
       = Some (e, shuffle o loop sq,
               tr ++ (Projected loop <$> shuffle o loop sq))
       ∧ Np.has_shape (N cfg) (N cfg) e
       ∧ Permutation (shuffle o loop sq) (seq 0 (Z.to_nat tf)).
Proof.
  intros Hperm Hest Hsq. unfold projection_loop. simpl.
  assert (Permutation (shuffle o loop sq) (seq 0 (Z.to_nat tf))) as Hsq'
    by (etransitivity; [apply Hperm|done]).
  destruct (foldlM_prefix (projection_step cfg imSeqLowRes xs ys loop)
              (λ i, i < Z.to_nat tf)
              (λ pre st, Np.has_shape (N cfg) (N cfg) st.1
                         ∧ st.2 = tr ++ (Projected loop <$> pre))
              (shuffle o loop sq) (est, tr)) as ([e tr'] & -> & He & Htr).
  - split; [done|]. simpl. by rewrite app_nil_r.
  - apply Forall_forall. intros i Hi.
    rewrite Hsq' in Hi. apply elem_of_seq in Hi. lia.
  - intros pre [e tr'] i [He Htr] Hi. simpl in *. subst tr'.
    destruct (projection_step_spec loop i e
                (tr ++ (Projected loop <$> pre)) He Hi) as (e' & -> & He').
    eexists. split; [done|]. split; [done|]. simpl.
    by rewrite fmap_app, app_assoc.
  - simpl in *. subst tr'. by exists e.
Qed.

(** The steps recorded by [loops] outer loops that visit the frames in
    the given orders. *)
Lemma projection_stage_spec (o : oracle) (loops : nat) (est : matrix C) :
  (∀ k l, Permutation (shuffle o k l) l) →
  Np.has_shape (N cfg) (N cfg) est →
  ∃ e sq orders,
    foldlM (projection_loop cfg o imSeqLowRes xs ys)
      (est, seq 0 (Z.to_nat tf), []) (seq 0 loops)
    = Some (e, sq, concat (imap (λ loop σ, Projected loop <$> σ) orders))
    ∧ Np.has_shape (N cfg) (N cfg) e
    ∧ length orders = loops
    ∧ Forall (λ σ, Permutation σ (seq 0 (Z.to_nat tf))) orders.
Proof.
  intros Hperm Hest.
  destruct (foldlM_range (projection_loop cfg o imSeqLowRes xs ys)
              (λ k st, Np.has_shape (N cfg) (N cfg) st.1.1
                 ∧ Permutation st.1.2 (seq 0 (Z.to_nat tf))
                 ∧ ∃ orders, length orders = k
                     ∧ Forall (λ σ, Permutation σ (seq 0 (Z.to_nat tf))) orders
                     ∧ st.2 = concat (imap (λ loop σ, Projected loop <$> σ)
                                        orders))
              loops (est, seq 0 (Z.to_nat tf), []))
    as ([[e sq] tr] & Hrun & He & Hsq & orders & Hlen & Hord & Htr).
  - split; [done|]. split; [done|]. exists []. by split_and!.
  - intros k [[e sq] tr] Hk (He & Hsq & orders & Hlen & Hord & Htr).
    simpl in *. subst tr.
    destruct (projection_loop_spec o k e sq
                (concat (imap (λ loop σ, Projected loop <$> σ) orders))
                Hperm He Hsq) as (e' & -> & He' & Hsq').
    eexists. split; [done|]. simpl. split_and!; try done.
    exists (orders ++ [shuffle o k sq]). split_and!.
    + rewrite length_app. simpl. lia.
    + apply Forall_app. split; [done|]. by constructor.
    + rewrite imap_app, concat_app. simpl.
      rewrite app_nil_r, Nat.add_0_r, Hlen. done.
  - simpl in *. subst tr. by exists e, sq, orders.
Qed.
End stage_facts.

Lemma flatten_length {A : Type} (r c : nat) (m : matrix A) :
  Np.shaped r c m → length (Np.flatten m) = r * c.
Proof.
  intros [Hlen Hrect]. unfold Np.flatten. subst r.
  induction Hrect as [|row m Hrow _ IH]; [done|].
  simpl. rewrite length_app, IH, Hrow. done.
Qed.

Lemma minAngMSE_defined (xt xest : list C) :
  length xt = length xest → 0 < length xt → is_Some (minAngMSE xt xest).
Proof.
  intros Hlen Hpos. unfold minAngMSE, vdot.
  rewrite !decide_True by done. simpl.
  rewrite decide_False by lia. by eexists.
Qed.


Section descent_facts.
Context (cfg : config).
Context (gradient_entry :
           list (matrix C) → list (matrix R) → nat → nat → nat → C).
Hypothesis HL : (0 < L cfg ≤ N cfg)%Z.

Context (xs ys : list Z) (tf : Z).
Hypothesis Htf : (0 ≤ tf)%Z.
Hypothesis Hwin : ∀ i, i < Z.to_nat tf →
  ∃ x y, xs !! i = Some x ∧ ys !! i = Some y
         ∧ (0 ≤ x < N cfg)%Z ∧ (0 ≤ y < N cfg)%Z.

Lemma extract_batch_spec (est : matrix C) :
  Np.has_shape (N cfg) (N cfg) est →
  ∃ b, extract_batch cfg est xs ys tf = Some b
       ∧ length b = Z.to_nat tf
       ∧ Forall (Np.shaped (Z.to_nat (L cfg)) (Z.to_nat (L cfg))) b.
Proof.
  intros Hest. unfold extract_batch.
  destruct (zeros3_spec C0 tf (L cfg) (L cfg)) as (t0 & -> & Lt0 & St0);
    [lia..|]. simpl.
  apply (foldlM_range (extract_frame cfg (Np.repmat22 est) xs ys)
           (λ _ t, length t = Z.to_nat tf
                   ∧ Forall (Np.shaped (Z.to_nat (L cfg))
                               (Z.to_nat (L cfg))) t)); [done|].
  intros i t Hi [Lt St].
  destruct (Hwin i Hi) as (x & y & Hx & Hy & Hxb & Hyb).
  unfold extract_frame. rewrite Hx, Hy. simpl.
  assert (Np.has_shape (L cfg) (L cfg) (window cfg est x y)) as Hw
    by (apply window_shaped; lia || done).
  apply shaped_has_shape in Hw; [|lia..].
  destruct (set_frame_spec (L cfg) (L cfg) t i _ Hw St)
    as (t' & Ht' & Lt' & St').
  unfold window, footprint in Ht'. simpl in Ht'. unfold footprint. simpl.
  rewrite Ht'.
  eexists. split; [done|]. split; [lia|done].
Qed.

Lemma gradient_shaped (batch : list (matrix C)) (meas : list (matrix R))
    (r c : nat) :
  Forall (Np.shaped r c) batch →
  length (gradient gradient_entry batch meas) = length batch
  ∧ Forall (Np.shaped r c) (gradient gradient_entry batch meas).
Proof.
  intros Hb. unfold gradient.
  apply (imap3_shaped (λ i k c' _, gradient_entry batch meas i k c')).
  done.
Qed.

Lemma scatter_loop_fit (gt : list (matrix C)) :
  length gt = Z.to_nat tf →
  Forall (Np.shaped (Z.to_nat (L cfg)) (Z.to_nat (L cfg))) gt →
  ∃ s, foldlM (scatter_frame cfg gt xs ys)
         (Np.full (N cfg) (N cfg) C0) (seq 0 (Z.to_nat tf)) = Some s
       ∧ Np.has_shape (N cfg) (N cfg) s.
Proof.
  intros Lgt Sgt.
  apply (foldlM_range (scatter_frame cfg gt xs ys)
           (λ _ s, Np.has_shape (N cfg) (N cfg) s)).
  - apply zeros_spec; lia.
  - intros i s Hi Hs.
    destruct (Hwin i Hi) as (x & y & Hx & Hy & Hxb & Hyb).
    unfold scatter_frame. rewrite Hx, Hy. simpl.
    destruct (lookup_lt_is_Some_2 gt i ltac:(lia)) as [g Hg].
    rewrite Hg. simpl.
    pose proof (Forall_lookup_1 _ _ _ _ Sgt Hg) as Hgs.
    apply shaped_has_shape in Hgs; [|lia..].
    apply scatter_add_fit; lia || done.
Qed.

Lemma gd_update_fit (lr : R) (cnts : matrix Z) (est : matrix C)
    (gt : list (matrix C)) :
  Np.has_shape (N cfg) (N cfg) est → Np.has_shape (N cfg) (N cfg) cnts →
  length gt = Z.to_nat tf →
  Forall (Np.shaped (Z.to_nat (L cfg)) (Z.to_nat (L cfg))) gt →
  ∃ e, gd_update cfg lr cnts xs ys tf est gt = Some e
       ∧ Np.has_shape (N cfg) (N cfg) e.
Proof.
  intros Hest Hcnts Lgt Sgt. unfold gd_update.
  destruct (zeros_spec C0 (N cfg) (N cfg)) as (-> & _ & _); [lia..|]. simpl.
  destruct (scatter_loop_fit gt Lgt Sgt) as (s & -> & Hs). simpl.
  apply shaped_has_shape in Hs; [|lia..].
  apply shaped_has_shape in Hest; [|lia..].
  apply shaped_has_shape in Hcnts; [|lia..].
  destruct (zip2_shaped (λ g c, Cdivr g (IZR c)) _ _
              (mmap (Cscale lr) s) cnts (mmap_shaped _ _ _ _ Hs) Hcnts)
    as [-> Hstep]. simpl.
  destruct (zip2_shaped Csub _ _ est _ Hest Hstep) as [-> He].
  eexists. split; [done|]. apply shaped_has_shape; [lia..|done].
Qed.

Lemma gd_stage_spec (lr : R) (meas : list (matrix R)) (cnts : matrix Z)
    (iters : nat) (est : matrix C) (tr : list event) :
  Np.has_shape (N cfg) (N cfg) est → Np.has_shape (N cfg) (N cfg) cnts →
  ∃ e, foldlM (gd_iteration cfg gradient_entry lr meas cnts xs ys tf)
         (est, tr) (seq 0 iters)
       = Some (e, tr ++ (Descended <$> seq 0 iters))
       ∧ Np.has_shape (N cfg) (N cfg) e.
Proof.
  intros Hest Hcnts.
  destruct (foldlM_range
              (gd_iteration cfg gradient_entry lr meas cnts xs ys tf)
              (λ k st, Np.has_shape (N cfg) (N cfg) st.1
                       ∧ st.2 = tr ++ (Descended <$> seq 0 k))
              iters (est, tr)) as ([e tr'] & -> & He & Htr).
  - split; [done|]. simpl. by rewrite app_nil_r.
  - intros k [e tr'] Hk [He Htr]. simpl in *. subst tr'.
    unfold gd_iteration. simpl.
    destruct (extract_batch_spec e He) as (b & -> & Lb & Sb). simpl.
    destruct (gradient_shaped b meas _ _ Sb) as [Lg Sg].
    destruct (gd_update_fit lr cnts e (gradient gradient_entry b meas)
                He Hcnts ltac:(lia) Sg) as (e' & -> & He'). simpl.
    eexists. split; [done|]. split; [done|]. simpl.
    replace (Descended 0 :: list_fmap nat event Descended (seq 1 k))
      with (Descended <$> seq 0 (S k)) by done.
    rewrite seq_S, fmap_app, app_assoc. done.
  - simpl in *. subst tr'. by exists e.
Qed.
End descent_facts.

(** ** One trial *)

Lemma randn_shaped (o : oracle) (n : nat) :
  Np.shaped n n ((λ i, (λ j, RtoC (randn o i j)) <$> seq 0 n) <$> seq 0 n).
Proof.
  split; [by rewrite length_fmap, length_seq|].
  apply Forall_fmap, Forall_forall. intros i _. simpl.
  by rewrite length_fmap, length_seq.
Qed.

(** ** A gradient of zeros *)

Lemma zip_with2_keep_left {A B : Type} (f : A → B → A) (r c : nat)
    (a : matrix A) (b : matrix B) :
  Np.shaped r c a → Np.shaped r c b →
  Forall (Forall (λ s, ∀ v, f v s = v)) b →
  zip_with (zip_with f) a b = a.
Proof.
  intros [La Ra] [Lb Rb] Hn. subst r. revert b Lb Rb Hn.
  induction Ra as [|ra a Hra _ IH]; intros [|rb b] Lb Rb Hn; simpl in *;
    try done.
  inversion Rb; inversion Hn; subst. f_equal.
  - apply zip_with_keep_left; [congruence|done].
  - apply IH; [lia|done|done].
Qed.

Lemma zip_with2_Forall {A B D : Type} (f : A → B → D) (P : A → Prop)
    (Q : D → Prop) (a : matrix A) (b : matrix B) :
  (∀ x y, P x → Q (f x y)) →
  Forall (Forall P) a → Forall (Forall Q) (zip_with (zip_with f) a b).
Proof.
  intros Hf Ha. apply Forall_lookup. intros i row. rewrite lookup_zip_with.
  destruct (a !! i) as [ra|] eqn:Hra; simpl; [|done].
  destruct (b !! i) as [rb|] eqn:Hrb; simpl; [|done].
  intros [= <-]. apply Forall_lookup. intros j v. rewrite lookup_zip_with.
  destruct (ra !! j) as [va|] eqn:Hva; simpl; [|done].
  destruct (rb !! j) as [vb|] eqn:Hvb; simpl; [|done].
  intros [= <-]. apply Hf.
  eapply (Forall_lookup_1 _ _ _ _ (Forall_lookup_1 _ _ _ _ Ha Hra) Hva).
Qed.

Section zero_gradient.
Context (cfg : config).
Hypothesis HL : (0 ≤ L cfg ≤ N cfg)%Z.

Context (xs ys : list Z) (tf : Z).
Hypothesis Hwin : ∀ i, i < Z.to_nat tf →
  ∃ x y, xs !! i = Some x ∧ ys !! i = Some y
         ∧ (0 ≤ x < N cfg)%Z ∧ (0 ≤ y < N cfg)%Z.

Lemma scatter_loop_zero (gt : list (matrix C)) :
  length gt = Z.to_nat tf →
  Forall (λ g, Np.has_shape (L cfg) (L cfg) g
               ∧ Forall (Forall (λ z, z = C0)) g) gt →
  foldlM (scatter_frame cfg gt xs ys)
    (Np.full (N cfg) (N cfg) C0) (seq 0 (Z.to_nat tf))
  = Some (Np.full (N cfg) (N cfg) C0).
Proof.
  intros Lgt Hgt.
  destruct (foldlM_range (scatter_frame cfg gt xs ys)
              (λ _ s, s = Np.full (N cfg) (N cfg) C0)
              (Z.to_nat tf) (Np.full (N cfg) (N cfg) C0))
    as (s & -> & ->); [done| |done].
  intros i s Hi ->.
  destruct (Hwin i Hi) as (x & y & Hx & Hy & Hxb & Hyb).
  unfold scatter_frame. rewrite Hx, Hy. simpl.
  destruct (lookup_lt_is_Some_2 gt i ltac:(lia)) as [g Hg].
  rewrite Hg. simpl.
  destruct (Forall_lookup_1 _ _ _ _ Hgt Hg) as [Hgs Hgz].
  eexists. split; [|done].
  apply scatter_add_zero; try done; try lia.
  apply zeros_spec; lia.
Qed.

Lemma gd_update_zero (lr : R) (cnts : matrix Z) (est : matrix C)
    (gt : list (matrix C)) :
  Np.has_shape (N cfg) (N cfg) est → Np.has_shape (N cfg) (N cfg) cnts →
  length gt = Z.to_nat tf →
  Forall (λ g, Np.has_shape (L cfg) (L cfg) g
               ∧ Forall (Forall (λ z, z = C0)) g) gt →
  gd_update cfg lr cnts xs ys tf est gt = Some est.
Proof.
  intros Hest Hcnts Lgt Hgt. unfold gd_update.
  destruct (zeros_spec C0 (N cfg) (N cfg)) as (-> & Hzs & Hz0); [lia..|].
  simpl. rewrite (scatter_loop_zero gt Lgt Hgt). simpl.
  apply shaped_has_shape in Hzs; [|lia..].
  apply shaped_has_shape in Hest; [|lia..].
  apply shaped_has_shape in Hcnts; [|lia..].
  destruct (zip2_shaped (λ g c, Cdivr g (IZR c)) _ _
              (mmap (Cscale lr) (Np.full (N cfg) (N cfg) C0)) cnts
              (mmap_shaped _ _ _ _ Hzs) Hcnts) as [-> Hstep]. simpl.
  destruct (zip2_shaped Csub _ _ est _ Hest Hstep) as [-> _].
  f_equal. eapply zip_with2_keep_left; [done|done|].
  apply (zip_with2_Forall _ (λ z, z = Cscale lr C0)).
  - intros z c -> [a b]. unfold Csub, Cdivr, Cscale, C0. simpl.
    f_equal; unfold Rdiv; ring.
  - unfold mmap. apply Forall_fmap. eapply Forall_impl; [exact Hz0|].
    intros row Hrow. simpl. apply Forall_fmap.
    eapply Forall_impl; [exact Hrow|]. by intros z ->.
Qed.
End zero_gradient.

(** ** The two spellings of the forward model *)

Lemma mapM_bind {A B D : Type} (f : A → option B) (g : B → option D)
    (l : list A) :
  mapM (λ x, f x ≫= g) l = mapM f l ≫= mapM g.
Proof.
  induction l as [|x l IH]; [done|].
  cbn [mapM]. rewrite IH.
  destruct (f x) as [y|]; simpl; [|done].
  destruct (mapM f l) as [ys|]; simpl.
  - destruct (g y); simpl; done.
  - destruct (g y); simpl; done.
Qed.

Lemma mapM_total {A B : Type} (g : A → B) (l : list A) :
  mapM (λ x, Some (g x)) l = Some (g <$> l).
Proof.
  induction l as [|x l IH]; [done|]. cbn [mapM]. rewrite IH. done.
Qed.

Lemma mapM_fmap_input {A B D : Type} (f : B → option D) (g : A → B)
    (l : list A) :
  mapM f (g <$> l) = mapM (λ x, f (g x)) l.
Proof.
  induction l as [|x l IH]; [done|]. rewrite fmap_cons. cbn [mapM].
  by rewrite IH.
Qed.

Lemma mapM_ext_eq {A B : Type} (f g : A → option B) (l : list A) :
  (∀ x, f x = g x) → mapM f l = mapM g l.
Proof.
  intros Hfg. induction l as [|x l IH]; [done|]. cbn [mapM].
  by rewrite Hfg, IH.
Qed.

Lemma tf_pad_rows_cols (cfg : config) (X : list (matrix C)) :
  (0 ≤ pad_size cfg)%Z →
  Tf.pad X (Tf.paddings cfg)
  = Some (pad_rows_cols (pad_size cfg) (pad_size cfg)
            (pad_size cfg) (pad_size cfg) <$> X).
Proof.
  intros Hp. unfold Tf.pad, Tf.paddings.
  destruct (Z.ltb_spec (pad_size cfg) 0); [lia|]. simpl.
  unfold pad_axis. simpl. by rewrite app_nil_r.
Qed.

Lemma tf_padded (cfg : config) (X : list (matrix C)) :
  (0 ≤ pad_size cfg)%Z →
  Tf.X_FT_EST_PAD cfg X = mapM (masked_pad cfg) X.
Proof.
  intros Hp. unfold Tf.X_FT_EST_PAD, masked_pad, np_pad, Tf.multiply.
  destruct (Z.ltb_spec (pad_size cfg) 0); [lia|].
  destruct (is_mask cfg).
  - rewrite mapM_bind.
    destruct (mapM (λ W, Np.zip2 Cmul W (mask cfg)) X) as [Xm|]; [|done].
    cbn [mbind option_bind].
    rewrite tf_pad_rows_cols by done. by rewrite mapM_total.
  - rewrite tf_pad_rows_cols by done. by rewrite mapM_total.
Qed.

Lemma tf_ifftshift_inner (X : list (matrix C)) :
  Tf.ifftshift X [1; 2] = ifftshift <$> X.
Proof.
  unfold Tf.ifftshift.
  assert (bool_decide (2 ∈ [1; 2]) = true) as -> by (by vm_compute).
  assert (bool_decide (1 ∈ [1; 2]) = true) as -> by (by vm_compute).
  assert (bool_decide (0 ∈ [1; 2]) = false) as -> by (by vm_compute).
  by rewrite <- list_fmap_compose.
Qed.

(** The graph computes, frame by frame, what the measurement computes. *)
Lemma forward_tf_np (cfg : config) (X : list (matrix C)) :
  (0 ≤ pad_size cfg)%Z →
  Tf.FORWARD cfg X = mapM (forward_np cfg) X.
Proof.
  intros Hp. unfold Tf.FORWARD, forward_np.
  rewrite tf_padded by done. rewrite mapM_bind.
  destruct (mapM (masked_pad cfg) X) as [Xp|]; simpl; [|done].
  rewrite tf_ifftshift_inner. unfold Tf.ifft2d, Tf.abs_scale.
  rewrite mapM_fmap_input, mapM_bind.
  destruct (mapM (λ x, ifft2 (ifftshift x)) Xp) as [F|]; simpl; [|done].
  by rewrite mapM_total.
Qed.

Lemma mapM_forward_defined (cfg : config) (X : list (matrix C)) :
  (0 ≤ pad_size cfg)%Z → (0 < L cfg)%Z →
  (is_mask cfg = true → Np.has_shape (L cfg) (L cfg) (mask cfg)) →
  Forall (Np.has_shape (L cfg) (L cfg)) X →
  ∃ Y, mapM (forward_np cfg) X = Some Y
       ∧ Forall (Np.has_shape (M cfg) (M cfg)) Y.
Proof.
  intros Hp HL Hmask HX.
  induction HX as [|W X HW _ (Y & HY & HYs)]; [by exists []|].
  destruct (forward_np_shaped cfg Hp HL Hmask W HW) as (F & HF & HFs).
  exists (F :: Y). cbn [mapM]. rewrite HF, HY. split; [done|].
  constructor; [|done]. apply shaped_has_shape; [unfold M; lia..|done].
Qed.

(** ** The error metric *)

Section metric_facts.
Local Open Scope R_scope.


Lemma Cabs_nonneg (z : C) : 0 <= Cabs z.
Proof. apply sqrt_pos. Qed.

Lemma Cabs_real (x : R) : 0 <= x → Cabs (x, 0) = x.
Proof.
intros Hx. unfold Cabs. simpl.
replace (x * x + 0 * 0) with (Rsqr x) by (unfold Rsqr; ring).
by apply sqrt_Rsqr.
Qed.

Lemma Cabs_mul (z w : C) : Cabs (Cmul z w) = Cabs z * Cabs w.
Proof.
destruct z as [a b], w as [c d]. unfold Cabs, Cmul. simpl.
rewrite <- sqrt_mult by nra. f_equal. ring.
Qed.

Lemma Cabs_cis (t : R) : Cabs (cis t) = 1.
Proof.
unfold Cabs, cis. simpl.
replace (cos t * cos t + sin t * sin t) with 1.
- apply sqrt_1.
- pose proof (sin2_cos2 t) as H. unfold Rsqr in H. lra.
Qed.

Lemma Cabs_conj (z : C) : Cabs (Cconj z) = Cabs z.
Proof. destruct z as [a b]. unfold Cabs, Cconj. simpl. f_equal. ring. Qed.

Lemma Cabs_triangle (z w : C) : Cabs (Cadd z w) <= Cabs z + Cabs w.
Proof.
destruct z as [a b], w as [c d]. unfold Cabs, Cadd. simpl.
pose proof (triangle a b (- c) (- d) 0 0) as H. unfold dist_euc, Rsqr in H.
replace ((a - - c) * (a - - c) + (b - - d) * (b - - d))
  with ((a + c) * (a + c) + (b + d) * (b + d)) in H by ring.
replace ((a - 0) * (a - 0) + (b - 0) * (b - 0))
  with (a * a + b * b) in H by ring.
replace ((0 - - c) * (0 - - c) + (0 - - d) * (0 - - d))
  with (c * c + d * d) in H by ring.
exact H.
Qed.

Lemma norm2_nonneg (x : list C) : 0 <= norm2 x.
Proof.
induction x as [|z x IH]; simpl; [lra|]. nra.
Qed.


(** [np.vdot(x, x)] is the squared norm. *)
Lemma Csum_self (x : list C) :
Csum (zip_with (λ a b, Cmul (Cconj a) b) x x) = (norm2 x, 0).
Proof.
induction x as [|[a b] x IH]; [done|].
change (norm2 ((a, b) :: x)) with (a * a + b * b + norm2 x).
cbn [zip_with Csum foldr].
fold (Csum (zip_with (λ a b, Cmul (Cconj a) b) x x)).
rewrite IH. unfold Cadd, Cmul, Cconj. cbn [fst snd]. f_equal; ring.
Qed.




End metric_facts.

Lemma minAngMSE_value (xt xest : list C) :
  length xt = length xest → 0 < length xt →
  minAngMSE xt xest
  = Some ((norm2 xt + norm2 xest
           - 2 * Cabs (Csum (zip_with (λ a b, Cmul (Cconj a) b) xt xest)))
          / INR (length xt))%R.
Proof.
  intros Hlen Hpos. unfold minAngMSE, vdot.
  rewrite !decide_True by done. simpl. rewrite decide_False by lia.
  rewrite !Csum_self, !Cabs_real by apply norm2_nonneg. done.
Qed.






(** ** The range of the Poisson sampler *)

Section noise_facts.
Local Open Scope R_scope.

Lemma poisson_lam_max_lower : 2 ^ 62 <= poisson_lam_max.
Proof.
  unfold poisson_lam_max.
  assert (sqrt (IZR (2 ^ 63 - 1)) <= 2 ^ 32) as H.
  { rewrite <- (sqrt_pow2 (2 ^ 32)) by lra.
    apply sqrt_le_1_alt.
    change (2 ^ 63 - 1)%Z with 9223372036854775807%Z. lra. }
  change (2 ^ 63 - 1)%Z with 9223372036854775807%Z in *. lra.
Qed.

Lemma poisson_lam_max_upper : poisson_lam_max <= 2 ^ 63.
Proof.
  unfold poisson_lam_max.
  pose proof (sqrt_pos (IZR (2 ^ 63 - 1))) as H.
  change (2 ^ 63 - 1)%Z with 9223372036854775807%Z in *. lra.
Qed.

Lemma poisson_accepts_in_range (lam : R) :
  0 <= lam <= poisson_lam_max → poisson_accepts lam = true.
Proof.
  intros [H0 H1]. unfold poisson_accepts.
  destruct (Rle_dec 0 lam); [|done]. by destruct (Rle_dec lam poisson_lam_max).
Qed.

Lemma poisson_refuses_above (lam : R) :
  poisson_lam_max < lam → poisson_accepts lam = false.
Proof.
  intros H. unfold poisson_accepts.
  destruct (Rle_dec 0 lam); [|done].
  destruct (Rle_dec lam poisson_lam_max); [lra|done].
Qed.

(** *** Moduli along the transforms *)

Lemma Cabs_C0 : Cabs C0 = 0.
Proof. apply (Cabs_real 0). lra. Qed.

Lemma Cabs_Cdivr_le (z : C) (a b : R) :
  0 < a → Cabs z <= a * b → Cabs (Cdivr z a) <= b.
Proof.
  intros Ha Hz.
  assert (Cdivr z a = Cmul z (/ a, 0)) as ->.
  { destruct z as [x y]. unfold Cdivr, Cmul, Rdiv. simpl. f_equal; ring. }
  assert (0 < / a) as Hi by by apply Rinv_0_lt_compat.
  rewrite Cabs_mul, Cabs_real by lra.
  apply (Rmult_le_reg_l a); [done|].
  replace (a * (Cabs z * / a)) with (Cabs z) by (field; lra). done.
Qed.

(** A division by the square root of a count does not enlarge the
    modulus. *)
Lemma Cabs_Cdivr_count (z : C) (c : Z) (b : R) :
  Cabs z <= b → Cabs (Cdivr z (sqrt (IZR c))) <= b.
Proof.
  intros Hz. pose proof (Cabs_nonneg z) as H0.
  destruct (Z.le_gt_cases c 0) as [Hc|Hc].
  - assert (sqrt (IZR c) = 0) as ->.
    { apply sqrt_neg_0. apply (IZR_le c 0). lia. }
    assert (Cdivr z 0 = C0) as ->.
    { unfold Cdivr, Rdiv, C0. rewrite Rinv_0. f_equal; ring. }
    rewrite Cabs_C0. lra.
  - assert (1 <= sqrt (IZR c)) as Hs.
    { rewrite <- sqrt_1. apply sqrt_le_1_alt. apply (IZR_le 1 c). lia. }
    apply Cabs_Cdivr_le; [lra|]. nra.
Qed.

Lemma Cabs_Csum_imap {A : Type} (f : nat → A → C) (l : list A) (b : R) :
  (∀ i x, l !! i = Some x → Cabs (f i x) <= b) →
  Cabs (Csum (imap f l)) <= INR (length l) * b.
Proof.
  revert f. induction l as [|a l IH]; intros f Hf.
  - simpl. rewrite Cabs_C0. lra.
  - cbn [imap length]. rewrite S_INR.
    change (Csum (f 0%nat a :: imap (f ∘ S) l))
      with (Cadd (f 0%nat a) (Csum (imap (f ∘ S) l))).
    pose proof (Cabs_triangle (f 0%nat a) (Csum (imap (f ∘ S) l))) as Ht.
    pose proof (Hf 0%nat a eq_refl) as H0.
    pose proof (IH (f ∘ S) (λ i x Hi, Hf (S i) x Hi)) as H1.
    lra.
Qed.

Lemma dft_entry_bound (sgn : R) (r c r' c' : nat) (m : matrix C)
    (k l : nat) (b : R) :
  Np.shaped r c m → Forall (Forall (λ z, Cabs z <= b)) m →
  Cabs (dft_entry sgn r' c' m k l) <= INR r * (INR c * b).
Proof.
  intros [Hlen Hrect] Hb. unfold dft_entry. rewrite <- Hlen.
  apply Cabs_Csum_imap. intros p row Hrow.
  rewrite <- (Forall_lookup_1 _ _ _ _ Hrect Hrow).
  apply Cabs_Csum_imap. intros q v Hv.
  rewrite Cabs_mul, Cabs_cis, Rmult_1_r.
  apply (Forall_lookup_1 _ _ _ _ (Forall_lookup_1 _ _ _ _ Hb Hrow) Hv).
Qed.

Lemma dft2_bound (sgn : R) (r c : nat) (m : matrix C) (b : R) :
  Np.shaped r c m → Forall (Forall (λ z, Cabs z <= b)) m →
  Forall (Forall (λ z, Cabs z <= INR r * (INR c * b))) (dft2 sgn m).
Proof.
  intros Hm Hb. unfold dft2.
  apply Forall_fmap, Forall_forall. intros k _. simpl.
  apply Forall_fmap, Forall_forall. intros l _. simpl.
  by apply dft_entry_bound.
Qed.

Lemma mmap_Forall {A B : Type} (P : A → Prop) (Q : B → Prop) (f : A → B)
    (m : matrix A) :
  (∀ x, P x → Q (f x)) → Forall (Forall P) m → Forall (Forall Q) (mmap f m).
Proof.
  intros Hf Hm. unfold mmap. apply Forall_fmap.
  eapply Forall_impl; [exact Hm|]. intros row Hrow. simpl.
  apply Forall_fmap. eapply Forall_impl; [exact Hrow|]. done.
Qed.

Lemma fftshift_Forall (P : C → Prop) (m : matrix C) :
  Forall (Forall P) m → Forall (Forall P) (fftshift m).
Proof.
  intros Hm. unfold fftshift, fftshift1.
  apply roll_left_Forall, Forall_fmap.
  eapply Forall_impl; [exact Hm|]. intros row Hrow. simpl.
  by apply roll_left_Forall.
Qed.

Lemma ifftshift_Forall (P : C → Prop) (m : matrix C) :
  Forall (Forall P) m → Forall (Forall P) (ifftshift m).
Proof.
  intros Hm. unfold ifftshift, ifftshift1.
  apply roll_left_Forall, Forall_fmap.
  eapply Forall_impl; [exact Hm|]. intros row Hrow. simpl.
  by apply roll_left_Forall.
Qed.

Lemma repmat22_Forall {A : Type} (P : A → Prop) (m : matrix A) :
  Forall (Forall P) m → Forall (Forall P) (Np.repmat22 m).
Proof.
  intros Hm. unfold Np.repmat22.
  assert (Forall (Forall P) ((λ row, row ++ row) <$> m)) as H.
  { apply Forall_fmap. eapply Forall_impl; [exact Hm|].
    intros row Hrow. simpl. by apply Forall_app. }
  by apply Forall_app.
Qed.

Lemma pad_rows_cols_Forall (P : C → Prop) (b1 a1 b2 a2 : Z) (m : matrix C) :
  P C0 → Forall (Forall P) m →
  Forall (Forall P) (pad_rows_cols b1 a1 b2 a2 m).
Proof.
  intros H0 Hm. unfold pad_rows_cols, pad_axis.
  assert (∀ k w, Forall (Forall P) (replicate k (replicate w C0))) as Hz.
  { intros k w. apply Forall_replicate. by apply Forall_replicate. }
  apply Forall_app. split; [apply Hz|]. apply Forall_app. split; [|apply Hz].
  apply Forall_fmap. eapply Forall_impl; [exact Hm|].
  intros row Hrow. simpl. apply Forall_app. split; [by apply Forall_replicate|].
  apply Forall_app. split; [done|by apply Forall_replicate].
Qed.

Lemma fft2_bound (r c : nat) (m f : matrix C) (b : R) :
  Np.shaped r c m → Forall (Forall (λ z, Cabs z <= b)) m →
  fft2 m = Some f →
  Forall (Forall (λ z, Cabs z <= INR r * (INR c * b))) f.
Proof.
  intros Hm Hb. unfold fft2. destruct (is_empty2 m); [done|].
  intros [= <-]. by apply dft2_bound.
Qed.

(** The inverse transform of an array has no entry of a modulus above the
    largest modulus of the array. *)
Lemma ifft2_bound (r c : nat) (m f : matrix C) (b : R) :
  (0 < r)%nat → (0 < c)%nat →
  Np.shaped r c m → Forall (Forall (λ z, Cabs z <= b)) m →
  ifft2 m = Some f → Forall (Forall (λ z, Cabs z <= b)) f.
Proof.
  intros Hr Hc Hm Hb. unfold ifft2. destruct (is_empty2 m); [done|].
  intros [= <-]. rewrite (ncols_shaped r c m Hr Hm).
  destruct Hm as [Hlen Hrect]. rewrite Hlen.
  eapply mmap_Forall; [|apply (dft2_bound 1 r c m b); [by split|done]].
  intros z Hz. cbn beta in *.
  apply Cabs_Cdivr_le; [|lra].
  apply Rmult_lt_0_compat; apply lt_0_INR; lia.
Qed.

Lemma zip_with2_Forall_both {A B D : Type} (f : A → B → D) (P : A → Prop)
    (Q : B → Prop) (S : D → Prop) (a : matrix A) (b : matrix B) :
  (∀ x y, P x → Q y → S (f x y)) →
  Forall (Forall P) a → Forall (Forall Q) b →
  Forall (Forall S) (zip_with (zip_with f) a b).
Proof.
  intros Hf Ha Hb. apply Forall_lookup. intros i row. rewrite lookup_zip_with.
  destruct (a !! i) as [ra|] eqn:Hra; simpl; [|done].
  destruct (b !! i) as [rb|] eqn:Hrb; simpl; [|done].
  intros [= <-]. apply Forall_lookup. intros j v. rewrite lookup_zip_with.
  destruct (ra !! j) as [va|] eqn:Hva; simpl; [|done].
  destruct (rb !! j) as [vb|] eqn:Hvb; simpl; [|done].
  intros [= <-]. apply Hf.
  - eapply (Forall_lookup_1 _ _ _ _ (Forall_lookup_1 _ _ _ _ Ha Hra) Hva).
  - eapply (Forall_lookup_1 _ _ _ _ (Forall_lookup_1 _ _ _ _ Hb Hrb) Hvb).
Qed.

Lemma forallb_Forall {A : Type} (f : A → bool) (l : list A) :
  Forall (λ x, f x = true) l → forallb f l = true.
Proof.
  induction 1 as [|x l Hx _ IH]; [done|]. simpl. by rewrite Hx, IH.
Qed.

Lemma forallb_refuses {A : Type} (f : A → bool) (l : list A) (x : A) :
  x ∈ l → f x = false → forallb f l = false.
Proof.
  intros Hx Hf. induction l as [|y l IH]; [by apply elem_of_nil in Hx|].
  simpl. apply elem_of_cons in Hx as [->|Hx].
  - by rewrite Hf.
  - rewrite IH by done. apply andb_false_r.
Qed.

(** *** The amplitudes of a frame *)

Section amplitude_range.
Context (cfg : config).
Hypothesis Hpad : (0 ≤ pad_size cfg)%Z.
Hypothesis HL : (0 < L cfg ≤ N cfg)%Z.
Hypothesis Hmask :
  is_mask cfg = true → Np.has_shape (L cfg) (L cfg) (mask cfg).

Lemma masked_pad_bound (W P : matrix C) (b K : R) :
  0 <= b → 1 <= K →
  (is_mask cfg = true → Forall (Forall (λ m, Cabs m <= K)) (mask cfg)) →
  Np.has_shape (L cfg) (L cfg) W →
  Forall (Forall (λ z, Cabs z <= b)) W →
  masked_pad cfg W = Some P →
  Forall (Forall (λ z, Cabs z <= b * K)) P.
Proof.
  intros Hb HK HmK HW HWb. unfold masked_pad, np_pad.
  apply shaped_has_shape in HW; [|lia..].
  destruct (Z.ltb_spec (pad_size cfg) 0); [lia|].
  assert (Cabs C0 <= b * K) as H0 by (rewrite Cabs_C0; nra).
  destruct (is_mask cfg) eqn:Hm.
  - specialize (Hmask eq_refl). apply shaped_has_shape in Hmask; [|lia..].
    destruct (zip2_shaped Cmul _ _ W (mask cfg) HW Hmask) as [-> _].
    simpl. intros [= <-]. apply pad_rows_cols_Forall; [done|].
    apply (zip_with2_Forall_both Cmul (λ z, Cabs z <= b)
             (λ m, Cabs m <= K)); [|done|by apply HmK].
    intros z m Hz Hmm. cbn beta in *. rewrite Cabs_mul.
    pose proof (Cabs_nonneg z). pose proof (Cabs_nonneg m). nra.
  - intros [= <-]. apply pad_rows_cols_Forall; [done|].
    eapply Forall_impl; [exact HWb|]. intros row Hrow.
    eapply Forall_impl; [exact Hrow|]. intros z Hz. cbn beta in *.
    pose proof (Cabs_nonneg z). nra.
Qed.

(** The amplitudes of a frame are not negative, and at most [M] times
    the largest modulus of the masked window. *)
Lemma forward_np_bound (W : matrix C) (F : matrix R) (b K : R) :
  0 <= b → 1 <= K →
  (is_mask cfg = true → Forall (Forall (λ m, Cabs m <= K)) (mask cfg)) →
  Np.has_shape (L cfg) (L cfg) W →
  Forall (Forall (λ z, Cabs z <= b)) W →
  forward_np cfg W = Some F →
  Forall (Forall (λ v, 0 <= v <= IZR (M cfg) * (b * K))) F.
Proof.
  intros Hb HK HmK HW HWb. unfold forward_np.
  destruct (masked_pad_shaped cfg Hpad ltac:(lia) Hmask W HW)
    as (P & HP & HPs).
  pose proof (masked_pad_bound W P b K Hb HK HmK HW HWb HP) as HPb.
  rewrite HP. simpl.
  assert (0 < Z.to_nat (M cfg))%nat as HM by (unfold M; lia).
  destruct (ifft2 (ifftshift P)) as [g|] eqn:Hg; [|done]. simpl.
  intros [= <-].
  pose proof (ifft2_bound _ _ (ifftshift P) g (b * K) HM HM
                (ifftshift_shaped _ _ P HPs)
                (ifftshift_Forall _ P HPb) Hg) as Hgb.
  eapply mmap_Forall; [|exact Hgb]. intros z Hz. cbn beta in *.
  assert (0 < IZR (M cfg)) as HMr by (apply (IZR_lt 0); unfold M; lia).
  pose proof (Cabs_nonneg z). split; nra.
Qed.
End amplitude_range.

Lemma imap_Forall {A B : Type} (P : B → Prop) (f : nat → A → B)
    (l : list A) :
  (∀ i x, P (f i x)) → Forall P (imap f l).
Proof.
  intros H. apply Forall_lookup. intros i y. rewrite list_lookup_imap.
  destruct (l !! i); simpl; [|done]. intros [= <-]. apply H.
Qed.

Lemma full_Forall {A : Type} (P : A → Prop) (r c : Z) (v : A) :
  P v → Forall (Forall P) (Np.full r c v).
Proof. intros Hv. unfold Np.full. by apply Forall_replicate, Forall_replicate. Qed.

(** *** The noise *)

(** The sampler accepts the frames whose intensities are within its
    range; the noisy frames have the shapes of the given ones and no
    negative entry. *)
Lemma add_noise_spec (o : oracle) (r c : nat) (t : list (matrix R)) :
  Forall (Np.shaped r c) t →
  Forall (Forall (Forall (λ v, v ^ 2 <= poisson_lam_max))) t →
  ∃ meas, add_noise o t = Some meas
          ∧ length meas = length t
          ∧ Forall (Np.shaped r c) meas
          ∧ Forall (Forall (Forall (λ v, 0 <= v))) meas.
Proof.
  intros Ht Hb. unfold add_noise.
  set (lam := mmap (λ v, Rabs v ^ 2) <$> t).
  assert (Forall (Np.shaped r c) lam) as Hlam.
  { apply Forall_fmap. eapply Forall_impl; [exact Ht|].
    intros W HW. by apply mmap_shaped. }
  rewrite forallb_Forall.
  - eexists. split; [done|].
    destruct (imap3_shaped (λ i k j m, sqrt (poisson o i k j m)) r c lam Hlam)
      as [H1 H2].
    split; [by rewrite H1; unfold lam; rewrite length_fmap|].
    split; [done|].
    apply imap_Forall. intros i W. apply imap_Forall. intros k row.
    apply imap_Forall. intros j m. apply sqrt_pos.
  - apply Forall_fmap. eapply Forall_impl; [exact Hb|].
    intros W HW. simpl. apply forallb_Forall.
    apply Forall_fmap. eapply Forall_impl; [exact HW|].
    intros row Hrow. simpl. apply forallb_Forall.
    apply Forall_fmap. eapply Forall_impl; [exact Hrow|].
    intros v Hv. cbn beta in *. apply poisson_accepts_in_range.
    change (Rabs v * (Rabs v * 1)) with (Rabs v ^ 2).
    rewrite pow2_abs. split; [apply pow2_ge_0|done].
Qed.

(** The sampler refuses the frames as soon as one intensity is above its
    range. *)
Lemma add_noise_refuses (o : oracle) (t : list (matrix R)) (W : matrix R)
    (row : list R) (v : R) :
  W ∈ t → row ∈ W → v ∈ row → poisson_lam_max < v ^ 2 →
  add_noise o t = None.
Proof.
  intros HW Hrow Hv Hbig. unfold add_noise.
  rewrite (forallb_refuses _ _ (mmap (λ v, Rabs v ^ 2) W)); [done| |].
  - by apply list_elem_of_fmap_2.
  - apply (forallb_refuses _ _ ((λ v, Rabs v ^ 2) <$> row)).
    + unfold mmap. by apply (list_elem_of_fmap_2 (fmap (λ v, Rabs v ^ 2))).
    + apply (forallb_refuses _ _ (Rabs v ^ 2)).
      * by apply (list_elem_of_fmap_2 (λ v, Rabs v ^ 2)).
      * apply poisson_refuses_above. by rewrite pow2_abs.
Qed.

(** *** The measurement *)

Section measurement_range.
Context (cfg : config).
Hypothesis Hpad : (0 ≤ pad_size cfg)%Z.
Hypothesis HL : (0 < L cfg ≤ N cfg)%Z.
Hypothesis Hmask :
  is_mask cfg = true → Np.has_shape (L cfg) (L cfg) (mask cfg).

Context (xs ys : list Z) (tf : Z).
Hypothesis Htf : (0 ≤ tf)%Z.
Hypothesis Hwin : ∀ i, (i < Z.to_nat tf)%nat →
  ∃ x y, xs !! i = Some x ∧ ys !! i = Some y
         ∧ (0 ≤ x < N cfg)%Z ∧ (0 ≤ y < N cfg)%Z.

(** The normalised spectrum of a signal whose entries have moduli up to
    [B] has entries of moduli up to [N * B]. *)
Lemma objectFT_bound (xt f objectFT : matrix C) (cnts : matrix Z) (B : R) :
  Np.has_shape (N cfg) (N cfg) xt → Np.has_shape (N cfg) (N cfg) cnts →
  Forall (Forall (λ z, Cabs z <= B)) xt →
  fft2 xt = Some f →
  Np.zip2 (λ z c, Cdivr z (sqrt (IZR c)))
    (mmap (λ z, Cdivr z (IZR (N cfg))) (fftshift f)) cnts = Some objectFT →
  Forall (Forall (λ z, Cabs z <= IZR (N cfg) * B)) objectFT.
Proof.
  intros Hxt Hcnts HB Hf Hobj.
  apply shaped_has_shape in Hxt; [|lia..].
  apply shaped_has_shape in Hcnts; [|lia..].
  pose proof (fft2_bound _ _ xt f B Hxt HB Hf) as Hfb.
  rewrite INR_IZR_INZ, Z2Nat.id in Hfb by lia.
  destruct (fft2_shaped (Z.to_nat (N cfg)) (Z.to_nat (N cfg)) xt)
    as (f' & Hf' & Hfs); [lia|lia|done|].
  rewrite Hf in Hf'. injection Hf' as <-.
  set (scaled := mmap (λ z, Cdivr z (IZR (N cfg))) (fftshift f)) in *.
  assert (Np.shaped (Z.to_nat (N cfg)) (Z.to_nat (N cfg)) scaled) as Hsc
    by by apply mmap_shaped, fftshift_shaped.
  destruct (zip2_shaped (λ z c, Cdivr z (sqrt (IZR c))) _ _ scaled cnts
              Hsc Hcnts) as [Hz _].
  rewrite Hz in Hobj. injection Hobj as <-.
  apply (zip_with2_Forall _ (λ z, Cabs z <= IZR (N cfg) * B)).
  - intros z c Hzb. by apply Cabs_Cdivr_count.
  - unfold scaled. eapply mmap_Forall; [|by apply fftshift_Forall, Hfb].
    intros z Hzb. cbn beta in *.
    apply Cabs_Cdivr_le; [apply (IZR_lt 0); lia|done].
Qed.

(** The measurement of a trial is defined, frame by frame of the shape
    [M x M] and without a negative amplitude, when the noise is off, and
    also when it is on and the bounds [B] of the signal and [K] of the
    mask keep the intensities within the range of the sampler. *)
Lemma measurement_spec (o : oracle) (xt : matrix C) (cnts : matrix Z)
    (B K : R) :
  Np.has_shape (N cfg) (N cfg) xt → Np.has_shape (N cfg) (N cfg) cnts →
  (is_noisy cfg = true →
     0 <= B ∧ 1 <= K
     ∧ Forall (Forall (λ z, Cabs z <= B)) xt
     ∧ (is_mask cfg = true →
          Forall (Forall (λ m, Cabs m <= K)) (mask cfg))
     ∧ (IZR (M cfg) * IZR (N cfg) * B * K) ^ 2 <= poisson_lam_max) →
  ∃ meas, measurement cfg o xt cnts xs ys tf = Some meas
          ∧ length meas = Z.to_nat tf
          ∧ Forall (Np.shaped (Z.to_nat (M cfg)) (Z.to_nat (M cfg))) meas
          ∧ Forall (Forall (Forall (λ v, 0 <= v))) meas.
Proof.
  intros Hxt Hcnts Hrange.
  destruct (measurement_fold cfg Hpad HL Hmask xs ys tf Htf Hwin o xt cnts
              Hxt Hcnts)
    as (f & objectFT & t & Hf & Hobj & Hos & -> & Lt & St & _ & Ht).
  assert (0 < IZR (N cfg)) as HNr by (apply (IZR_lt 0); lia).
  assert (0 < IZR (M cfg)) as HMr by (apply (IZR_lt 0); unfold M; lia).
  destruct (is_noisy cfg).
  - destruct (Hrange eq_refl) as (HB & HK & HxtB & HmK & Hmax).
    pose proof (objectFT_bound xt f objectFT cnts B Hxt Hcnts HxtB Hf Hobj)
      as Hob.
    destruct (add_noise_spec o _ _ t St) as (meas & -> & Lm & Sm & Pm).
    + apply Forall_lookup. intros i frame Hi.
      destruct (Ht i frame Hi) as (x & y & Hx & Hy & Hfwd).
      assert (Np.has_shape (L cfg) (L cfg) (window cfg objectFT x y)) as Hw
        by (apply window_shaped; lia || done).
      pose proof (forward_np_bound cfg Hpad HL Hmask _ frame
                    (IZR (N cfg) * B) K ltac:(nra) HK HmK Hw
                    (Forall_get2 _ _ _ _ (repmat22_Forall _ _ Hob)) Hfwd)
        as Hfb.
      eapply Forall_impl; [exact Hfb|]. intros row Hrow.
      eapply Forall_impl; [exact Hrow|]. intros v [Hv0 Hv1]. cbn beta.
      etrans; [|exact Hmax].
      replace (IZR (M cfg) * IZR (N cfg) * B * K)
        with (IZR (M cfg) * (IZR (N cfg) * B * K)) by ring.
      apply pow_incr. lra.
    + exists meas. split_and!; [done|lia|done|done].
  - exists t. split_and!; [done..|].
    apply Forall_lookup. intros i frame Hi.
    destruct (Ht i frame Hi) as (x & y & Hx & Hy & Hfwd).
    unfold forward_np in Hfwd.
    destruct (masked_pad cfg (window cfg objectFT x y)) as [P|]; [|done].
    simpl in Hfwd. destruct (ifft2 (ifftshift P)) as [g|]; [|done].
    simpl in Hfwd. injection Hfwd as <-.
    unfold mmap. apply Forall_fmap, Forall_forall. intros row _.
    apply Forall_fmap, Forall_forall. intros z _. simpl.
    apply Rmult_le_pos; [apply Cabs_nonneg|lra].
Qed.
End measurement_range.

(** *** One trial *)

(** A trial of a configuration with a positive pitch, a window that fits
    and arrays of the configured shapes, whose intensities the sampler
    accepts when the noise is on, runs to its end and records one step per
    frame and outer loop and one per descent iteration. *)
Lemma run_trial_spec (cfg : config)
    (gradient_entry : list (matrix C) → list (matrix R) → nat → nat → nat → C)
    (num_projection_loop num_gd_iteration : nat) (lr : R) (o : oracle)
    (xt : matrix C) (B K : R) :
  (0 < pitch cfg)%Z → (0 < L cfg ≤ N cfg)%Z → (0 ≤ pad_size cfg)%Z →
  (is_mask cfg = true → Np.has_shape (L cfg) (L cfg) (mask cfg)) →
  Np.has_shape (N cfg) (N cfg) xt →
  (∀ k l, Permutation (shuffle o k l) l) →
  (is_noisy cfg = true →
     0 <= B ∧ 1 <= K
     ∧ Forall (Forall (λ z, Cabs z <= B)) xt
     ∧ (is_mask cfg = true → Forall (Forall (λ m, Cabs m <= K)) (mask cfg))
     ∧ (IZR (M cfg) * IZR (N cfg) * B * K) ^ 2 <= poisson_lam_max) →
  ∃ out tf orders,
    run_trial cfg gradient_entry num_projection_loop num_gd_iteration lr o xt
    = Some out
    ∧ total_frame cfg = Some tf
    ∧ length orders = num_projection_loop
    ∧ Forall (λ σ, Permutation σ (seq 0 (Z.to_nat tf))) orders
    ∧ steps out = concat (imap (λ loop σ, Projected loop <$> σ) orders)
                  ++ (Descended <$> seq 0 num_gd_iteration)
    ∧ Np.has_shape (N cfg) (N cfg) (estimate out).
Proof.
  intros Hp HL Hpad Hmask Hxt Hperm Hrange.
  destruct (counts_spec cfg Hp ltac:(lia))
    as (tf & xs & ys & cnt & cnts & Htf & Hxs & Hys & _ & Hcnts & Htfv & _
        & Hcs & _).
  destruct (locations_inside cfg Hp ltac:(lia))
    as (tf' & xs' & ys' & Htf' & Hxs' & Hys' & Htf0 & Hwin).
  rewrite Htf in Htf'. rewrite Hxs in Hxs'. rewrite Hys in Hys'.
  injection Htf' as <-. injection Hxs' as <-. injection Hys' as <-.
  unfold run_trial. rewrite Htf, Hxs, Hys, Hcnts. simpl.
  destruct (measurement_spec cfg Hpad HL Hmask xs ys tf Htf0 Hwin o xt cnts
              B K Hxt Hcs Hrange) as (meas & -> & Lmeas & Smeas & _). simpl.
  destruct (fft2_shaped (Z.to_nat (N cfg)) (Z.to_nat (N cfg))
              ((λ i, (λ j, RtoC (randn o i j)) <$> seq 0 (Z.to_nat (N cfg)))
                 <$> seq 0 (Z.to_nat (N cfg))))
    as (f & -> & Hf); [lia|lia|apply randn_shaped|]. simpl.
  assert (Np.has_shape (N cfg) (N cfg) (fftshift f)) as Hinit.
  { apply shaped_has_shape; [lia..|]. by apply fftshift_shaped. }
  destruct (projection_stage_spec cfg Hpad HL Hmask xs ys tf Hwin meas
              Lmeas Smeas o num_projection_loop (fftshift f) Hperm Hinit)
    as (e1 & sq & orders & -> & He1 & Lord & Pord). simpl.
  destruct (gd_stage_spec cfg gradient_entry HL xs ys tf Htf0 Hwin lr meas
              cnts num_gd_iteration e1
              (concat (imap (λ loop σ, Projected loop <$> σ) orders))
              He1 Hcs) as (e2 & -> & He2). simpl.
  pose proof He2 as He2s. apply shaped_has_shape in He2s; [|lia..].
  pose proof Hcs as Hcss. apply shaped_has_shape in Hcss; [|lia..].
  destruct (zip2_shaped (λ z c, Cscale (sqrt (IZR c)) z) _ _ e2 cnts
              He2s Hcss) as [-> Hsc]. simpl.
  destruct (ifft2_shaped (Z.to_nat (N cfg)) (Z.to_nat (N cfg))
              (ifftshift (zip_with (zip_with (λ z c, Cscale (sqrt (IZR c)) z))
                            e2 cnts)))
    as (g & -> & Hg); [lia|lia|by apply ifftshift_shaped|]. simpl.
  destruct (minAngMSE_defined (Np.flatten xt)
              (Np.flatten (mmap (Cscale (IZR (N cfg))) g))) as [mse ->].
  { apply shaped_has_shape in Hxt; [|lia..].
    rewrite (flatten_length _ _ _ Hxt).
    by rewrite (flatten_length _ _ _ (mmap_shaped _ _ _ _ Hg)). }
  { apply shaped_has_shape in Hxt; [|lia..].
    rewrite (flatten_length _ _ _ Hxt). nia. }
  simpl. eexists _, tf, orders. split_and!; done.
Qed.

(** *** A trial that the sampler stops *)

Lemma Cdivr_one (z : C) : Cdivr z 1 = z.
Proof. destruct z as [x y]. unfold Cdivr. simpl. f_equal; field. Qed.

Lemma dft2_point (sgn : R) (v : C) : dft2 sgn [[v]] = [[v]].
Proof.
  unfold dft2, dft_entry. simpl.
  replace (sgn * 2 * PI * (0 * 0 / 1 + 0 * 0 / 1)) with 0 by field.
  unfold cis. rewrite cos_0, sin_0.
  destruct v as [x y]. unfold Csum, Cmul, Cadd, C0. simpl.
  repeat f_equal; ring.
Qed.

Lemma fft2_point (v : C) : fft2 [[v]] = Some [[v]].
Proof.
  unfold fft2. change (is_empty2 [[v]]) with false. cbv iota.
  by rewrite dft2_point.
Qed.

Lemma ifft2_point (v : C) : ifft2 [[v]] = Some [[v]].
Proof.
  unfold ifft2. change (is_empty2 [[v]]) with false. cbv iota.
  rewrite dft2_point. simpl.
  replace (1 * 1) with 1 by ring. by rewrite Cdivr_one.
Qed.

Lemma forward_np_point (w : C) : forward_np cfg_point [[w]] = Some [[Cabs w]].
Proof.
  unfold forward_np.
  assert (masked_pad cfg_point [[w]] = Some [[w]]) as -> by reflexivity.
  cbn [mbind option_bind].
  assert (ifftshift [[w]] = [[w]]) as -> by reflexivity.
  rewrite ifft2_point. cbn [mbind option_bind].
  unfold mmap. simpl. by rewrite Rmult_1_r.
Qed.

(** The measurement of the configuration of size 1: its single frame is
    the modulus of the single entry of the signal. *)
Lemma point_frames (o : oracle) (v : C) :
  measurement cfg_point o [[v]] [[1%Z]] [0%Z] [0%Z] 1
  = add_noise o [[[Cabs v]]].
Proof.
  unfold measurement. rewrite fft2_point. cbn [mbind option_bind].
  assert (Np.zip2 (λ (z : C) (c : Z), Cdivr z (sqrt (IZR c)))
            (mmap (λ z : C, Cdivr z (IZR (N cfg_point))) (fftshift [[v]]))
            [[1%Z]] = Some [[v]]) as ->.
  { assert (fftshift [[v]] = [[v]]) as -> by reflexivity.
    unfold mmap. simpl. rewrite Cdivr_one.
    unfold Np.zip2. simpl. by rewrite sqrt_1, Cdivr_one. }
  cbn [mbind option_bind].
  assert (zeros3 0 1 (M cfg_point) (M cfg_point) = Some [[[0]]]) as ->
    by reflexivity.
  cbn [mbind option_bind].
  change (seq 0 (Z.to_nat 1)) with [0%nat].
  cbn [foldlM mbind option_bind].
  unfold measure_frame. cbn [lookup list_lookup mbind option_bind].
  assert (Np.get2 (footprint cfg_point 0 0).1 (footprint cfg_point 0 0).2
            (Np.repmat22 [[v]]) = [[v]]) as -> by reflexivity.
  rewrite forward_np_point. cbn [mbind option_bind].
  assert (set_frame (M cfg_point) (M cfg_point) [[[0]]] 0 [[Cabs v]]
          = Some [[[Cabs v]]]) as -> by reflexivity.
  reflexivity.
Qed.

(** An intensity of 1e20 is refused by the sampler: the noisy trial of the
    signal [bright] stops in its measurement, before any solver step. *)
Lemma bright_trial_refused
    (gradient_entry : list (matrix C) → list (matrix R) → nat → nat → nat → C)
    (num_projection_loop num_gd_iteration : nat) (lr : R) (o : oracle) :
  run_trial cfg_point gradient_entry num_projection_loop num_gd_iteration lr
    o bright = None.
Proof.
  unfold run_trial.
  assert (total_frame cfg_point = Some 1%Z) as -> by reflexivity.
  assert (xlocations cfg_point = Some [0%Z]) as -> by reflexivity.
  assert (ylocations cfg_point = Some [0%Z]) as -> by reflexivity.
  assert (counts cfg_point = Some [[1%Z]]) as -> by reflexivity.
  cbn [mbind option_bind]. unfold bright. rewrite point_frames.
  rewrite (add_noise_refuses o _ [[Cabs (10 ^ 10, 0)]] [Cabs (10 ^ 10, 0)]
             (Cabs (10 ^ 10, 0))); [done|apply list_elem_of_here..|].
  rewrite Cabs_real by (apply pow_le; lra).
  pose proof poisson_lam_max_upper. lra.
Qed.

End noise_facts.

(** ** The model on sample inputs *)

Example counts_cfg_wrap :
  counts cfg_wrap
  = Some [[4; 2; 4; 2]; [2; 1; 2; 1]; [4; 2; 4; 2]; [2; 1; 2; 1]]%Z.
Proof. reflexivity. Qed.

Example locations_cfg_odd :
  total_frame cfg_odd = Some 1%Z ∧ xlocations cfg_odd = Some [0; 2; 0; 2]%Z
  ∧ ylocations cfg_odd = Some [0; 0; 2; 2]%Z.
Proof. by split_and!. Qed.

(** The frame at [(2, 2)] crosses both borders. *)
Example window_crossing :
  window cfg_wrap sample_grid 2 2
  = [[11; 12; 9]; [15; 16; 13]; [3; 4; 1]]%Z.
Proof. reflexivity. Qed.

(** A block of zeros written there lands in the four corners. *)
Example write_back_crossing :
  write_back cfg_wrap sample_grid 2 2 (Np.full 3 3 0%Z)
  = Some [[0; 2; 0; 0]; [5; 6; 7; 8]; [0; 10; 0; 0]; [0; 14; 0; 0]]%Z.
Proof. reflexivity. Qed.

Example write_back_crossing_columns :
  write_back cfg_wrap sample_grid 0 2 (Np.full 3 3 0%Z)
  = Some [[0; 2; 0; 0]; [0; 6; 0; 0]; [0; 10; 0; 0]; [13; 14; 15; 16]]%Z.
Proof. reflexivity. Qed.

(** A block of another shape is the broadcast error of NumPy. *)
Example write_back_misfit :
  write_back cfg_wrap sample_grid 2 2 (Np.full 2 3 0%Z) = None.
Proof. reflexivity. Qed.

(** A window larger than the array cannot be written back. *)
Example write_back_oversized :
  write_back (example_cfg 2 3 1) [[1; 2]; [3; 4]]%Z 0 0 (Np.full 3 3 0%Z)
  = None.
Proof. reflexivity. Qed.

Example shifts_of_five :
  ifftshift1 [1; 2; 3; 4; 5] = [3; 4; 5; 1; 2]
  ∧ fftshift1 [1; 2; 3; 4; 5] = [4; 5; 1; 2; 3].
Proof. by split. Qed.

(** ** The claims *)

(** The coordinates of the frames lie inside the array. *)
Lemma locations_range (cfg : config) (xs ys : list Z) (i : nat) (x y : Z) :
  (0 ≤ N cfg)%Z →
  xlocations cfg = Some xs → ylocations cfg = Some ys →
  xs !! i = Some x → ys !! i = Some y →
  (0 ≤ x < N cfg)%Z ∧ (0 ≤ y < N cfg)%Z.
Proof.
  intros HN Hxs Hys Hx Hy.
  assert (∀ v, mesh cfg = Some v → Forall (λ c, 0 ≤ c < N cfg)%Z v) as Hmesh.
  { intros v Hv. unfold mesh, Np.arange in Hv.
    destruct (Z.eqb_spec (pitch cfg) 0) as [|Hne]; [done|].
    injection Hv as <-. apply Forall_fmap, Forall_forall. intros k Hk.
    apply elem_of_seq in Hk. simpl.
    destruct (Z.lt_ge_cases 0 (pitch cfg)) as [Hpos|Hneg].
    - destruct (arange_spec (N cfg) (pitch cfg) Hpos HN) as (_ & _ & Hin & _).
      apply Hin. lia.
    - assert (- (- N cfg / pitch cfg) ≤ 0)%Z.
      { assert (0 ≤ - N cfg / pitch cfg)%Z; [|lia].
        pose proof (Z.div_mod (- N cfg) (pitch cfg) Hne).
        pose proof (Z.mod_neg_bound (- N cfg) (pitch cfg) ltac:(lia)).
        nia. }
      lia. }
  unfold xlocations, ylocations in *.
  destruct (mesh cfg) as [v|] eqn:Hv; [|done]. simpl in *.
  injection Hxs as <-. injection Hys as <-.
  specialize (Hmesh v eq_refl).
  split.
  - eapply (Forall_lookup_1 (λ c, 0 ≤ c < N cfg)%Z); [|exact Hx].
    apply Forall_concat, Forall_replicate. done.
  - eapply (Forall_lookup_1 (λ c, 0 ≤ c < N cfg)%Z); [|exact Hy].
    apply Forall_concat, Forall_fmap.
    eapply Forall_impl; [exact Hmesh|]. intros c Hc. simpl.
    by apply Forall_replicate.
Qed.

(** C1. Reading the block of a frame from the 2 x 2 replication of an
    N x N array and writing it back unchanged at the same coordinates, whole
    or split in two or four pieces at the borders, gives the array back,
    for every frame of the geometry when the window is no larger than the
    array. *)
Theorem write_back_inverts_window {A : Type} (cfg : config)
    (imageRecoverFT : matrix A) (xs ys : list Z) (i : nat) (x y : Z) :
  Np.has_shape (N cfg) (N cfg) imageRecoverFT →
  (0 ≤ L cfg ≤ N cfg)%Z →
  xlocations cfg = Some xs → ylocations cfg = Some ys →
  xs !! i = Some x → ys !! i = Some y →
  write_back cfg imageRecoverFT x y (window cfg imageRecoverFT x y)
  = Some imageRecoverFT.
Proof.
  intros Hshape HL Hxs Hys Hx Hy.
  destruct (locations_range cfg xs ys i x y ltac:(lia) Hxs Hys Hx Hy).
  by apply write_back_window.
Qed.

Lemma write_back_inverts_window_witness :
  xlocations cfg_wrap = Some [0; 2; 0; 2]%Z
  ∧ ylocations cfg_wrap = Some [0; 0; 2; 2]%Z
  ∧ write_back cfg_wrap sample_grid 2 2 (window cfg_wrap sample_grid 2 2)
    = Some sample_grid.
Proof.
  split; [reflexivity|]. split; [reflexivity|].
  apply (write_back_inverts_window cfg_wrap sample_grid
           [0; 2; 0; 2]%Z [0; 0; 2; 2]%Z 3 2 2).
  - split; [reflexivity|]. repeat constructor.
  - simpl. lia.
  - reflexivity.
  - reflexivity.
  - reflexivity.
  - reflexivity.
Defined.




(** C4, as amended. When the pitch is positive, divides the size and is
    no larger than the window, and the window is no larger than the array,
    the energy map is an N x N array whose entries are all at least 1. *)
Theorem counts_at_least_one (cfg : config) :
  (0 < pitch cfg)%Z → (pitch cfg | N cfg)%Z →
  (pitch cfg ≤ L cfg)%Z → (L cfg ≤ N cfg)%Z →
  ∃ c, counts cfg = Some c ∧ Np.has_shape (N cfg) (N cfg) c
       ∧ Forall (Forall (λ v, 1 ≤ v)%Z) c.
Proof.
  intros Hp Hdiv HpL HLN.
  destruct (counts_spec cfg Hp ltac:(lia))
    as (tf & xs & ys & cnt & c & Htf & Hxs & Hys & Hcnt & Hc & Htfv & Hcs
        & Hshape & _ & Hceq & Hent).
  exists c. split; [done|]. split; [done|]. rewrite Hceq.
  assert (Forall (Forall (λ v, 0 ≤ v)%Z) cnt) as Hpos.
  { apply Forall_lookup. intros i row Hrow. apply Forall_lookup.
    intros j v Hv. by apply (Hent i j row v). }
  repeat apply zip_add_lower; try by apply Forall_get2.
  apply Forall_lookup. intros i row Hrow. apply Forall_lookup. intros j v Hv.
  destruct (lookup_get2_origin cnt (N cfg) i j row v ltac:(lia) Hrow Hv)
    as (Hi & Hj & row0 & Hrow0 & Hv0).
  destruct (every_cell_covered cfg xs ys i j Hp Hdiv HpL Hxs Hys Hi Hj)
    as (w & Hw & Hcov).
  destruct (Hent i j row0 v Hrow0 Hv0) as [_ Hone].
  apply (Hone w); [|done]. by rewrite Htfv.
Qed.

Lemma counts_at_least_one_witness :
  ∃ c, counts cfg_wrap = Some c ∧ Np.has_shape (N cfg_wrap) (N cfg_wrap) c
       ∧ Forall (Forall (λ v, 1 ≤ v)%Z) c.
Proof.
  apply (counts_at_least_one cfg_wrap).
  - simpl. lia.
  - exists 2%Z. reflexivity.
  - simpl. lia.
  - simpl. lia.
Defined.

(** C4, as stated, fails: with size 4, pitch 2 (which divides 4) and
    window 1 (which is no larger than 4) the energy map has entries 0. *)
Lemma counts_at_least_one_counterexample :
  (pitch cfg_sparse | N cfg_sparse)%Z ∧ (L cfg_sparse ≤ N cfg_sparse)%Z
  ∧ counts cfg_sparse
    = Some [[1; 0; 1; 0]; [0; 0; 0; 0]; [1; 0; 1; 0]; [0; 0; 0; 0]]%Z
  ∧ ¬ ∃ c, counts cfg_sparse = Some c ∧ Forall (Forall (λ v, 1 ≤ v)%Z) c.
Proof.
  split; [by exists 2%Z|]. split; [simpl; lia|]. split; [reflexivity|].
  intros (c & Hc & Hall). vm_compute in Hc. injection Hc as <-.
  inversion Hall as [|? ? Hrow _]; subst.
  inversion Hrow as [|? ? _ Hrest]; subst.
  inversion Hrest as [|? ? Hzero _]; subst. lia.
Qed.

(** C5. A gradient of zeros is a fixed point of the descent step: for an
    N x N estimate, an N x N energy map with entries at least 1 and one
    L x L block of zeros per frame, scatter-accumulation, division by the map
    and the update return the estimate unchanged. *)
Theorem zero_gradient_fixed_point (cfg : config) (lr : R) (cnts : matrix Z)
    (xs ys : list Z) (tf : Z) (imageRecoverFT : matrix C)
    (gradient_tensor : list (matrix C)) :
  (0 < pitch cfg)%Z → (0 ≤ L cfg ≤ N cfg)%Z →
  total_frame cfg = Some tf →
  xlocations cfg = Some xs → ylocations cfg = Some ys →
  Np.has_shape (N cfg) (N cfg) imageRecoverFT →
  Np.has_shape (N cfg) (N cfg) cnts →
  Forall (Forall (λ v, 1 ≤ v)%Z) cnts →
  length gradient_tensor = Z.to_nat tf →
  Forall (λ g, Np.has_shape (L cfg) (L cfg) g
               ∧ Forall (Forall (λ z, z = C0)) g) gradient_tensor →
  gd_update cfg lr cnts xs ys tf imageRecoverFT gradient_tensor
  = Some imageRecoverFT.
Proof.
  intros Hp HL Htf Hxs Hys Hest Hcnts _ Hlen Hzero.
  destruct (locations_inside cfg Hp ltac:(lia))
    as (tf' & xs' & ys' & Htf' & Hxs' & Hys' & Htf0 & Hwin).
  rewrite Htf in Htf'. rewrite Hxs in Hxs'. rewrite Hys in Hys'.
  injection Htf' as <-. injection Hxs' as <-. injection Hys' as <-.
  by apply gd_update_zero.
Qed.

Lemma zero_gradient_fixed_point_witness :
  gd_update cfg_wrap 0.5 (Np.full 4 4 4%Z) [0; 2; 0; 2]%Z [0; 0; 2; 2]%Z 4
    (ones 4) (replicate 4 (Np.full 3 3 C0))
  = Some (ones 4).
Proof.
  apply (zero_gradient_fixed_point cfg_wrap 0.5 (Np.full 4 4 4%Z)
           [0; 2; 0; 2]%Z [0; 0; 2; 2]%Z 4 (ones 4)
           (replicate 4 (Np.full 3 3 C0))).
  - simpl. lia.
  - simpl. lia.
  - reflexivity.
  - reflexivity.
  - reflexivity.
  - split; [reflexivity|]. repeat constructor.
  - split; [reflexivity|]. repeat constructor.
  - unfold Np.full. simpl. repeat (constructor; try lia).
  - reflexivity.
  - repeat constructor.
Defined.

(** C6. On every batch of L x L windows the graph of the loss ([FORWARD]:
    mask, pad, shift, inverse transform, modulus, scale by M) and the
    measurement synthesis compute the same M x M amplitude arrays. *)
Theorem forward_paths_agree (cfg : config) (X_FT_EST : list (matrix C)) :
  (0 ≤ pad_size cfg)%Z → (0 < L cfg)%Z →
  (is_mask cfg = true → Np.has_shape (L cfg) (L cfg) (mask cfg)) →
  Forall (Np.has_shape (L cfg) (L cfg)) X_FT_EST →
  ∃ Y, Tf.FORWARD cfg X_FT_EST = Some Y
       ∧ mapM (forward_np cfg) X_FT_EST = Some Y
       ∧ Forall (Np.has_shape (M cfg) (M cfg)) Y.
Proof.
  intros Hp HL Hmask HX.
  destruct (mapM_forward_defined cfg X_FT_EST Hp HL Hmask HX) as (Y & HY & HYs).
  exists Y. rewrite forward_tf_np by done. done.
Qed.

Lemma forward_paths_agree_witness :
  ∃ Y, Tf.FORWARD cfg_masked [ones 2; Np.full 2 2 (0, 1)%R] = Some Y
       ∧ mapM (forward_np cfg_masked) [ones 2; Np.full 2 2 (0, 1)%R] = Some Y
       ∧ Forall (Np.has_shape (M cfg_masked) (M cfg_masked)) Y.
Proof.
  apply (forward_paths_agree cfg_masked [ones 2; Np.full 2 2 (0, 1)%R]).
  - simpl. lia.
  - simpl. lia.
  - intros _. split; [reflexivity|]. repeat constructor.
  - repeat constructor.
Defined.

(** C7, as amended. Nothing checks the configuration.  A trial with a
    positive pitch, a window of positive size no larger than the array, a
    pad size that is not negative, a mask (when enabled) of the shape of the
    window and a signal of the configured shape runs through measurement,
    every projection loop and every descent iteration and returns an N x N
    estimate, whether or not the pitch divides the size and whatever the
    entries of the mask are.  When the noise is on, the intensities have to
    be within the range of the Poisson sampler, or the sampler stops the
    trial: it is enough that the moduli of the signal are at most [B],
    those of the mask at most [K], at least 1, and that
    [(M * N * B * K)^2] is at most [poisson_lam_max]. *)
Theorem trial_runs_unchecked (cfg : config)
    (gradient_entry : list (matrix C) → list (matrix R) → nat → nat → nat → C)
    (num_projection_loop num_gd_iteration : nat) (lr : R) (o : oracle)
    (xt : matrix C) (B K : R) :
  (0 < pitch cfg)%Z → (0 < L cfg ≤ N cfg)%Z → (0 ≤ pad_size cfg)%Z →
  (is_mask cfg = true → Np.has_shape (L cfg) (L cfg) (mask cfg)) →
  Np.has_shape (N cfg) (N cfg) xt →
  (∀ k l, Permutation (shuffle o k l) l) →
  (is_noisy cfg = true →
     (0 <= B)%R ∧ (1 <= K)%R
     ∧ Forall (Forall (λ z, (Cabs z <= B)%R)) xt
     ∧ (is_mask cfg = true →
          Forall (Forall (λ m, (Cabs m <= K)%R)) (mask cfg))
     ∧ ((IZR (M cfg) * IZR (N cfg) * B * K) ^ 2 <= poisson_lam_max)%R) →
  ∃ out,
    run_trial cfg gradient_entry num_projection_loop num_gd_iteration lr o xt
    = Some out
    ∧ Np.has_shape (N cfg) (N cfg) (estimate out)
    ∧ length (steps out)
      = num_projection_loop * Z.to_nat ((N cfg / pitch cfg) ^ 2)
        + num_gd_iteration.
Proof.
  intros Hp HL Hpad Hmask Hxt Hperm Hrange.
  destruct (run_trial_spec cfg gradient_entry num_projection_loop
              num_gd_iteration lr o xt B K Hp HL Hpad Hmask Hxt Hperm Hrange)
    as (out & tf & orders & Hrun & Htf & Hlen & Hord & Hsteps & Hest).
  exists out. split; [done|]. split; [done|].
  destruct (locations_spec cfg Hp ltac:(lia)) as (_ & _ & _ & _ & _ & Ht & _).
  rewrite Htf in Ht. injection Ht as ->.
  rewrite Hsteps, length_app, length_fmap, length_seq. f_equal.
  rewrite <- Hlen. clear Hlen Hsteps Hrun.
  set (t := Z.to_nat ((N cfg / pitch cfg) ^ 2)) in *.
  assert (∀ k, length (concat (imap (λ loop σ, Projected (k + loop) <$> σ)
                                 orders)) = length orders * t) as Hgen.
  { induction Hord as [|σ orders Hσ _ IH]; intros k; [done|].
    cbn [imap concat]. rewrite length_app, length_fmap.
    rewrite (Permutation_length Hσ), length_seq.
    rewrite (imap_ext _ (λ loop σ', Projected (S k + loop) <$> σ')).
    - rewrite IH. simpl. lia.
    - intros i σ' _. simpl. do 2 f_equal. lia. }
  apply (Hgen 0).
Qed.

Lemma trial_runs_unchecked_witness :
  ∃ out, run_trial cfg_zero_mask no_gradient 2 1 0.5 turning (ones 3)
         = Some out
         ∧ Np.has_shape (N cfg_zero_mask) (N cfg_zero_mask) (estimate out)
         ∧ length (steps out) = 3.
Proof.
  apply (trial_runs_unchecked cfg_zero_mask no_gradient 2 1 0.5 turning
           (ones 3) 1 1).
  - simpl. lia.
  - simpl. lia.
  - simpl. lia.
  - intros _. split; [reflexivity|]. repeat constructor.
  - split; [reflexivity|]. repeat constructor.
  - intros k l. simpl. apply reverse_Permutation.
  - intros _. split; [lra|]. split; [lra|]. split; [|split].
    + apply full_Forall. rewrite Cabs_real; lra.
    + intros _. apply full_Forall. rewrite Cabs_C0. lra.
    + change (IZR (M cfg_zero_mask)) with 4%R.
      change (IZR (N cfg_zero_mask)) with 3%R.
      pose proof poisson_lam_max_lower. lra.
Defined.

(** C7, as stated, fails: with size 3 and pitch 2, which does not divide
    it, the trial is not stopped; it performs the projection step and the
    descent step of its single frame and returns. *)
Lemma trial_runs_unchecked_counterexample :
  ¬ (pitch cfg_odd | N cfg_odd)%Z
  ∧ ∃ out, run_trial cfg_odd no_gradient 1 1 0.5 still (ones 3) = Some out
           ∧ steps out = [Projected 0 0; Descended 0].
Proof.
  split.
  - intros [k Hk]. simpl in Hk. lia.
  - destruct (run_trial_spec cfg_odd no_gradient 1 1 0.5 still (ones 3) 1 1)
      as (out & tf & orders & Hrun & Htf & Hlen & Hord & Hsteps & _).
    + simpl. lia.
    + simpl. lia.
    + simpl. lia.
    + intros Hmask. discriminate Hmask.
    + split; [reflexivity|]. repeat constructor.
    + intros k l. reflexivity.
    + intros Hnoise. discriminate Hnoise.
    + exists out. split; [done|]. rewrite Hsteps.
      vm_compute in Htf. injection Htf as <-.
      destruct orders as [|σ [|? ?]]; simpl in Hlen; try lia.
      inversion Hord as [|? ? Hσ _]; subst.
      symmetry in Hσ. apply Permutation_length_1_inv in Hσ. subst σ.
      reflexivity.
Qed.

(** C8, as amended. Both solver stages take a fixed number of steps, with
    no test of convergence: a trial whose measurement the Poisson sampler
    does not stop (the noise is off, or the moduli of the signal are at
    most [B], those of the mask at most [K], at least 1, and
    [(M * N * B * K)^2] is at most [poisson_lam_max]) performs exactly
    [num_projection_loop] outer loops, each of which visits every frame
    exactly once, and then exactly [num_gd_iteration] descent
    iterations. *)
Theorem stages_take_fixed_steps (cfg : config)
    (gradient_entry : list (matrix C) → list (matrix R) → nat → nat → nat → C)
    (num_projection_loop num_gd_iteration : nat) (lr : R) (o : oracle)
    (xt : matrix C) (B K : R) :
  (0 < pitch cfg)%Z → (0 < L cfg ≤ N cfg)%Z → (0 ≤ pad_size cfg)%Z →
  (is_mask cfg = true → Np.has_shape (L cfg) (L cfg) (mask cfg)) →
  Np.has_shape (N cfg) (N cfg) xt →
  (∀ k l, Permutation (shuffle o k l) l) →
  (is_noisy cfg = true →
     (0 <= B)%R ∧ (1 <= K)%R
     ∧ Forall (Forall (λ z, (Cabs z <= B)%R)) xt
     ∧ (is_mask cfg = true →
          Forall (Forall (λ m, (Cabs m <= K)%R)) (mask cfg))
     ∧ ((IZR (M cfg) * IZR (N cfg) * B * K) ^ 2 <= poisson_lam_max)%R) →
  ∃ out tf orders,
    run_trial cfg gradient_entry num_projection_loop num_gd_iteration lr o xt
    = Some out
    ∧ total_frame cfg = Some tf
    ∧ length orders = num_projection_loop
    ∧ Forall (λ σ, Permutation σ (seq 0 (Z.to_nat tf))) orders
    ∧ steps out = concat (imap (λ loop σ, Projected loop <$> σ) orders)
                  ++ (Descended <$> seq 0 num_gd_iteration).
Proof.
  intros Hp HL Hpad Hmask Hxt Hperm Hrange.
  destruct (run_trial_spec cfg gradient_entry num_projection_loop
              num_gd_iteration lr o xt B K Hp HL Hpad Hmask Hxt Hperm Hrange)
    as (out & tf & orders & Hrun & Htf & Hlen & Hord & Hsteps & _).
  by exists out, tf, orders.
Qed.

Lemma stages_take_fixed_steps_witness :
  ∃ out tf orders,
    run_trial cfg_masked no_gradient 2 3 0.5 turning (ones 4) = Some out
    ∧ total_frame cfg_masked = Some tf
    ∧ length orders = 2
    ∧ Forall (λ σ, Permutation σ (seq 0 (Z.to_nat tf))) orders
    ∧ steps out = concat (imap (λ loop σ, Projected loop <$> σ) orders)
                  ++ (Descended <$> seq 0 3).
Proof.
  apply (stages_take_fixed_steps cfg_masked no_gradient 2 3 0.5 turning
           (ones 4) 1 1).
  - simpl. lia.
  - simpl. lia.
  - simpl. lia.
  - intros _. split; [reflexivity|]. repeat constructor.
  - split; [reflexivity|]. repeat constructor.
  - intros k l. simpl. apply reverse_Permutation.
  - intros _. split; [lra|]. split; [lra|]. split; [|split].
    + apply full_Forall. rewrite Cabs_real; lra.
    + intros _. apply full_Forall. rewrite Cabs_real; lra.
    + change (IZR (M cfg_masked)) with 4%R.
      change (IZR (N cfg_masked)) with 4%R.
      pose proof poisson_lam_max_lower. lra.
Defined.

(** C8, as stated, fails: the noisy trial of the configuration of size 1
    on a signal of intensity 1e20, which is above the range of the Poisson
    sampler, is stopped by the sampler in its measurement; it has no
    outcome, and neither stage has taken a step. *)
Lemma stages_take_fixed_steps_counterexample :
  (0 < pitch cfg_point)%Z
  ∧ (0 < L cfg_point ≤ N cfg_point)%Z
  ∧ (0 ≤ pad_size cfg_point)%Z
  ∧ is_mask cfg_point = false
  ∧ Np.has_shape (N cfg_point) (N cfg_point) bright
  ∧ run_trial cfg_point no_gradient 2 3 0.5 still bright = None.
Proof.
  split_and!; [simpl; lia..|reflexivity| |apply bright_trial_refused].
  split; [reflexivity|]. repeat constructor.
Qed.

(** C9. When the pitch is positive and divides the size and the window is
    no larger than the array, the entries of the energy map add up to
    [total_frame * L^2], with [total_frame = (N / pitch)^2]. *)
Theorem counts_sum (cfg : config) :
  (0 < pitch cfg)%Z → (pitch cfg | N cfg)%Z → (0 ≤ L cfg ≤ N cfg)%Z →
  ∃ c tf, counts cfg = Some c ∧ total_frame cfg = Some tf
          ∧ tf = ((N cfg / pitch cfg) ^ 2)%Z
          ∧ sum2 c = (tf * L cfg ^ 2)%Z.
Proof.
  intros Hp _ HL.
  destruct (counts_spec cfg Hp HL)
    as (tf & xs & ys & cnt & c & Htf & _ & _ & _ & Hc & Htfv & _ & _ & Hsum & _).
  exists c, tf. split_and!; try done. rewrite Hsum. ring.
Qed.

Lemma counts_sum_witness :
  ∃ c tf, counts cfg_wrap = Some c ∧ total_frame cfg_wrap = Some tf
          ∧ tf = ((N cfg_wrap / pitch cfg_wrap) ^ 2)%Z
          ∧ sum2 c = (tf * L cfg_wrap ^ 2)%Z.
Proof.
  apply (counts_sum cfg_wrap).
  - simpl. lia.
  - exists 2%Z. reflexivity.
  - simpl. lia.
Defined.




(** ** Cells of slices and of updated arrays *)

Lemma at2_shaped {A : Type} (r c : nat) (m : matrix A) (i j : nat) :
  Np.shaped r c m → i < r → j < c → is_Some (at2 m i j).
Proof.
  intros [Hlen Hrect] Hi Hj. unfold at2.
  destruct (lookup_lt_is_Some_2 m i ltac:(lia)) as [row Hrow].
  rewrite Hrow. simpl. apply lookup_lt_is_Some_2.
  rewrite (Forall_lookup_1 _ _ _ _ Hrect Hrow). done.
Qed.

Lemma at2_outside {A : Type} (r c : nat) (m : matrix A) (i j : nat) :
  Np.shaped r c m → r ≤ i ∨ c ≤ j → at2 m i j = None.
Proof.
  intros [Hlen Hrect] Hij. unfold at2.
  destruct (m !! i) as [row|] eqn:Hrow; [|done]. simpl.
  pose proof (lookup_lt_Some _ _ _ Hrow).
  apply lookup_ge_None. rewrite (Forall_lookup_1 _ _ _ _ Hrect Hrow). lia.
Qed.

(** Arrays of one shape with the same cells are equal. *)
Lemma at2_ext {A : Type} (r c : nat) (a b : matrix A) :
  Np.shaped r c a → Np.shaped r c b →
  (∀ i j, i < r → j < c → at2 a i j = at2 b i j) → a = b.
Proof.
  intros [La Ra] [Lb Rb] Hcells. apply list_eq. intros i.
  destruct (decide (i < r)) as [Hi|Hi].
  - destruct (lookup_lt_is_Some_2 a i ltac:(lia)) as [ra Hra].
    destruct (lookup_lt_is_Some_2 b i ltac:(lia)) as [rb Hrb].
    rewrite Hra, Hrb. f_equal. apply list_eq. intros j.
    pose proof (Forall_lookup_1 _ _ _ _ Ra Hra) as Hla.
    pose proof (Forall_lookup_1 _ _ _ _ Rb Hrb) as Hlb. simpl in *.
    destruct (decide (j < c)) as [Hj|Hj].
    + specialize (Hcells i j Hi Hj). unfold at2 in Hcells.
      by rewrite Hra, Hrb in Hcells.
    + rewrite !lookup_ge_None_2 by lia. done.
  - rewrite !lookup_ge_None_2 by lia. done.
Qed.

Lemma lookup_upd1 {A : Type} (f : A → A → A) r (l src : list A) (i : nat) :
  length src = Np.width (length l) r →
  Np.upd1 f r l src !! i
  = if decide (Np.lo (length l) r ≤ i < Np.hi (length l) r)
    then v ← l !! i; s ← src !! (i - Np.lo (length l) r); Some (f v s)
    else l !! i.
Proof.
  intros Hsrc. unfold Np.upd1.
  pose proof (lo_le (length l) r) as Hlo.
  pose proof (hi_le (length l) r) as Hhi.
  unfold Np.width in Hsrc.
  set (a := Np.lo (length l) r) in *. set (b := Np.hi (length l) r) in *.
  assert (length (take a l) = a) as Hta by (rewrite length_take; lia).
  assert (length (zip_with f (Np.get1 r l) src) = b - a) as Hmid.
  { rewrite length_zip_with, length_get1. unfold Np.width. fold a b. lia. }
  destruct (decide (i < a)) as [Hi|Hi].
  - rewrite lookup_app_l by lia. rewrite lookup_take_lt by done.
    rewrite decide_False by lia. done.
  - rewrite lookup_app_r by lia. rewrite Hta.
    destruct (decide (i < b)) as [Hib|Hib].
    + rewrite lookup_app_l by lia. rewrite lookup_zip_with, lookup_get1.
      fold a. rewrite !decide_True by (unfold Np.width; fold a b; lia).
      replace (a + (i - a)) with i by lia. done.
    + rewrite lookup_app_r by lia. rewrite Hmid, lookup_drop.
      rewrite decide_False by lia. f_equal. lia.
Qed.

Lemma at2_get2 {A : Type} rr rc (m : matrix A) (cols : nat) (i j : nat) :
  Forall (λ row, length row = cols) m →
  at2 (Np.get2 rr rc m) i j
  = if decide (i < Np.width (length m) rr ∧ j < Np.width cols rc)
    then at2 m (Np.lo (length m) rr + i) (Np.lo cols rc + j)
    else None.
Proof.
  intros Hm. unfold at2, Np.get2. rewrite list_lookup_fmap, lookup_get1.
  destruct (decide (i < Np.width (length m) rr)) as [Hi|Hi].
  - destruct (m !! (Np.lo (length m) rr + i)) as [row|] eqn:Hrow; simpl.
    + rewrite lookup_get1, (Forall_lookup_1 _ _ _ _ Hm Hrow).
      destruct (decide (j < Np.width cols rc)).
      * by rewrite decide_True.
      * by rewrite decide_False by tauto.
    + by case_decide.
  - simpl. by rewrite decide_False by tauto.
Qed.

(** The cells after an update with a block of the shape of the slice. *)
Lemma at2_upd2 {A : Type} (f : A → A → A) rr rc (m src m' : matrix A)
    (cols : nat) (i j : nat) :
  Forall (λ row, length row = cols) m →
  length src = Np.width (length m) rr →
  Forall (λ row, length row = Np.width cols rc) src →
  Np.upd2 f rr rc m src = Some m' →
  at2 m' i j
  = if decide (Np.lo (length m) rr ≤ i < Np.hi (length m) rr
               ∧ Np.lo cols rc ≤ j < Np.hi cols rc)
    then v ← at2 m i j;
         s ← at2 src (i - Np.lo (length m) rr) (j - Np.lo cols rc);
         Some (f v s)
    else at2 m i j.
Proof.
  intros Hm Hlen Hsrc Hupd. unfold Np.upd2 in Hupd.
  assert (Np.broadcast_to (Np.width (length m) rr)
            (Np.width (Np.ncols m) rc) src = Some src) as Hb.
  { apply broadcast_to_fit; [done|].
    destruct m as [|row m].
    - destruct src; [constructor|].
      pose proof (hi_le 0 rr). unfold Np.width in Hlen. simpl in *. lia.
    - simpl. inversion Hm; subst. done. }
  rewrite Hb in Hupd. simpl in Hupd. injection Hupd as <-.
  change (take (Np.lo (length m) rr) m
          ++ zip_with (Np.upd1 f rc) (Np.get1 rr m) src
          ++ drop (Np.lo (length m) rr `max` Np.hi (length m) rr) m)
    with (Np.upd1 (Np.upd1 f rc) rr m src).
  unfold at2 at 1. rewrite lookup_upd1 by done.
  destruct (decide (Np.lo (length m) rr ≤ i < Np.hi (length m) rr)) as [Hi|Hi].
  - unfold at2.
    destruct (m !! i) as [row|] eqn:Hrow; simpl;
      [|by case_decide].
    pose proof (Forall_lookup_1 _ _ _ _ Hm Hrow) as Hrl. simpl in Hrl.
    destruct (src !! (i - Np.lo (length m) rr)) as [s|] eqn:Hs; simpl.
    + pose proof (Forall_lookup_1 _ _ _ _ Hsrc Hs) as Hsl. simpl in Hsl.
      rewrite lookup_upd1 by (rewrite Hrl; done). rewrite Hrl.
      destruct (decide (Np.lo cols rc ≤ j < Np.hi cols rc)).
      * by rewrite decide_True.
      * by rewrite decide_False by tauto.
    + exfalso. apply lookup_ge_None in Hs.
      pose proof (hi_le (length m) rr). unfold Np.width in *. lia.
  - rewrite decide_False by tauto. done.
Qed.

Lemma at2_repmat22 {A : Type} (n : nat) (m : matrix A) (i j : nat) :
  Np.shaped n n m → i < 2 * n → j < 2 * n →
  at2 (Np.repmat22 m) i j
  = at2 m (if decide (i < n) then i else i - n)
      (if decide (j < n) then j else j - n).
Proof.
  intros [Hlen Hrect] Hi Hj. unfold at2, Np.repmat22.
  assert ((((λ row : list A, row ++ row) <$> m)
           ++ ((λ row : list A, row ++ row) <$> m)) !! i
          = (λ row : list A, row ++ row)
              <$> m !! (if decide (i < n) then i else i - n)) as ->.
  { case_decide.
    - rewrite lookup_app_l by (rewrite length_fmap; lia).
      by rewrite list_lookup_fmap.
    - rewrite lookup_app_r by (rewrite length_fmap; lia).
      rewrite length_fmap, Hlen. by rewrite list_lookup_fmap. }
  destruct (m !! (if decide (i < n) then i else i - n)) as [row|] eqn:Hrow;
    [|done]. simpl.
  pose proof (Forall_lookup_1 _ _ _ _ Hrect Hrow) as Hrl. simpl in Hrl.
  destruct (decide (j < n)) as [Hjn|Hjn].
  - by rewrite lookup_app_l by lia.
  - rewrite lookup_app_r by lia. by rewrite Hrl.
Qed.

(** The slices of the wrap-around cases, along one axis: where they start
    and end in the array (of size [n]) and in the block (of size [l]). *)
Lemma wrap_bounds (n l : nat) (x size len : Z) :
  size = Z.of_nat n → len = Z.of_nat l →
  (0 ≤ len ≤ size)%Z → (0 ≤ x < size)%Z →
  ((x ≤ size - len)%Z →
     Np.lo n (Np.rng x (x + len)) = Z.to_nat x
     ∧ Np.hi n (Np.rng x (x + len)) = Z.to_nat x + l
     ∧ Np.lo l Np.all = 0 ∧ Np.hi l Np.all = l)
  ∧ ((size - len < x)%Z →
       Np.lo n (Np.rng x size) = Z.to_nat x
       ∧ Np.hi n (Np.rng x size) = n
       ∧ Np.lo l (Np.rng 0 (size - x)) = 0
       ∧ Np.hi l (Np.rng 0 (size - x)) = n - Z.to_nat x
       ∧ Np.lo n (Np.rng 0 (len + x - size)) = 0
       ∧ Np.hi n (Np.rng 0 (len + x - size)) = l + Z.to_nat x - n
       ∧ Np.lo l (Np.from (size - x)) = n - Z.to_nat x
       ∧ Np.hi l (Np.from (size - x)) = l
       ∧ Np.lo l (Np.rng (size - x) size) = n - Z.to_nat x
       ∧ Np.hi l (Np.rng (size - x) size) = l).
Proof.
  intros -> -> Hlen Hx.
  unfold Np.hi, Np.lo, Np.rng, Np.from, Np.all. simpl.
  split; [intros Hin|intros Hout]; split_and!;
    rewrite ?py_bound_nonneg by lia; lia.
Qed.

(** One piece of a block written with [f]: the update succeeds, keeps the
    shape, and changes the cells of the slice only. *)
Lemma piece_at {A : Type} (f : A → A → A) rr rc pr pc
    (m blk : matrix A) (n l a b c d a' b' c' d' : nat) :
  Np.shaped n n m → Np.shaped l l blk →
  Np.lo n rr = a → Np.hi n rr = b → Np.lo n rc = c → Np.hi n rc = d →
  Np.lo l pr = a' → Np.hi l pr = b' → Np.lo l pc = c' → Np.hi l pc = d' →
  b' - a' = b - a → d' - c' = d - c →
  ∃ m', Np.upd2 f rr rc m (Np.get2 pr pc blk) = Some m'
        ∧ Np.shaped n n m'
        ∧ ∀ i j, at2 m' i j
            = if decide (a ≤ i < b ∧ c ≤ j < d)
              then v ← at2 m i j;
                   s ← at2 blk (a' + (i - a)) (c' + (j - c));
                   Some (f v s)
              else at2 m i j.
Proof.
  intros [Lm Rm] [Lb Rb] Ha Hb Hc Hd Ha' Hb' Hc' Hd' Hr Hcw.
  destruct (piece_fit f rr rc pr pc m blk n l Lm Rm Lb Rb)
    as (m' & Hupd & Lm' & Rm').
  { unfold Np.width. lia. }
  { unfold Np.width. lia. }
  exists m'. split; [done|]. split; [done|]. intros i j.
  destruct (get2_shape_width pr pc blk l Rb) as [Lg Rg].
  rewrite (at2_upd2 f rr rc m (Np.get2 pr pc blk) m' n i j Rm); try done.
  - rewrite Lm, Ha, Hb, Hc, Hd.
    destruct (decide (a ≤ i < b ∧ c ≤ j < d)) as [Hin|Hout]; [|done].
    rewrite (at2_get2 pr pc blk l) by done.
    rewrite Lb, Ha', Hc'. unfold Np.width. rewrite Hb', Hd', Ha', Hc'.
    rewrite decide_True by lia. done.
  - rewrite Lg, Lb, Lm. unfold Np.width. lia.
  - eapply Forall_impl; [exact Rg|]. intros row ->. unfold Np.width. lia.
Qed.

(** The row of the block that lands on row [p] of the array, in natural
    numbers. *)
Lemma wrap_index_nat (cfg : config) (n l x' p : nat) (x : Z) :
  N cfg = Z.of_nat n → L cfg = Z.of_nat l → x = Z.of_nat x' → x' ≤ n →
  wrap_index cfg x p
  = if decide (x' ≤ p)
    then if decide (p - x' < l) then Some (p - x') else None
    else if decide (n - x' + p < l) then Some (n - x' + p) else None.
Proof.
  intros HN HL -> Hxn. unfold wrap_index. rewrite HN, HL.
  destruct (Z.leb_spec (Z.of_nat x') (Z.of_nat p)).
  - rewrite decide_True by lia.
    destruct (Z.ltb_spec (Z.of_nat p - Z.of_nat x') (Z.of_nat l)).
    + rewrite decide_True by lia. f_equal. lia.
    + by rewrite decide_False by lia.
  - rewrite decide_False by lia.
    destruct (Z.ltb_spec (Z.of_nat p - Z.of_nat x' + Z.of_nat n) (Z.of_nat l)).
    + rewrite decide_True by lia. f_equal. lia.
    + by rewrite decide_False by lia.
Qed.

Ltac cells_step n l arith :=
  match goal with
  | |- context [Np.upd2 ?f ?rr ?rc ?m (Np.get2 ?pr ?pc ?blk)] =>
      match goal with
      | Ha : Np.lo n rr = ?a, Hb : Np.hi n rr = ?b,
        Hc : Np.lo n rc = ?c, Hd : Np.hi n rc = ?d,
        Ha' : Np.lo l pr = ?a', Hb' : Np.hi l pr = ?b',
        Hc' : Np.lo l pc = ?c', Hd' : Np.hi l pc = ?d',
        Hm : Np.shaped n n m, Hblk : Np.shaped l l blk |- _ =>
          let m' := fresh "e" in
          let Hs := fresh "Hshape" in
          let Hcell := fresh "Hcells" in
          destruct (piece_at f rr rc pr pc m blk n l a b c d a' b' c' d'
                      Hm Hblk Ha Hb Hc Hd Ha' Hb' Hc' Hd')
            as (m' & -> & Hs & Hcell);
          [arith|arith|];
          cbn [mbind option_bind]
      end
  end.

Section wrap_cells.
Context (cfg : config).

(** A block combined into the array with [f], whole or in pieces:
    cell by cell. *)
Lemma wrapped_update_cells {A : Type} (f : A → A → A)
    (est blk : matrix A) (x y : Z) :
  Np.has_shape (N cfg) (N cfg) est → Np.has_shape (L cfg) (L cfg) blk →
  (0 ≤ L cfg ≤ N cfg)%Z → (0 ≤ x < N cfg)%Z → (0 ≤ y < N cfg)%Z →
  let n := N cfg in
  let l := L cfg in
  let piece := Np.upd2 f in
  ∃ e,
    (if negb (crosses cfg x) && negb (crosses cfg y) then
       piece (Np.rng x (x + l)) (Np.rng y (y + l)) est blk
     else if crosses cfg x && negb (crosses cfg y) then
       e ← piece (Np.rng x n) (Np.rng y (y + l)) est
              (Np.get2 (Np.rng 0 (n - x)) Np.all blk);
       piece (Np.rng 0 (l + x - n)) (Np.rng y (y + l)) e
         (Np.get2 (Np.from (n - x)) Np.all blk)
     else if negb (crosses cfg x) && crosses cfg y then
       e ← piece (Np.rng x (x + l)) (Np.rng y n) est
              (Np.get2 Np.all (Np.rng 0 (n - y)) blk);
       piece (Np.rng x (x + l)) (Np.rng 0 (l + y - n)) e
         (Np.get2 Np.all (Np.from (n - y)) blk)
     else
       e ← piece (Np.rng x n) (Np.rng y n) est
              (Np.get2 (Np.rng 0 (n - x)) (Np.rng 0 (n - y)) blk);
       e ← piece (Np.rng 0 (l + x - n)) (Np.rng 0 (l + y - n)) e
              (Np.get2 (Np.rng (n - x) n) (Np.from (n - y)) blk);
       e ← piece (Np.rng x n) (Np.rng 0 (l + y - n)) e
              (Np.get2 (Np.rng 0 (n - x)) (Np.from (n - y)) blk);
       piece (Np.rng 0 (l + x - n)) (Np.rng y n) e
         (Np.get2 (Np.from (n - x)) (Np.rng 0 (n - y)) blk)) = Some e
    ∧ Np.has_shape (N cfg) (N cfg) e
    ∧ ∀ p q : nat, (Z.of_nat p < N cfg)%Z → (Z.of_nat q < N cfg)%Z →
        at2 e p q
        = match wrap_index cfg x p, wrap_index cfg y q with
          | Some i, Some j =>
              v ← at2 est p q; s ← at2 blk i j; Some (f v s)
          | _, _ => at2 est p q
          end.
Proof.
  intros He Hi HL Hx Hy.
  apply shaped_has_shape in He; [|lia..].
  apply shaped_has_shape in Hi; [|lia..].
  set (n := Z.to_nat (N cfg)) in *. set (l := Z.to_nat (L cfg)) in *.
  assert (N cfg = Z.of_nat n) as HN by lia.
  assert (L cfg = Z.of_nat l) as HLl by lia.
  set (x' := Z.to_nat x). set (y' := Z.to_nat y).
  assert (x = Z.of_nat x') as Hx' by lia.
  assert (y = Z.of_nat y') as Hy' by lia.
  assert (x' < n) as Hxn by lia.
  assert (y' < n) as Hyn by lia.
  assert (l ≤ n) as Hln by lia.
  destruct (wrap_bounds n l x (N cfg) (L cfg) HN HLl HL Hx) as [Hxi Hxo].
  destruct (wrap_bounds n l y (N cfg) (L cfg) HN HLl HL Hy) as [Hyi Hyo].
  fold x' in Hxi, Hxo. fold y' in Hyi, Hyo.
  assert (∀ p, wrap_index cfg x p = _) as Wx
    by (intros p; exact (wrap_index_nat cfg n l x' p x HN HLl Hx' ltac:(lia))).
  assert (∀ q, wrap_index cfg y q = _) as Wy
    by (intros q; exact (wrap_index_nat cfg n l y' q y HN HLl Hy' ltac:(lia))).
  assert (∀ p : nat, (Z.of_nat p < N cfg)%Z → p < n) as Hinside
    by (intros; lia).
  assert (∀ e : matrix A, Np.shaped n n e → Np.has_shape (N cfg) (N cfg) e)
    as Hback.
  { intros e [??]. apply has_shape_of_nat; [lia|lia|done|done]. }
  cbn zeta. unfold crosses.
  destruct (Z.gtb_spec x (N cfg - L cfg)) as [Cx|Cx],
           (Z.gtb_spec y (N cfg - L cfg)) as [Cy|Cy];
    cbn [negb andb]; case_widths.
  all: [> assert (n - l < x' ∧ n - l < y') as Hcase by lia
        | assert (n - l < x' ∧ y' ≤ n - l) as Hcase by lia
        | assert (x' ≤ n - l ∧ n - l < y') as Hcase by lia
        | assert (x' ≤ n - l ∧ y' ≤ n - l) as Hcase by lia ].
  all: clear HN HLl Hx' Hy';
    repeat match goal with
           | H : (_ ≤ _)%Z |- _ => clear H
           | H : (_ < _)%Z |- _ => clear H
           end;
    clearbody x' y' n l.
  all: [> | | |
    match goal with
    | |- context [Np.upd2 ?g ?rr ?rc ?m ?b] =>
        replace (Np.upd2 g rr rc m b)
          with (Np.upd2 g rr rc m (Np.get2 Np.all Np.all b))
          by (by rewrite get2_all)
    end].
  all: repeat cells_step n l ltac:(clear -Hxn Hyn Hln Hcase; lia).
  all: eexists; split; [done|]; split; [by apply Hback|].
  all: intros p q Hp%Hinside Hq%Hinside; rewrite Wx, Wy.
  all: clear Wx Wy Hinside Hback.
  all: rewrite ?Hcells2, ?Hcells1, ?Hcells0, ?Hcells.
  all: rewrite ?Nat.add_0_l, ?Nat.sub_0_r.
  all: clear -Hxn Hyn Hln Hcase Hp Hq.
  all: repeat case_decide; try done; try lia.
Qed.
End wrap_cells.

(** ** The window, cell by cell *)

Lemma wrap_index_mod (cfg : config) (x : Z) (p : nat) :
  (0 ≤ x < N cfg)%Z → (Z.of_nat p < N cfg)%Z →
  wrap_index cfg x p
  = if decide (((Z.of_nat p - x) `mod` N cfg < L cfg)%Z)
    then Some (Z.to_nat ((Z.of_nat p - x) `mod` N cfg)) else None.
Proof.
  intros Hx Hp. unfold wrap_index.
  destruct (Z.leb_spec x (Z.of_nat p)).
  - rewrite (Z.mod_small (Z.of_nat p - x)) by lia.
    destruct (Z.ltb_spec (Z.of_nat p - x) (L cfg));
      [by rewrite decide_True by lia|by rewrite decide_False by lia].
  - assert ((Z.of_nat p - x) `mod` N cfg = Z.of_nat p - x + N cfg)%Z as ->.
    { symmetry. apply (Z.mod_unique _ _ (-1)); lia. }
    destruct (Z.ltb_spec (Z.of_nat p - x + N cfg) (L cfg));
      [by rewrite decide_True by lia|by rewrite decide_False by lia].
Qed.

Lemma at2_inside {A : Type} (r c : Z) (m : matrix A) (i j : nat) :
  Np.has_shape r c m → (Z.of_nat i < r)%Z → (Z.of_nat j < c)%Z →
  is_Some (at2 m i j).
Proof.
  intros Hm Hi Hj. apply has_shape_nat in Hm.
  apply (at2_shaped (Z.to_nat r) (Z.to_nat c)); [done|lia|lia].
Qed.

(** The cells of [window]: the array read cyclically from [(x, y)]. *)
Lemma at2_window {A : Type} (cfg : config) (m : matrix A) (x y : Z)
    (i j : nat) :
  Np.has_shape (N cfg) (N cfg) m → (0 ≤ L cfg ≤ N cfg)%Z →
  (0 ≤ x < N cfg)%Z → (0 ≤ y < N cfg)%Z →
  (Z.of_nat i < L cfg)%Z → (Z.of_nat j < L cfg)%Z →
  at2 (window cfg m x y) i j
  = at2 m (Z.to_nat ((x + Z.of_nat i) `mod` N cfg))
      (Z.to_nat ((y + Z.of_nat j) `mod` N cfg)).
Proof.
  intros Hm HL Hx Hy Hi Hj.
  apply shaped_has_shape in Hm; [|lia..].
  destruct (repmat22_shaped _ _ m Hm) as [Lr Rr].
  unfold window, footprint. cbn [fst snd].
  rewrite (at2_get2 _ _ _ (2 * Z.to_nat (N cfg))) by done.
  rewrite Lr.
  assert (∀ v, (0 ≤ v < N cfg)%Z →
            Np.lo (2 * Z.to_nat (N cfg)) (Np.rng v (v + L cfg)) = Z.to_nat v
            ∧ Np.width (2 * Z.to_nat (N cfg)) (Np.rng v (v + L cfg))
              = Z.to_nat (L cfg)) as Hb.
  { intros v Hv. unfold Np.width, Np.hi, Np.lo, Np.rng. simpl.
    rewrite !py_bound_nonneg by lia. lia. }
  destruct (Hb x Hx) as [-> ->]. destruct (Hb y Hy) as [-> ->].
  rewrite decide_True by lia.
  rewrite (at2_repmat22 (Z.to_nat (N cfg))) by (done || lia).
  assert (∀ (v : Z) (k : nat), (0 ≤ v < N cfg)%Z → (Z.of_nat k < L cfg)%Z →
            (if decide (Z.to_nat v + k < Z.to_nat (N cfg))
             then Z.to_nat v + k else Z.to_nat v + k - Z.to_nat (N cfg))
            = Z.to_nat ((v + Z.of_nat k) `mod` N cfg)) as Hw.
  { intros v k Hv Hk. case_decide.
    - rewrite Z.mod_small by lia. lia.
    - rewrite <- (Z.mod_unique (v + Z.of_nat k) (N cfg) 1
                    (v + Z.of_nat k - N cfg)) by lia. lia. }
  by rewrite (Hw x i Hx Hi), (Hw y j Hy Hj).
Qed.

(** X1. Writing an L x L block back at [(x, y)], whole or in two or four
    pieces, succeeds and keeps the N x N shape; cell [(p, q)] of the result
    holds the cell [((p - x) mod N, (q - y) mod N)] of the block when both
    offsets are below L, and its old value otherwise. *)
Theorem write_back_cells {A : Type} (cfg : config) (est blk : matrix A)
    (x y : Z) :
  Np.has_shape (N cfg) (N cfg) est → Np.has_shape (L cfg) (L cfg) blk →
  (0 ≤ L cfg ≤ N cfg)%Z → (0 ≤ x < N cfg)%Z → (0 ≤ y < N cfg)%Z →
  ∃ e, write_back cfg est x y blk = Some e
       ∧ Np.has_shape (N cfg) (N cfg) e
       ∧ ∀ p q : nat, (Z.of_nat p < N cfg)%Z → (Z.of_nat q < N cfg)%Z →
           at2 e p q
           = if decide (((Z.of_nat p - x) `mod` N cfg < L cfg)%Z
                        ∧ ((Z.of_nat q - y) `mod` N cfg < L cfg)%Z)
             then at2 blk (Z.to_nat ((Z.of_nat p - x) `mod` N cfg))
                    (Z.to_nat ((Z.of_nat q - y) `mod` N cfg))
             else at2 est p q.
Proof.
  intros He Hb HL Hx Hy.
  destruct (wrapped_update_cells cfg (λ _ s : A, s) est blk x y He Hb HL Hx Hy)
    as (e & Hw & Hs & Hcells).
  exists e. split; [exact Hw|]. split; [exact Hs|].
  intros p q Hp Hq. rewrite (Hcells p q Hp Hq).
  rewrite (wrap_index_mod cfg x p Hx Hp), (wrap_index_mod cfg y q Hy Hq).
  destruct (at2_inside _ _ est p q He Hp Hq) as [v Hv].
  destruct (decide ((Z.of_nat p - x) `mod` N cfg < L cfg)%Z) as [H1|H1],
           (decide ((Z.of_nat q - y) `mod` N cfg < L cfg)%Z) as [H2|H2].
  - rewrite decide_True by done. rewrite Hv. simpl.
    by destruct (at2 blk _ _).
  - by rewrite decide_False by tauto.
  - by rewrite decide_False by tauto.
  - by rewrite decide_False by tauto.
Qed.

Lemma write_back_cells_witness :
  ∃ e, write_back cfg_wrap sample_grid 2 3 sample_block = Some e
       ∧ Np.has_shape 4 4 e
       ∧ ∀ p q : nat, (Z.of_nat p < 4)%Z → (Z.of_nat q < 4)%Z →
           at2 e p q
           = if decide (((Z.of_nat p - 2) `mod` 4 < 3)%Z
                        ∧ ((Z.of_nat q - 3) `mod` 4 < 3)%Z)
             then at2 sample_block (Z.to_nat ((Z.of_nat p - 2) `mod` 4))
                    (Z.to_nat ((Z.of_nat q - 3) `mod` 4))
             else at2 sample_grid p q.
Proof.
  apply (write_back_cells cfg_wrap sample_grid sample_block 2 3).
  - split; [reflexivity|]. repeat constructor.
  - split; [reflexivity|]. repeat constructor.
  - simpl. lia.
  - simpl. lia.
  - simpl. lia.
Defined.

(** X2. Adding an L x L gradient block at [(x, y)], whole or in two or
    four pieces, succeeds and keeps the N x N shape; cell [(p, q)] of the
    sum gains the cell [((p - x) mod N, (q - y) mod N)] of the block when
    both offsets are below L, and is unchanged otherwise. *)
Theorem scatter_add_cells (cfg : config) (gradient_sum g : matrix C)
    (x y : Z) :
  Np.has_shape (N cfg) (N cfg) gradient_sum →
  Np.has_shape (L cfg) (L cfg) g →
  (0 ≤ L cfg ≤ N cfg)%Z → (0 ≤ x < N cfg)%Z → (0 ≤ y < N cfg)%Z →
  ∃ s, scatter_add cfg gradient_sum x y g = Some s
       ∧ Np.has_shape (N cfg) (N cfg) s
       ∧ ∀ p q : nat, (Z.of_nat p < N cfg)%Z → (Z.of_nat q < N cfg)%Z →
           at2 s p q
           = if decide (((Z.of_nat p - x) `mod` N cfg < L cfg)%Z
                        ∧ ((Z.of_nat q - y) `mod` N cfg < L cfg)%Z)
             then v ← at2 gradient_sum p q;
                  d ← at2 g (Z.to_nat ((Z.of_nat p - x) `mod` N cfg))
                        (Z.to_nat ((Z.of_nat q - y) `mod` N cfg));
                  Some (Cadd v d)
             else at2 gradient_sum p q.
Proof.
  intros He Hb HL Hx Hy.
  destruct (wrapped_update_cells cfg Cadd gradient_sum g x y He Hb HL Hx Hy)
    as (s & Hw & Hs & Hcells).
  exists s. split; [exact Hw|]. split; [exact Hs|].
  intros p q Hp Hq. rewrite (Hcells p q Hp Hq).
  rewrite (wrap_index_mod cfg x p Hx Hp), (wrap_index_mod cfg y q Hy Hq).
  destruct (decide ((Z.of_nat p - x) `mod` N cfg < L cfg)%Z) as [H1|H1],
           (decide ((Z.of_nat q - y) `mod` N cfg < L cfg)%Z) as [H2|H2].
  - by rewrite decide_True by done.
  - by rewrite decide_False by tauto.
  - by rewrite decide_False by tauto.
  - by rewrite decide_False by tauto.
Qed.

Lemma scatter_add_cells_witness :
  ∃ s, scatter_add cfg_wrap (Np.full 4 4 C0) 2 3 (Np.full 3 3 (1, 0)%R)
       = Some s
       ∧ Np.has_shape 4 4 s
       ∧ ∀ p q : nat, (Z.of_nat p < 4)%Z → (Z.of_nat q < 4)%Z →
           at2 s p q
           = if decide (((Z.of_nat p - 2) `mod` 4 < 3)%Z
                        ∧ ((Z.of_nat q - 3) `mod` 4 < 3)%Z)
             then v ← at2 (Np.full 4 4 C0) p q;
                  d ← at2 (Np.full 3 3 (1, 0)%R)
                        (Z.to_nat ((Z.of_nat p - 2) `mod` 4))
                        (Z.to_nat ((Z.of_nat q - 3) `mod` 4));
                  Some (Cadd v d)
             else at2 (Np.full 4 4 C0) p q.
Proof.
  apply (scatter_add_cells cfg_wrap (Np.full 4 4 C0) (Np.full 3 3 (1, 0)%R)
           2 3).
  - split; [reflexivity|]. repeat constructor.
  - split; [reflexivity|]. repeat constructor.
  - simpl. lia.
  - simpl. lia.
  - simpl. lia.
Defined.

(** ** Reading after writing *)

(** Row [i] of the block lands on row [(x + i) mod N] of the array. *)
Lemma wrap_index_hit (cfg : config) (x : Z) (i : nat) :
  (0 ≤ L cfg ≤ N cfg)%Z → (0 ≤ x < N cfg)%Z → (Z.of_nat i < L cfg)%Z →
  wrap_index cfg x (Z.to_nat ((x + Z.of_nat i) `mod` N cfg)) = Some i.
Proof.
  intros HL Hx Hi. unfold wrap_index.
  destruct (Z_lt_le_dec (x + Z.of_nat i) (N cfg)) as [Hlt|Hge].
  - rewrite Z.mod_small by lia. rewrite Z2Nat.id by lia.
    destruct (Z.leb_spec x (x + Z.of_nat i)); [|lia].
    destruct (Z.ltb_spec (x + Z.of_nat i - x) (L cfg)); [|lia].
    f_equal. lia.
  - rewrite <- (Z.mod_unique (x + Z.of_nat i) (N cfg) 1
                  (x + Z.of_nat i - N cfg)) by lia.
    rewrite Z2Nat.id by lia.
    destruct (Z.leb_spec x (x + Z.of_nat i - N cfg)); [lia|].
    destruct (Z.ltb_spec (x + Z.of_nat i - N cfg - x + N cfg) (L cfg)); [|lia].
    f_equal. lia.
Qed.

Lemma mod_inside (a n : Z) :
  (0 < n)%Z → (Z.of_nat (Z.to_nat (a `mod` n)) < n)%Z.
Proof. intros Hn. pose proof (Z.mod_pos_bound a n Hn). lia. Qed.

(** X3. Reading the window at [(x, y)] after writing an L x L block there
    returns the block: the pieces of the write land where the replicated
    array is read. *)
Theorem window_after_write_back {A : Type} (cfg : config)
    (est blk e : matrix A) (x y : Z) :
  Np.has_shape (N cfg) (N cfg) est → Np.has_shape (L cfg) (L cfg) blk →
  (0 ≤ L cfg ≤ N cfg)%Z → (0 ≤ x < N cfg)%Z → (0 ≤ y < N cfg)%Z →
  write_back cfg est x y blk = Some e →
  window cfg e x y = blk.
Proof.
  intros He Hb HL Hx Hy Hwb.
  destruct (wrapped_update_cells cfg (λ _ s : A, s) est blk x y He Hb HL Hx Hy)
    as (e' & Hw & Hs & Hcells).
  pose proof (Hw : write_back cfg est x y blk = Some e') as Hw'.
  assert (e' = e) as -> by congruence.
  apply (at2_ext (Z.to_nat (L cfg)) (Z.to_nat (L cfg))).
  - apply shaped_has_shape; [lia..|]. apply window_shaped; lia || done.
  - apply shaped_has_shape; [lia..|done].
  - intros i j Hi Hj.
    rewrite (at2_window cfg e x y i j Hs HL Hx Hy) by lia.
    assert (0 < N cfg)%Z as HN by lia.
    rewrite Hcells by (by apply mod_inside).
    rewrite !wrap_index_hit by lia.
    destruct (at2_inside _ _ est
                (Z.to_nat ((x + Z.of_nat i) `mod` N cfg))
                (Z.to_nat ((y + Z.of_nat j) `mod` N cfg)) He) as [v ->];
      [by apply mod_inside..|].
    simpl. by destruct (at2 blk i j).
Qed.

Lemma window_after_write_back_witness :
  write_back cfg_wrap sample_grid 2 3 sample_block
  = Some [[28; 29; 3; 27]; [5; 6; 7; 8]; [22; 23; 11; 21];
          [25; 26; 15; 24]]%Z
  ∧ window cfg_wrap [[28; 29; 3; 27]; [5; 6; 7; 8]; [22; 23; 11; 21];
                     [25; 26; 15; 24]]%Z 2 3 = sample_block.
Proof.
  split; [reflexivity|].
  apply (window_after_write_back cfg_wrap sample_grid sample_block _ 2 3).
  - split; [reflexivity|]. repeat constructor.
  - split; [reflexivity|]. repeat constructor.
  - simpl. lia.
  - simpl. lia.
  - simpl. lia.
  - reflexivity.
Defined.

(** The direct read of a window that crosses no border is the read from
    the replication. *)
Lemma read_window_window {A : Type} (cfg : config) (est : matrix A)
    (x y : Z) :
  Np.has_shape (N cfg) (N cfg) est → (0 ≤ L cfg ≤ N cfg)%Z →
  (0 ≤ x < N cfg)%Z → (0 ≤ y < N cfg)%Z →
  read_window cfg est x y = window cfg est x y.
Proof.
  intros He HL Hx Hy. unfold read_window, crosses.
  destruct (Z.gtb_spec x (N cfg - L cfg)) as [Cx|Cx],
           (Z.gtb_spec y (N cfg - L cfg)) as [Cy|Cy]; try done.
  cbn [negb andb].
  destruct (has_shape_nat _ _ _ He) as [Le Re].
  apply (at2_ext (Z.to_nat (L cfg)) (Z.to_nat (L cfg))).
  - unfold footprint. simpl.
    destruct (get2_shape x (x + L cfg) y (y + L cfg) est _ _ Le Re)
      as [? ?]; [lia..|].
    split; [lia|]. eapply Forall_impl; [eassumption|]. simpl. lia.
  - apply shaped_has_shape; [lia..|]. apply window_shaped; lia || done.
  - intros i j Hi Hj.
    rewrite (at2_window cfg est x y i j He HL Hx Hy) by lia.
    unfold footprint. cbn [fst snd].
    rewrite (at2_get2 _ _ _ (Z.to_nat (N cfg))) by done.
    rewrite Le.
    assert (∀ v, (0 ≤ v ≤ N cfg - L cfg)%Z →
              Np.lo (Z.to_nat (N cfg)) (Np.rng v (v + L cfg)) = Z.to_nat v
              ∧ Np.width (Z.to_nat (N cfg)) (Np.rng v (v + L cfg))
                = Z.to_nat (L cfg)) as Hb.
    { intros v Hv. unfold Np.width, Np.hi, Np.lo, Np.rng. simpl.
      rewrite !py_bound_nonneg by lia. lia. }
    destruct (Hb x ltac:(lia)) as [-> ->].
    destruct (Hb y ltac:(lia)) as [-> ->].
    rewrite decide_True by lia.
    rewrite !Z.mod_small by lia. f_equal; lia.
Qed.

(** X4. For a frame inside the array, the block a projection step reads
    from the array itself (when the window crosses no border) is the block
    it would read from the 2 x 2 replication. *)
Theorem read_window_is_window {A : Type} (cfg : config) (est : matrix A)
    (x y : Z) :
  Np.has_shape (N cfg) (N cfg) est → (0 ≤ L cfg ≤ N cfg)%Z →
  (0 ≤ x < N cfg)%Z → (0 ≤ y < N cfg)%Z →
  read_window cfg est x y = window cfg est x y.
Proof. apply read_window_window. Qed.

Lemma read_window_is_window_witness :
  read_window cfg_wrap sample_grid 1 0 = window cfg_wrap sample_grid 1 0.
Proof.
  apply (read_window_is_window cfg_wrap sample_grid 1 0).
  - split; [reflexivity|]. repeat constructor.
  - simpl. lia.
  - simpl. lia.
  - simpl. lia.
Defined.

(** ** The batch of windows, and the cells a projection step leaves alone *)

(** The frames of the grid, from the three globals of the geometry. *)
Lemma frames_inside (cfg : config) (xs ys : list Z) (tf : Z) :
  (0 < pitch cfg)%Z → (0 ≤ N cfg)%Z →
  xlocations cfg = Some xs → ylocations cfg = Some ys →
  total_frame cfg = Some tf →
  (0 ≤ tf)%Z
  ∧ ∀ i, i < Z.to_nat tf →
      ∃ x y, xs !! i = Some x ∧ ys !! i = Some y
             ∧ (0 ≤ x < N cfg)%Z ∧ (0 ≤ y < N cfg)%Z.
Proof.
  intros Hp HN Hxs Hys Htf.
  destruct (locations_inside cfg Hp HN)
    as (tf' & xs' & ys' & Htf' & Hxs' & Hys' & Hpos & Hin).
  by simplify_eq.
Qed.

(** The batch of the gradient stage: window [i] of the estimate at
    position [i]. *)
Lemma extract_batch_windows (cfg : config) (est : matrix C)
    (xs ys : list Z) (tf : Z) :
  Np.has_shape (N cfg) (N cfg) est → (0 ≤ L cfg ≤ N cfg)%Z → (0 ≤ tf)%Z →
  (∀ i, i < Z.to_nat tf →
     ∃ x y, xs !! i = Some x ∧ ys !! i = Some y
            ∧ (0 ≤ x < N cfg)%Z ∧ (0 ≤ y < N cfg)%Z) →
  ∃ b, extract_batch cfg est xs ys tf = Some b
       ∧ length b = Z.to_nat tf
       ∧ ∀ i, i < Z.to_nat tf →
           ∃ x y, xs !! i = Some x ∧ ys !! i = Some y
                  ∧ b !! i = Some (window cfg est x y).
Proof.
  intros He HL Hpos Hwin.
  unfold extract_batch.
  destruct (zeros3_spec C0 tf (L cfg) (L cfg)) as (t0 & -> & Lt0 & _);
    [lia..|]. simpl.
  apply (foldlM_range (extract_frame cfg (Np.repmat22 est) xs ys)
           (λ k t, length t = Z.to_nat tf
                   ∧ ∀ i, i < k →
                       ∃ x y, xs !! i = Some x ∧ ys !! i = Some y
                              ∧ t !! i = Some (window cfg est x y))
           (Z.to_nat tf) t0).
  - split; [done|]. intros i Hi. lia.
  - intros k t Hk [Lt Ht]. unfold extract_frame.
    destruct (Hwin k Hk) as (x & y & Hx & Hy & Hxb & Hyb).
    rewrite Hx, Hy. simpl. unfold set_frame.
    change (Np.get2 (footprint cfg x y).1 (footprint cfg x y).2
              (Np.repmat22 est)) with (window cfg est x y).
    assert (Np.has_shape (L cfg) (L cfg) (window cfg est x y)) as Hw
      by (apply window_shaped; lia || done).
    destruct (has_shape_nat _ _ _ Hw) as [Lw Rw].
    rewrite broadcast_to_fit by done. simpl.
    eexists. split; [done|]. split; [by rewrite length_insert|].
    intros i Hi. destruct (decide (i = k)) as [->|Hne].
    + exists x, y. split_and!; [done..|].
      apply list_lookup_insert_eq. lia.
    + destruct (Ht i ltac:(lia)) as (x' & y' & ? & ? & ?).
      exists x', y'. split_and!; [done..|].
      by rewrite list_lookup_insert_ne by done.
Qed.

(** X5. The batch fed to the gradient holds one L x L block per frame of
    the grid; cell [(a, c)] of block [i] is the cell
    [((x_i + a) mod N, (y_i + c) mod N)] of the estimate. *)
Theorem extract_batch_cells (cfg : config) (est : matrix C)
    (xs ys : list Z) (tf : Z) :
  Np.has_shape (N cfg) (N cfg) est →
  (0 ≤ L cfg ≤ N cfg)%Z → (0 < pitch cfg)%Z →
  xlocations cfg = Some xs → ylocations cfg = Some ys →
  total_frame cfg = Some tf →
  ∃ b, extract_batch cfg est xs ys tf = Some b
       ∧ length b = Z.to_nat tf
       ∧ ∀ i, i < Z.to_nat tf →
           ∃ x y frame,
             xs !! i = Some x ∧ ys !! i = Some y ∧ b !! i = Some frame
             ∧ Np.has_shape (L cfg) (L cfg) frame
             ∧ ∀ a c : nat, (Z.of_nat a < L cfg)%Z → (Z.of_nat c < L cfg)%Z →
                 at2 frame a c
                 = at2 est (Z.to_nat ((x + Z.of_nat a) `mod` N cfg))
                     (Z.to_nat ((y + Z.of_nat c) `mod` N cfg)).
Proof.
  intros He HL Hp Hxs Hys Htf.
  destruct (frames_inside cfg xs ys tf Hp ltac:(lia) Hxs Hys Htf)
    as [Hpos Hwin].
  destruct (extract_batch_windows cfg est xs ys tf He HL Hpos Hwin)
    as (b & Hb & Lb & Hcells).
  exists b. split; [done|]. split; [done|]. intros i Hi.
  destruct (Hcells i Hi) as (x & y & Hx & Hy & Hf).
  destruct (Hwin i Hi) as (x' & y' & Hx' & Hy' & Hxb & Hyb).
  simplify_eq.
  exists x, y, (window cfg est x y). split_and!; [done..| |].
  - apply window_shaped; lia || done.
  - intros a c Ha Hc. by apply at2_window.
Qed.

Lemma extract_batch_cells_witness :
  ∃ b, extract_batch cfg_wrap (Np.full 4 4 C0) [0; 2; 0; 2]%Z [0; 0; 2; 2]%Z 4
       = Some b
       ∧ length b = Z.to_nat 4
       ∧ ∀ i, i < Z.to_nat 4 →
           ∃ x y frame,
             [0; 2; 0; 2]%Z !! i = Some x ∧ [0; 0; 2; 2]%Z !! i = Some y
             ∧ b !! i = Some frame
             ∧ Np.has_shape 3 3 frame
             ∧ ∀ a c : nat, (Z.of_nat a < 3)%Z → (Z.of_nat c < 3)%Z →
                 at2 frame a c
                 = at2 (Np.full 4 4 C0) (Z.to_nat ((x + Z.of_nat a) `mod` 4))
                     (Z.to_nat ((y + Z.of_nat c) `mod` 4)).
Proof.
  apply (extract_batch_cells cfg_wrap (Np.full 4 4 C0)
           [0; 2; 0; 2]%Z [0; 0; 2; 2]%Z 4).
  - split; [reflexivity|]. repeat constructor.
  - simpl. lia.
  - simpl. lia.
  - reflexivity.
  - reflexivity.
  - reflexivity.
Defined.

(** X6. A projection step for a frame of the grid succeeds, and changes
    no cell of the estimate outside the window of its frame: cell
    [(p, q)] is kept unless both [(p - x) mod N] and [(q - y) mod N] are
    below L. *)
Theorem projection_step_outside (cfg : config) (imSeqLowRes : list (matrix R))
    (xs ys : list Z) (tf : Z) (loop i : nat) (x y : Z)
    (est : matrix C) (tr : list event) :
  (0 ≤ pad_size cfg)%Z → (0 < L cfg ≤ N cfg)%Z → (0 < pitch cfg)%Z →
  (is_mask cfg = true → Np.has_shape (L cfg) (L cfg) (mask cfg)) →
  xlocations cfg = Some xs → ylocations cfg = Some ys →
  total_frame cfg = Some tf →
  length imSeqLowRes = Z.to_nat tf →
  Forall (Np.shaped (Z.to_nat (M cfg)) (Z.to_nat (M cfg))) imSeqLowRes →
  Np.has_shape (N cfg) (N cfg) est →
  xs !! i = Some x → ys !! i = Some y → i < Z.to_nat tf →
  ∃ e, projection_step cfg imSeqLowRes xs ys loop (est, tr) i
       = Some (e, tr ++ [Projected loop i])
       ∧ ∀ p q : nat, (Z.of_nat p < N cfg)%Z → (Z.of_nat q < N cfg)%Z →
           ¬ (((Z.of_nat p - x) `mod` N cfg < L cfg)%Z
              ∧ ((Z.of_nat q - y) `mod` N cfg < L cfg)%Z) →
           at2 e p q = at2 est p q.
Proof.
  intros Hpad HL Hp Hmask Hxs Hys Htf Hlen Hmeas Hest Hx Hy Hi.
  destruct (frames_inside cfg xs ys tf Hp ltac:(lia) Hxs Hys Htf)
    as [Hpos Hwin].
  destruct (Hwin i Hi) as (x' & y' & Hx' & Hy' & Hxb & Hyb). simplify_eq.
  unfold projection_step. rewrite Hx, Hy. simpl.
  destruct (lookup_lt_is_Some_2 imSeqLowRes i ltac:(lia)) as [frame Hframe].
  rewrite Hframe. simpl.
  pose proof (Forall_lookup_1 _ _ _ _ Hmeas Hframe) as Hfs.
  destruct (gs_correct_shaped cfg Hpad ltac:(lia) Hmask frame
              (read_window cfg est x y) Hfs) as (inverse & -> & Hinv).
  { apply read_window_shaped; lia || done. }
  simpl.
  destruct (wrapped_update_cells cfg (λ _ s : C, s) est inverse x y
              Hest Hinv ltac:(lia) Hxb Hyb) as (e & Hw & Hs & Hcells).
  pose proof (Hw : write_back cfg est x y inverse = Some e) as Hw'.
  rewrite Hw'. simpl. exists e. split; [done|].
  intros p q Hpn Hqn Hout. rewrite (Hcells p q Hpn Hqn).
  rewrite (wrap_index_mod cfg x p Hxb Hpn), (wrap_index_mod cfg y q Hyb Hqn).
  repeat case_decide; try done. tauto.
Qed.

Lemma projection_step_outside_witness :
  ∃ e, projection_step cfg_masked (replicate 4 (Np.full 4 4 1%R))
         [0; 2; 0; 2]%Z [0; 0; 2; 2]%Z 0 (Np.full 4 4 C0, []) 3
       = Some (e, [] ++ [Projected 0 3])
       ∧ ∀ p q : nat, (Z.of_nat p < 4)%Z → (Z.of_nat q < 4)%Z →
           ¬ (((Z.of_nat p - 2) `mod` 4 < 2)%Z
              ∧ ((Z.of_nat q - 2) `mod` 4 < 2)%Z) →
           at2 e p q = at2 (Np.full 4 4 C0) p q.
Proof.
  apply (projection_step_outside cfg_masked (replicate 4 (Np.full 4 4 1%R))
           [0; 2; 0; 2]%Z [0; 0; 2; 2]%Z 4 0 3 2 2 (Np.full 4 4 C0) []).
  - simpl. lia.
  - simpl. lia.
  - simpl. lia.
  - intros _. split; [reflexivity|]. repeat constructor.
  - reflexivity.
  - reflexivity.
  - reflexivity.
  - reflexivity.
  - repeat constructor.
  - split; [reflexivity|]. repeat constructor.
  - reflexivity.
  - reflexivity.
  - simpl. lia.
Defined.

(** ** Padding and cropping, shifting there and back *)

Lemma get1_pad_axis {A : Type} (b a : Z) (zero : A) (l : list A) :
  (0 ≤ b)%Z →
  Np.get1 (Np.rng b (b + Z.of_nat (length l))) (pad_axis b a zero l) = l.
Proof.
  intros Hb. unfold Np.get1, Np.width, Np.hi, Np.lo, Np.rng, pad_axis.
  cbn [fst snd].
  rewrite !py_bound_nonneg by lia.
  rewrite !length_app, !length_replicate.
  replace (Z.to_nat (Z.min b _)) with (Z.to_nat b) by lia.
  replace (Z.to_nat (Z.min (b + Z.of_nat (length l)) _) - Z.to_nat b)
    with (length l) by lia.
  rewrite drop_app_length' by (by rewrite length_replicate).
  by rewrite take_app_length.
Qed.

(** The crop [P[p:p+L, p:p+L]] of a block padded by [p] on every side. *)
Lemma crop_pad_rows_cols (p : Z) (r c : nat) (W : matrix C) :
  (0 ≤ p)%Z → Np.shaped r c W →
  Np.get2 (Np.rng p (p + Z.of_nat r)) (Np.rng p (p + Z.of_nat c))
    (pad_rows_cols p p p p W) = W.
Proof.
  intros Hp [Hlen Hrect]. unfold Np.get2, pad_rows_cols.
  replace r with (length (pad_axis p p C0 <$> W))
    by (by rewrite length_fmap).
  rewrite get1_pad_axis by done.
  rewrite <- list_fmap_compose.
  rewrite <- (list_fmap_id W) at 2.
  apply Forall_fmap_ext_1. eapply Forall_impl; [exact Hrect|].
  intros row <-. simpl. by apply get1_pad_axis.
Qed.

Lemma roll_left_back {A : Type} (k : nat) (l : list A) :
  k ≤ length l → roll_left (length l - k) (roll_left k l) = l.
Proof.
  intros Hk. unfold roll_left.
  rewrite drop_app_length' by (rewrite length_drop; lia).
  rewrite take_app_length' by (rewrite length_drop; lia).
  apply take_drop.
Qed.

Lemma fftshift1_ifftshift1 {A : Type} (l : list A) :
  fftshift1 (ifftshift1 l) = l.
Proof.
  unfold fftshift1, ifftshift1. rewrite roll_left_length.
  apply roll_left_back. apply Nat.Div0.div_le_upper_bound. lia.
Qed.

Lemma ifftshift1_fftshift1 {A : Type} (l : list A) :
  ifftshift1 (fftshift1 l) = l.
Proof.
  unfold fftshift1, ifftshift1. rewrite roll_left_length.
  assert (length l / 2 ≤ length l) as Hle
    by (apply Nat.Div0.div_le_upper_bound; lia).
  replace (length l / 2) with (length l - (length l - length l / 2)) at 1
    by lia.
  apply roll_left_back. lia.
Qed.

Lemma roll_left_fmap {A B : Type} (f : A → B) (k : nat) (l : list A) :
  roll_left k (f <$> l) = f <$> roll_left k l.
Proof. unfold roll_left. by rewrite fmap_app, fmap_drop, fmap_take. Qed.

Lemma ifftshift1_fmap {A B : Type} (f : A → B) (l : list A) :
  ifftshift1 (f <$> l) = f <$> ifftshift1 l.
Proof. unfold ifftshift1. by rewrite length_fmap, roll_left_fmap. Qed.

Lemma fftshift1_fmap {A B : Type} (f : A → B) (l : list A) :
  fftshift1 (f <$> l) = f <$> fftshift1 l.
Proof. unfold fftshift1. by rewrite length_fmap, roll_left_fmap. Qed.

Lemma fftshift_ifftshift (m : matrix C) : fftshift (ifftshift m) = m.
Proof.
  unfold fftshift, ifftshift.
  rewrite <- ifftshift1_fmap, <- list_fmap_compose.
  rewrite (list_fmap_ext _ (λ x, x) m)
    by (intros; simpl; apply fftshift1_ifftshift1).
  rewrite list_fmap_id. apply fftshift1_ifftshift1.
Qed.

Lemma ifftshift_fftshift (m : matrix C) : ifftshift (fftshift m) = m.
Proof.
  unfold fftshift, ifftshift.
  rewrite <- fftshift1_fmap, <- list_fmap_compose.
  rewrite (list_fmap_ext _ (λ x, x) m)
    by (intros; simpl; apply ifftshift1_fftshift1).
  rewrite list_fmap_id. apply ifftshift1_fftshift1.
Qed.

(** X7. The two shifts undo each other on every 2-D array, in both
    orders and for even and odd sizes alike. *)
Theorem shifts_undo_each_other (m : matrix C) :
  fftshift (ifftshift m) = m ∧ ifftshift (fftshift m) = m.
Proof. split; [apply fftshift_ifftshift|apply ifftshift_fftshift]. Qed.

(** ** Modulus and phase *)

Section polar_facts.
Local Open Scope R_scope.

Lemma sqrt_one_plus_sqr_pos (t : R) : 0 < sqrt (1 + t²).
Proof. apply sqrt_lt_R0. unfold Rsqr. nra. Qed.

Lemma Cabs_by_ratio (x y : R) :
  x ≠ 0 → Cabs (x, y) = Rabs x * sqrt (1 + (y / x)²).
Proof.
  intros Hx. unfold Cabs. simpl.
  apply sqrt_lem_1.
  - nra.
  - apply Rmult_le_pos; [apply Rabs_pos|apply sqrt_pos].
  - pose proof (sqrt_one_plus_sqr_pos (y / x)) as Hs.
    assert (sqrt (1 + (y / x)²) * sqrt (1 + (y / x)²) = 1 + (y / x)²) as Hsq
      by (apply sqrt_sqrt; unfold Rsqr; nra).
    assert (Rabs x * Rabs x = x * x) as Habs
      by (unfold Rabs; destruct (Rcase_abs x); ring).
    transitivity (Rabs x * Rabs x
                  * (sqrt (1 + (y / x)²) * sqrt (1 + (y / x)²))); [ring|].
    rewrite Hsq, Habs. unfold Rsqr. by field.
Qed.

(** A complex number is its modulus times the unit of its phase. *)
Lemma polar (z : C) : Cmul (RtoC (Cabs z)) (cis (angle z)) = z.
Proof.
  destruct z as [x y]. unfold Cmul, RtoC, cis, angle, atan2. cbn [fst snd].
  assert (∀ r c s, r * c = x → r * s = y →
            (r * c - 0 * s, r * s + 0 * c) = (x, y)) as Hgoal.
  { intros r c s <- <-. f_equal; ring. }
  pose proof (sqrt_one_plus_sqr_pos (y / x)) as Hs.
  destruct (Rlt_dec 0 x) as [Hpos|Hnpos].
  - apply Hgoal; rewrite Cabs_by_ratio by lra;
      rewrite ?cos_atan, ?sin_atan, Rabs_pos_eq by lra; field; lra.
  - destruct (Rlt_dec x 0) as [Hneg|Hnneg].
    + assert (Rabs x = - x) as Habs by (apply Rabs_left; lra).
      destruct (Rle_dec 0 y).
      * apply Hgoal; rewrite Cabs_by_ratio by lra;
          rewrite ?neg_cos, ?neg_sin, ?cos_atan, ?sin_atan, Habs; field; lra.
      * assert (∀ a, cos (a - PI) = - cos a) as Hc.
        { intros a. unfold Rminus. rewrite cos_plus, cos_neg, sin_neg.
          rewrite cos_PI, sin_PI. ring. }
        assert (∀ a, sin (a - PI) = - sin a) as Hsn.
        { intros a. unfold Rminus. rewrite sin_plus, cos_neg, sin_neg.
          rewrite cos_PI, sin_PI. ring. }
        apply Hgoal; rewrite Cabs_by_ratio by lra;
          rewrite ?Hc, ?Hsn, ?cos_atan, ?sin_atan, Habs; field; lra.
    + assert (x = 0) as -> by lra.
      assert (Cabs (0, y) = Rabs y) as ->.
      { unfold Cabs. simpl. replace (0 * 0 + y * y) with (y²)
          by (unfold Rsqr; ring). apply sqrt_Rsqr_abs. }
      destruct (Rlt_dec 0 y).
      * apply Hgoal; rewrite ?cos_PI2, ?sin_PI2, Rabs_pos_eq by lra; ring.
      * destruct (Rlt_dec y 0).
        -- assert (- PI / 2 = - (PI / 2)) as -> by field.
           apply Hgoal;
             rewrite ?cos_neg, ?sin_neg, ?cos_PI2, ?sin_PI2, Rabs_left by lra;
             ring.
        -- assert (y = 0) as -> by lra.
           apply Hgoal; rewrite Rabs_R0; ring.
Qed.

Lemma Cabs_zero (z : C) : Cabs z = 0 → z = C0.
Proof.
  destruct z as [x y]. unfold Cabs, C0. simpl. intros H.
  apply sqrt_eq_0 in H; [|nra].
  assert (x = 0) by nra. assert (y = 0) by nra. by subst.
Qed.

Lemma Cdiv_Cmul (z m : C) : m ≠ C0 → Cdiv (Cmul z m) m = z.
Proof.
  destruct z as [a b], m as [c d]. intros Hm.
  assert (c * c + d * d ≠ 0) as Hn.
  { intros H. apply Hm. unfold C0.
    assert (c = 0) by nra. assert (d = 0) by nra. by subst. }
  unfold Cdiv, Cdivr, Cmul, Cconj. cbn [fst snd].
  f_equal; field; done.
Qed.

Lemma zip_with_undo {A B : Type} (f g : A → B → A) (P : B → Prop)
    (a : list A) (b : list B) :
  (∀ x y, P y → g (f x y) y = x) →
  length a = length b → Forall P b →
  zip_with g (zip_with f a b) b = a.
Proof.
  intros Hgf. revert b.
  induction a as [|x a IH]; intros [|y b] Hlen HP; simpl in *; try done.
  inversion HP; subst. f_equal; [by apply Hgf|]. apply IH; [lia|done].
Qed.

Lemma zip_with2_undo {A B : Type} (f g : A → B → A) (P : B → Prop)
    (r c : nat) (W : matrix A) (K : matrix B) :
  (∀ x y, P y → g (f x y) y = x) →
  Np.shaped r c W → Np.shaped r c K → Forall (Forall P) K →
  zip_with (zip_with g) (zip_with (zip_with f) W K) K = W.
Proof.
  intros Hgf [LW RW] [LK RK] HK. subst r. revert K LK RK HK.
  induction W as [|row W IH]; intros [|rowK K] LK RK HK; simpl in *;
    try done.
  inversion RW; subst. inversion RK; subst. inversion HK; subst.
  f_equal.
  - apply (zip_with_undo f g P); [done|lia|done].
  - apply IH; [done|lia|done|done].
Qed.

End polar_facts.

(** ** The discrete Fourier transform and its inverse *)

Section fourier_facts.
Local Open Scope R_scope.

Lemma Cadd_comm (z w : C) : Cadd z w = Cadd w z.
Proof. unfold Cadd. f_equal; ring. Qed.

Lemma Cadd_assoc (u z w : C) : Cadd u (Cadd z w) = Cadd (Cadd u z) w.
Proof. unfold Cadd. simpl. f_equal; ring. Qed.

Lemma Cadd_0_l (z : C) : Cadd C0 z = z.
Proof. destruct z. unfold Cadd, C0. simpl. f_equal; ring. Qed.

Lemma Cadd_0_r (z : C) : Cadd z C0 = z.
Proof. destruct z. unfold Cadd, C0. simpl. f_equal; ring. Qed.

Lemma Cmul_comm (z w : C) : Cmul z w = Cmul w z.
Proof. unfold Cmul. f_equal; ring. Qed.

Lemma Cmul_assoc (u z w : C) : Cmul u (Cmul z w) = Cmul (Cmul u z) w.
Proof. unfold Cmul. simpl. f_equal; ring. Qed.

Lemma Cmul_0_l (z : C) : Cmul C0 z = C0.
Proof. unfold Cmul, C0. simpl. f_equal; ring. Qed.

Lemma Cmul_0_r (z : C) : Cmul z C0 = C0.
Proof. unfold Cmul, C0. simpl. f_equal; ring. Qed.

Lemma Cmul_1_r (z : C) : Cmul z (1, 0) = z.
Proof. destruct z. unfold Cmul. simpl. f_equal; ring. Qed.

Lemma Cmul_add_r (u z w : C) :
  Cmul u (Cadd z w) = Cadd (Cmul u z) (Cmul u w).
Proof. unfold Cmul, Cadd. simpl. f_equal; ring. Qed.

Lemma Cmul_add_l (u z w : C) :
  Cmul (Cadd z w) u = Cadd (Cmul z u) (Cmul w u).
Proof. unfold Cmul, Cadd. simpl. f_equal; ring. Qed.

Lemma Cdivr_add (z w : C) (a : R) :
  Cdivr (Cadd z w) a = Cadd (Cdivr z a) (Cdivr w a).
Proof. unfold Cdivr, Cadd, Rdiv. simpl. f_equal; ring. Qed.

Lemma Cdivr_mul_l (z w : C) (a : R) : Cmul (Cdivr z a) w = Cdivr (Cmul z w) a.
Proof. unfold Cdivr, Cmul, Rdiv. simpl. f_equal; ring. Qed.

Lemma Cdivr_0 (a : R) : Cdivr C0 a = C0.
Proof. unfold Cdivr, C0, Rdiv. simpl. f_equal; ring. Qed.

Lemma cis_add (s t : R) : cis (s + t) = Cmul (cis s) (cis t).
Proof.
  unfold cis, Cmul. simpl. rewrite cos_plus, sin_plus. f_equal; ring.
Qed.

Lemma cis_0 : cis 0 = (1, 0).
Proof. unfold cis. by rewrite cos_0, sin_0. Qed.

Lemma cis_neg (t : R) : cis (- t) = Cconj (cis t).
Proof. unfold cis, Cconj. simpl. by rewrite cos_neg, sin_neg. Qed.

Lemma cis_turns (k : nat) : cis (2 * PI * INR k) = (1, 0).
Proof.
  unfold cis.
  pose proof (cos_period 0 k) as Hc. pose proof (sin_period 0 k) as Hs.
  rewrite cos_0 in Hc. rewrite sin_0 in Hs.
  replace (0 + 2 * INR k * PI) with (2 * PI * INR k) in Hc, Hs by ring.
  by rewrite Hc, Hs.
Qed.

(** ** Finite sums *)

Lemma Csum_cons (z : C) (l : list C) : Csum (z :: l) = Cadd z (Csum l).
Proof. done. Qed.

Lemma Csum_fmap_ext {A : Type} (f g : A → C) (l : list A) :
  (∀ x, x ∈ l → f x = g x) → Csum (f <$> l) = Csum (g <$> l).
Proof.
  intros H. f_equal. apply list_fmap_ext. intros i x Hx.
  apply H. by eapply list_elem_of_lookup_2.
Qed.

Lemma Csum_fmap_add {A : Type} (f g : A → C) (l : list A) :
  Csum ((λ x, Cadd (f x) (g x)) <$> l)
  = Cadd (Csum (f <$> l)) (Csum (g <$> l)).
Proof.
  induction l as [|x l IH].
  - by rewrite Cadd_0_l.
  - rewrite !fmap_cons, !Csum_cons, IH. unfold Cadd. simpl. f_equal; ring.
Qed.

Lemma Csum_fmap_zero {A : Type} (l : list A) :
  Csum ((λ _, C0) <$> l) = C0.
Proof.
  induction l as [|x l IH]; [done|].
  by rewrite fmap_cons, Csum_cons, IH, Cadd_0_l.
Qed.

Lemma Csum_fmap_mul_r {A : Type} (f : A → C) (c : C) (l : list A) :
  Csum ((λ x, Cmul (f x) c) <$> l) = Cmul (Csum (f <$> l)) c.
Proof.
  induction l as [|x l IH].
  - by rewrite Cmul_0_l.
  - by rewrite !fmap_cons, !Csum_cons, IH, Cmul_add_l.
Qed.

Lemma Csum_fmap_mul_l {A : Type} (f : A → C) (c : C) (l : list A) :
  Csum ((λ x, Cmul c (f x)) <$> l) = Cmul c (Csum (f <$> l)).
Proof.
  induction l as [|x l IH].
  - by rewrite Cmul_0_r.
  - by rewrite !fmap_cons, !Csum_cons, IH, Cmul_add_r.
Qed.

Lemma Csum_fmap_divr {A : Type} (f : A → C) (a : R) (l : list A) :
  Csum ((λ x, Cdivr (f x) a) <$> l) = Cdivr (Csum (f <$> l)) a.
Proof.
  induction l as [|x l IH].
  - by rewrite Cdivr_0.
  - by rewrite !fmap_cons, !Csum_cons, IH, Cdivr_add.
Qed.

Lemma Csum_swap {A B : Type} (f : A → B → C) (l1 : list A) (l2 : list B) :
  Csum ((λ i, Csum ((λ j, f i j) <$> l2)) <$> l1)
  = Csum ((λ j, Csum ((λ i, f i j) <$> l1)) <$> l2).
Proof.
  induction l1 as [|x l1 IH].
  - by rewrite Csum_fmap_zero.
  - rewrite fmap_cons, Csum_cons, IH.
    rewrite <- Csum_fmap_add. apply Csum_fmap_ext. intros j _.
    by rewrite fmap_cons, Csum_cons.
Qed.

Lemma Csum_delta (f : nat → C) (k a n : nat) :
  (a ≤ k < a + n)%nat →
  Csum ((λ i, if decide (i = k) then f i else C0) <$> seq a n) = f k.
Proof.
  revert a. induction n as [|n IH]; intros a Hk; [lia|].
  rewrite <- cons_seq, fmap_cons, Csum_cons.
  destruct (decide (a = k)) as [->|Hne].
  - rewrite (Csum_fmap_ext _ (λ _, C0)).
    + by rewrite Csum_fmap_zero, Cadd_0_r.
    + intros i Hi. apply elem_of_seq in Hi. by rewrite decide_False by lia.
  - rewrite IH by lia. by rewrite Cadd_0_l.
Qed.

Lemma Csum_imap {A : Type} (g : nat → A → C) (d : A) (l : list A) :
  Csum (imap g l) = Csum ((λ p, g p (nth p l d)) <$> seq 0 (length l)).
Proof.
  revert g. induction l as [|x l IH]; intros g; [done|].
  cbn [imap length]. rewrite <- cons_seq, fmap_cons, !Csum_cons.
  rewrite IH. f_equal.
  rewrite <- fmap_S_seq, <- list_fmap_compose. done.
Qed.

(** ** Roots of unity *)

Lemma Csum_const_one {A : Type} (l : list A) :
  Csum ((λ _, (1, 0)) <$> l) = (INR (length l), 0).
Proof.
  induction l as [|x l IH]; [done|].
  rewrite fmap_cons, Csum_cons, IH. cbn [length]. rewrite S_INR.
  unfold Cadd. simpl. f_equal; ring.
Qed.

Lemma cis_whole_turns (d : Z) : cis (2 * PI * IZR d) = (1, 0).
Proof.
  destruct (Z_le_gt_dec 0 d) as [Hd|Hd].
  - rewrite <- (Z2Nat.id d) by done. rewrite <- INR_IZR_INZ.
    apply cis_turns.
  - replace (2 * PI * IZR d) with (- (2 * PI * IZR (- d)))
      by (rewrite opp_IZR; ring).
    rewrite cis_neg. rewrite <- (Z2Nat.id (- d)) by lia.
    rewrite <- INR_IZR_INZ, cis_turns. unfold Cconj. simpl. f_equal. ring.
Qed.

Lemma cis_not_one (t : R) : 0 < t < 2 * PI → cis t ≠ (1, 0).
Proof.
  intros Ht H. unfold cis in H. injection H as Hc Hs.
  destruct (sin_eq_O_2PI_0 t) as [-> | [-> | ->]]; try lra.
  rewrite cos_PI in Hc. lra.
Qed.

Lemma cis_ratio_not_one (n : nat) (d : Z) :
  (d ≠ 0)%Z → (- Z.of_nat n < d < Z.of_nat n)%Z →
  cis (2 * PI * IZR d / INR n) ≠ (1, 0).
Proof.
  intros Hd Hn.
  assert (0 < INR n) as Hpos by (apply lt_0_INR; lia).
  assert (IZR d < INR n) as Hup by (rewrite INR_IZR_INZ; apply IZR_lt; lia).
  assert (- INR n < IZR d) as Hlo
    by (rewrite INR_IZR_INZ, <- opp_IZR; apply IZR_lt; lia).
  pose proof PI_RGT_0 as Hpi.
  destruct (Z_lt_le_dec 0 d) as [Hp|Hm].
  - apply cis_not_one.
    assert (0 < IZR d) by (apply (IZR_lt 0); lia).
    split.
    + apply Rdiv_lt_0_compat; [nra|done].
    + apply (Rmult_lt_reg_r (INR n)); [done|].
      unfold Rdiv. rewrite Rmult_assoc, Rinv_l by lra. nra.
  - intros H.
    assert (IZR d < 0) by (apply (IZR_lt _ 0); lia).
    apply (cis_not_one (- (2 * PI * IZR d / INR n))).
    + split.
      * assert (2 * PI * IZR d / INR n < 0); [|lra].
        unfold Rdiv. apply (Rmult_lt_reg_r (INR n)); [done|].
        rewrite Rmult_assoc, Rinv_l by lra. nra.
      * apply (Rmult_lt_reg_r (INR n)); [done|].
        unfold Rdiv.
        replace (- (2 * PI * IZR d * / INR n) * INR n)
          with (- (2 * PI * IZR d) * (/ INR n * INR n)) by ring.
        rewrite Rinv_l by lra. nra.
    + rewrite cis_neg, H. unfold Cconj. simpl. f_equal. ring.
Qed.

Lemma geometric_cis (t : R) (n : nat) :
  Cmul (Csub (cis t) (1, 0)) (Csum ((λ p, cis (INR p * t)) <$> seq 0 n))
  = Csub (cis (INR n * t)) (1, 0).
Proof.
  induction n as [|n IH].
  - simpl. rewrite Rmult_0_l, cis_0. unfold Cmul, Csub, C0. simpl.
    f_equal; ring.
  - rewrite seq_S, fmap_app. simpl.
    assert (∀ l z, Csum (l ++ [z]) = Cadd (Csum l) z) as Hsnoc.
    { intros l z. induction l as [|y l IHl].
      - by rewrite app_nil_l, Csum_cons, Cadd_0_l, Cadd_0_r.
      - rewrite <- app_comm_cons, !Csum_cons, IHl. apply Cadd_assoc. }
    rewrite Hsnoc, Cmul_add_r, IH.
    replace (match n with 0%nat => 1 | S _ => INR n + 1 end) with (INR (S n))
      by done.
    rewrite S_INR.
    replace ((INR n + 1) * t) with (t + INR n * t) by ring.
    rewrite cis_add.
    destruct (cis t) as [a b], (cis (INR n * t)) as [c d].
    unfold Cmul, Csub, Cadd. simpl. f_equal; ring.
Qed.

(** The sum of the [n] powers of an [n]-th root of unity. *)
Lemma root_sum (n : nat) (d : Z) :
  (0 < n)%nat → (- Z.of_nat n < d < Z.of_nat n)%Z →
  Csum ((λ p, cis (INR p * (2 * PI * IZR d / INR n))) <$> seq 0 n)
  = if decide (d = 0%Z) then (INR n, 0) else C0.
Proof.
  intros Hn Hd. destruct (decide (d = 0%Z)) as [->|Hne].
  - rewrite (Csum_fmap_ext _ (λ _, (1, 0))).
    + by rewrite Csum_const_one, length_seq.
    + intros p _. replace (INR p * (2 * PI * 0 / INR n)) with 0
        by (unfold Rdiv; ring).
      apply cis_0.
  - pose proof (geometric_cis (2 * PI * IZR d / INR n) n) as Hg.
    assert (0 < INR n) as Hpos by (apply lt_0_INR; lia).
    replace (INR n * (2 * PI * IZR d / INR n)) with (2 * PI * IZR d) in Hg
      by (field; lra).
    rewrite cis_whole_turns in Hg.
    replace (Csub (1, 0) (1, 0)) with C0 in Hg
      by (unfold Csub, C0; simpl; f_equal; ring).
    set (S := Csum _) in *.
    assert (Cabs (Csub (cis (2 * PI * IZR d / INR n)) (1, 0)) * Cabs S = 0)
      as Hz.
    { rewrite <- Cabs_mul, Hg. unfold Cabs, C0. simpl.
      replace (0 * 0 + 0 * 0) with 0 by ring. apply sqrt_0. }
    apply Rmult_integral in Hz. destruct Hz as [Hz|Hz].
    + exfalso. apply (cis_ratio_not_one n d Hne Hd).
      apply Cabs_zero in Hz.
      destruct (cis (2 * PI * IZR d / INR n)) as [a b].
      unfold Csub, C0 in Hz. simpl in Hz. injection Hz as Ha Hb.
      f_equal; lra.
    + by apply Cabs_zero.
Qed.

(** ** The transform as a double sum *)

Lemma nth_tabulate {A : Type} (f : nat → A) (n : nat) (d : A) (p : nat) :
  (p < n)%nat → nth p (f <$> seq 0 n) d = f p.
Proof.
  intros Hp. apply nth_lookup_Some with (d := d).
  rewrite list_lookup_fmap, lookup_seq_lt by done. done.
Qed.

Lemma tabulate_list {A : Type} (d : A) (l : list A) :
  l = (λ k, nth k l d) <$> seq 0 (length l).
Proof.
  apply list_eq. intros i. rewrite list_lookup_fmap.
  destruct (decide (i < length l)%nat) as [Hi|Hi].
  - rewrite lookup_seq_lt by done. simpl.
    destruct (lookup_lt_is_Some_2 l i Hi) as [x Hx].
    rewrite Hx. f_equal. symmetry. by apply nth_lookup_Some.
  - rewrite lookup_seq_ge by lia. simpl. apply lookup_ge_None. lia.
Qed.

Lemma tabulate_shaped {A : Type} (d : A) (r c : nat) (m : matrix A) :
  Np.shaped r c m →
  m = (λ k, (λ l, nth l (nth k m []) d) <$> seq 0 c) <$> seq 0 r.
Proof.
  intros [Hlen Hrect]. rewrite (tabulate_list [] m) at 1. rewrite Hlen.
  apply list_fmap_ext. intros i k Hk.
  apply lookup_seq in Hk as [-> Hk]. simpl.
  assert (length (nth i m []) = c) as Hrow.
  { destruct (lookup_lt_is_Some_2 m i ltac:(lia)) as [row Hrow].
    rewrite (nth_lookup_Some _ _ [] _ Hrow).
    by apply (Forall_lookup_1 _ _ _ _ Hrect Hrow). }
  rewrite (tabulate_list d (nth i m [])) at 1. by rewrite Hrow.
Qed.

Lemma nth_row_length {A : Type} (r c : nat) (m : matrix A) (p : nat) :
  Np.shaped r c m → (p < r)%nat → length (nth p m []) = c.
Proof.
  intros [Hlen Hrect] Hp.
  destruct (lookup_lt_is_Some_2 m p ltac:(lia)) as [row Hrow].
  rewrite (nth_lookup_Some _ _ [] _ Hrow).
  by apply (Forall_lookup_1 _ _ _ _ Hrect Hrow).
Qed.

Lemma dft_entry_sum (sgn : R) (r c : nat) (m : matrix C) (k l : nat) :
  Np.shaped r c m →
  dft_entry sgn r c m k l
  = Csum ((λ p, Csum ((λ q,
      Cmul (nth q (nth p m []) C0)
        (cis (sgn * 2 * PI
              * (INR p * INR k / INR r + INR q * INR l / INR c))))
      <$> seq 0 c)) <$> seq 0 r).
Proof.
  intros Hm. unfold dft_entry.
  rewrite (Csum_imap _ []). rewrite (proj1 Hm).
  apply Csum_fmap_ext. intros p Hp. apply elem_of_seq in Hp.
  rewrite (Csum_imap _ C0).
  by rewrite (nth_row_length r c m p Hm) by lia.
Qed.

Lemma dft2_tabulate (sgn : R) (r c : nat) (m : matrix C) :
  (0 < r)%nat → Np.shaped r c m →
  dft2 sgn m
  = (λ k, (λ l, dft_entry sgn r c m k l) <$> seq 0 c) <$> seq 0 r.
Proof.
  intros Hr Hm. unfold dft2.
  by rewrite (ncols_shaped r c m Hr Hm), (proj1 Hm).
Qed.

Lemma tabulate_is_shaped {A : Type} (f : nat → nat → A) (r c : nat) :
  Np.shaped r c ((λ k, (λ l, f k l) <$> seq 0 c) <$> seq 0 r).
Proof.
  split.
  - by rewrite length_fmap, length_seq.
  - apply Forall_fmap, Forall_forall. intros k _. simpl.
    by rewrite length_fmap, length_seq.
Qed.

Lemma nth_tabulate2 {A : Type} (f : nat → nat → A) (r c p q : nat) (d : A) :
  (p < r)%nat → (q < c)%nat →
  nth q (nth p ((λ k, (λ l, f k l) <$> seq 0 c) <$> seq 0 r) []) d = f p q.
Proof.
  intros Hp Hq. rewrite (nth_tabulate _ r [] p Hp).
  by rewrite (nth_tabulate _ c d q Hq).
Qed.

Lemma mmap_tabulate {A B : Type} (h : A → B) (f : nat → nat → A)
    (r c : nat) :
  mmap h ((λ k, (λ l, f k l) <$> seq 0 c) <$> seq 0 r)
  = (λ k, (λ l, h (f k l)) <$> seq 0 c) <$> seq 0 r.
Proof.
  unfold mmap. rewrite <- list_fmap_compose.
  apply list_fmap_ext. intros i k _. simpl.
  by rewrite <- list_fmap_compose.
Qed.

(** The transform commutes with the multiplication by a constant. *)
Lemma dft2_mul (sgn : R) (w : C) (r c : nat) (m : matrix C) :
  (0 < r)%nat → Np.shaped r c m →
  dft2 sgn (mmap (Cmul w) m) = mmap (Cmul w) (dft2 sgn m).
Proof.
  intros Hr Hm.
  rewrite (dft2_tabulate sgn r c (mmap (Cmul w) m) Hr)
    by (by apply mmap_shaped).
  rewrite (dft2_tabulate sgn r c m Hr Hm), mmap_tabulate.
  apply list_fmap_ext. intros i k Hk. apply lookup_seq in Hk as [-> Hk].
  apply list_fmap_ext. intros j l Hl. apply lookup_seq in Hl as [-> Hl].
  simpl.
  rewrite (dft_entry_sum sgn r c (mmap (Cmul w) m)) by (by apply mmap_shaped).
  rewrite (dft_entry_sum sgn r c m) by done.
  rewrite <- Csum_fmap_mul_l. apply Csum_fmap_ext. intros p Hp.
  apply elem_of_seq in Hp.
  rewrite <- Csum_fmap_mul_l. apply Csum_fmap_ext. intros q Hq.
  apply elem_of_seq in Hq.
  rewrite (tabulate_shaped C0 r c m Hm) at 1.
  rewrite mmap_tabulate, nth_tabulate2 by lia.
  by rewrite Cmul_assoc.
Qed.

Lemma Csum_swap22 {A B D E : Type} (f : A → B → D → E → C)
    (l1 : list D) (l2 : list E) (l3 : list A) (l4 : list B) :
  Csum ((λ p, Csum ((λ q, Csum ((λ a, Csum ((λ b, f a b p q) <$> l4))
                                  <$> l3)) <$> l2)) <$> l1)
  = Csum ((λ a, Csum ((λ b, Csum ((λ p, Csum ((λ q, f a b p q) <$> l2))
                                    <$> l1)) <$> l4)) <$> l3).
Proof.
  transitivity
    (Csum ((λ p, Csum ((λ a, Csum ((λ q, Csum ((λ b, f a b p q) <$> l4))
                                     <$> l2)) <$> l3)) <$> l1)).
  { apply Csum_fmap_ext. intros p _.
    apply (Csum_swap (λ q a, Csum ((λ b, f a b p q) <$> l4))). }
  rewrite (Csum_swap (λ p a, Csum ((λ q, Csum ((λ b, f a b p q) <$> l4))
                                     <$> l2))).
  apply Csum_fmap_ext. intros a _.
  transitivity
    (Csum ((λ p, Csum ((λ b, Csum ((λ q, f a b p q) <$> l2)) <$> l4))
             <$> l1)).
  { apply Csum_fmap_ext. intros p _.
    apply (Csum_swap (λ q b, f a b p q)). }
  apply (Csum_swap (λ p b, Csum ((λ q, f a b p q) <$> l2))).
Qed.

Lemma Cdivr_scaled (z : C) (a b : R) :
  a ≠ 0 → b ≠ 0 →
  Cdivr (Cmul z (Cmul (a, 0) (b, 0))) (a * b) = z.
Proof.
  intros Ha Hb. destruct z as [x y]. unfold Cdivr, Cmul. simpl.
  f_equal; field; done.
Qed.

(** Either transform undoes the other one, the division by the number of
    entries being done in between. *)
Lemma dft_inverse_signed (s : Z) (r c : nat) (Q : matrix C) :
  s = 1%Z ∨ s = (-1)%Z →
  (0 < r)%nat → (0 < c)%nat → Np.shaped r c Q →
  dft2 (IZR (- s)) (mmap (λ z, Cdivr z (INR r * INR c)) (dft2 (IZR s) Q)) = Q.
Proof.
  intros Hs Hr Hc HQ.
  assert (0 < INR r) as Hrp by (apply lt_0_INR; lia).
  assert (0 < INR c) as Hcp by (apply lt_0_INR; lia).
  rewrite (dft2_tabulate (IZR s) r c Q Hr HQ), mmap_tabulate.
  rewrite (dft2_tabulate (IZR (- s)) r c _ Hr) by apply tabulate_is_shaped.
  etransitivity; [|symmetry; apply (tabulate_shaped C0 r c Q HQ)].
  apply list_fmap_ext. intros k ? [-> Hk]%lookup_seq.
  apply list_fmap_ext. intros l ? [-> Hl]%lookup_seq.
  cbn [Nat.add].
  rewrite dft_entry_sum by apply tabulate_is_shaped.
  set (q0 := λ a b, nth b (nth a Q []) C0).
  set (EA := λ a p,
         cis (INR p * (2 * PI * IZR (s * (Z.of_nat a - Z.of_nat k))
                       / INR r))).
  set (EB := λ b q,
         cis (INR q * (2 * PI * IZR (s * (Z.of_nat b - Z.of_nat l))
                       / INR c))).
  set (T := λ a b p q,
         Cdivr (Cmul (q0 a b) (Cmul (EA a p) (EB b q))) (INR r * INR c)).
  transitivity
    (Csum ((λ p, Csum ((λ q, Csum ((λ a, Csum ((λ b, T a b p q)
                                                 <$> seq 0 c))
                                     <$> seq 0 r)) <$> seq 0 c))
             <$> seq 0 r)).
  { apply Csum_fmap_ext. intros p Hp. apply elem_of_seq in Hp.
    apply Csum_fmap_ext. intros q Hq. apply elem_of_seq in Hq.
    rewrite nth_tabulate2 by lia.
    rewrite (dft_entry_sum (IZR s) r c Q p q HQ).
    rewrite Cdivr_mul_l, <- Csum_fmap_mul_r, <- Csum_fmap_divr.
    apply Csum_fmap_ext. intros a Ha.
    rewrite <- Csum_fmap_mul_r, <- Csum_fmap_divr.
    apply Csum_fmap_ext. intros b Hb.
    unfold T, EA, EB, q0. f_equal.
    rewrite <- Cmul_assoc, <- !cis_add. do 2 f_equal.
    rewrite opp_IZR, !mult_IZR, !minus_IZR, <- !INR_IZR_INZ. field. lra. }
  rewrite (Csum_swap22 T).
  transitivity
    (Csum ((λ a, if decide (a = k) then q0 a l else C0) <$> seq 0 r));
    [|by apply (Csum_delta (λ a, q0 a l)); lia].
  apply Csum_fmap_ext. intros a Ha. apply elem_of_seq in Ha.
  transitivity
    (Csum ((λ b, if decide (b = l)
                 then (if decide (a = k) then q0 a b else C0) else C0)
             <$> seq 0 c)).
  2:{ by rewrite (Csum_delta (λ b, if decide (a = k) then q0 a b else C0))
        by lia. }
  apply Csum_fmap_ext. intros b Hb. apply elem_of_seq in Hb.
  unfold T.
  rewrite (Csum_fmap_ext _
             (λ p, Cdivr (Cmul (q0 a b)
                            (Cmul (EA a p) (Csum (EB b <$> seq 0 c))))
                     (INR r * INR c))).
  2:{ intros p _.
      by rewrite Csum_fmap_divr, Csum_fmap_mul_l, Csum_fmap_mul_l. }
  rewrite Csum_fmap_divr, Csum_fmap_mul_l, Csum_fmap_mul_r.
  unfold EA, EB.
  rewrite (root_sum r (s * (Z.of_nat a - Z.of_nat k))) by lia.
  rewrite (root_sum c (s * (Z.of_nat b - Z.of_nat l))) by lia.
  destruct (decide (b = l)) as [->|Hbl], (decide (a = k)) as [->|Hak].
  - rewrite !decide_True by lia. apply Cdivr_scaled; lra.
  - rewrite (decide_False (P := (s * (Z.of_nat a - Z.of_nat k) = 0)%Z))
      by lia.
    by rewrite Cmul_0_l, Cmul_0_r, Cdivr_0.
  - rewrite (decide_False (P := (s * (Z.of_nat b - Z.of_nat l) = 0)%Z))
      by lia.
    by rewrite Cmul_0_r, Cmul_0_r, Cdivr_0.
  - rewrite (decide_False (P := (s * (Z.of_nat a - Z.of_nat k) = 0)%Z))
      by lia.
    by rewrite Cmul_0_l, Cmul_0_r, Cdivr_0.
Qed.

Lemma dft_forward_of_inverse (r c : nat) (Q : matrix C) :
  (0 < r)%nat → (0 < c)%nat → Np.shaped r c Q →
  dft2 (-1) (mmap (λ z, Cdivr z (INR r * INR c)) (dft2 1 Q)) = Q.
Proof. intros. by apply (dft_inverse_signed 1); [left|..]. Qed.

Lemma dft_inverse_of_forward (r c : nat) (Q : matrix C) :
  (0 < r)%nat → (0 < c)%nat → Np.shaped r c Q →
  dft2 1 (mmap (λ z, Cdivr z (INR r * INR c)) (dft2 (-1) Q)) = Q.
Proof. intros. by apply (dft_inverse_signed (-1)); [right|..]. Qed.

End fourier_facts.

(** ** A block that agrees with its frame *)

Section consistency_facts.
Local Open Scope R_scope.

Lemma mmap_compose {A B D : Type} (f : A → B) (g : B → D) (m : matrix A) :
  mmap g (mmap f m) = mmap (λ x, g (f x)) m.
Proof.
  unfold mmap. rewrite <- list_fmap_compose.
  apply list_fmap_ext. intros i row _. simpl.
  by rewrite <- list_fmap_compose.
Qed.

Lemma mmap_ext {A B : Type} (f g : A → B) (m : matrix A) :
  (∀ x, f x = g x) → mmap f m = mmap g m.
Proof.
  intros H. unfold mmap. apply list_fmap_ext. intros i row _.
  apply list_fmap_ext. intros j x _. apply H.
Qed.

Lemma mmap_id {A : Type} (m : matrix A) : mmap (λ x, x) m = m.
Proof.
  unfold mmap. rewrite <- (list_fmap_id m) at 2.
  apply list_fmap_ext. intros i row _. apply list_fmap_id.
Qed.

Lemma fftshift_mmap (f : C → C) (m : matrix C) :
  fftshift (mmap f m) = mmap f (fftshift m).
Proof.
  unfold fftshift, mmap.
  rewrite <- fftshift1_fmap. f_equal.
  rewrite <- !list_fmap_compose. apply list_fmap_ext. intros i row _.
  simpl. apply fftshift1_fmap.
Qed.

Lemma ifftshift_mmap (f : C → C) (m : matrix C) :
  ifftshift (mmap f m) = mmap f (ifftshift m).
Proof.
  unfold ifftshift, mmap.
  rewrite <- ifftshift1_fmap. f_equal.
  rewrite <- !list_fmap_compose. apply list_fmap_ext. intros i row _.
  simpl. apply ifftshift1_fmap.
Qed.

Lemma zip_with2_mmap_l {A B D : Type} (g : B → A → D) (h : A → B)
    (m : matrix A) :
  zip_with (zip_with g) (mmap h m) m = mmap (λ v, g (h v) v) m.
Proof.
  unfold mmap. induction m as [|row m IH]; [done|].
  rewrite !fmap_cons. cbn [zip_with]. f_equal; [|exact IH].
  clear IH. induction row as [|x row IH]; [done|].
  rewrite !fmap_cons. cbn [zip_with]. by f_equal.
Qed.

Lemma Cdivr_as_mul (z : C) (a : R) : Cdivr z a = Cmul (/ a, 0) z.
Proof. destruct z. unfold Cdivr, Cmul, Rdiv. simpl. f_equal; ring. Qed.

Lemma Cscale_as_mul (a : R) (z : C) : Cscale a z = Cmul (RtoC a) z.
Proof. destruct z. unfold Cscale, Cmul, RtoC. simpl. f_equal; ring. Qed.

(** [fft2] after [ifft2], and [ifft2] after [fft2]. *)
Lemma fft2_ifft2 (r c : nat) (m : matrix C) :
  (0 < r)%nat → (0 < c)%nat → Np.shaped r c m →
  ∃ g, ifft2 m = Some g ∧ Np.shaped r c g ∧ fft2 g = Some m.
Proof.
  intros Hr Hc Hm.
  destruct (ifft2_shaped r c m Hr Hc Hm) as (g & Hg & Hgs).
  exists g. split; [done|]. split; [done|].
  unfold fft2. rewrite (is_empty2_shaped r c g) by done. f_equal.
  unfold ifft2 in Hg. rewrite (is_empty2_shaped r c m) in Hg by done.
  injection Hg as <-.
  rewrite (proj1 Hm), (ncols_shaped r c m Hr Hm).
  by apply dft_forward_of_inverse.
Qed.

Lemma ifft2_fft2 (r c : nat) (m : matrix C) :
  (0 < r)%nat → (0 < c)%nat → Np.shaped r c m →
  ∃ f, fft2 m = Some f ∧ Np.shaped r c f ∧ ifft2 f = Some m.
Proof.
  intros Hr Hc Hm.
  destruct (fft2_shaped r c m Hr Hc Hm) as (f & Hf & Hfs).
  exists f. split; [done|]. split; [done|].
  unfold ifft2. rewrite (is_empty2_shaped r c f) by done. f_equal.
  unfold fft2 in Hf. rewrite (is_empty2_shaped r c m) in Hf by done.
  injection Hf as <-.
  rewrite (proj1 Hfs), (ncols_shaped r c _ Hr Hfs).
  rewrite (mmap_ext _ (Cmul (/ (INR r * INR c), 0)))
    by (intros; apply Cdivr_as_mul).
  rewrite <- (dft2_mul 1 _ r c) by (done || by apply dft2_shaped).
  rewrite <- (mmap_ext (λ z, Cdivr z (INR r * INR c)))
    by (intros; apply Cdivr_as_mul).
  by apply dft_inverse_of_forward.
Qed.

Lemma rescale_polar (m : R) (v : C) :
  Cmul (RtoC (Cabs v * m)) (cis (angle v)) = Cmul (RtoC m) v.
Proof.
  rewrite <- (polar v) at 3.
  destruct (cis (angle v)) as [a b]. unfold Cmul, RtoC. simpl.
  f_equal; ring.
Qed.

Lemma Cdivr_Cmul_real (m : R) (v : C) :
  m ≠ 0 → Cdivr (Cmul (RtoC m) v) m = v.
Proof.
  intros Hm. destruct v as [a b]. unfold Cdivr, Cmul, RtoC. simpl.
  f_equal; field; done.
Qed.

Section consistent_block.
Context (cfg : config).
Hypothesis Hpad : (0 ≤ pad_size cfg)%Z.
Hypothesis HL : (0 < L cfg)%Z.
Hypothesis Hmask :
  is_mask cfg = true → Np.has_shape (L cfg) (L cfg) (mask cfg).
Hypothesis Hnonzero :
  is_mask cfg = true → Forall (Forall (λ m, m ≠ C0)) (mask cfg).

(** The padded block a frame is computed from, and how to get the block
    back from it. *)
Lemma masked_pad_undo (blk : matrix C) :
  Np.has_shape (L cfg) (L cfg) blk →
  ∃ P, masked_pad cfg blk = Some P
       ∧ Np.shaped (Z.to_nat (M cfg)) (Z.to_nat (M cfg)) P
       ∧ (let p := pad_size cfg in
          let inverse :=
            Np.get2 (Np.rng p (p + L cfg)) (Np.rng p (p + L cfg)) P in
          if is_mask cfg then Np.zip2 Cdiv inverse (mask cfg)
          else Some inverse) = Some blk.
Proof.
  intros Hblk.
  destruct (masked_pad_shaped cfg Hpad HL Hmask blk Hblk) as (P & HP & HPs).
  exists P. split; [done|]. split; [done|].
  apply shaped_has_shape in Hblk; [|lia..].
  unfold masked_pad, np_pad in HP.
  destruct (Z.ltb_spec (pad_size cfg) 0); [lia|].
  cbn zeta.
  assert (∀ W, Np.shaped (Z.to_nat (L cfg)) (Z.to_nat (L cfg)) W →
            Np.get2 (Np.rng (pad_size cfg) (pad_size cfg + L cfg))
              (Np.rng (pad_size cfg) (pad_size cfg + L cfg))
              (pad_rows_cols (pad_size cfg) (pad_size cfg) (pad_size cfg)
                 (pad_size cfg) W) = W) as Hcrop.
  { intros W HW.
    rewrite <- (Z2Nat.id (L cfg)) at 1 2 by lia.
    by apply crop_pad_rows_cols. }
  destruct (is_mask cfg) eqn:Hm.
  - specialize (Hmask eq_refl). specialize (Hnonzero eq_refl).
    apply shaped_has_shape in Hmask; [|lia..].
    destruct (zip2_shaped Cmul _ _ blk (mask cfg) Hblk Hmask) as [Hz Hzs].
    rewrite Hz in HP. simpl in HP. injection HP as <-.
    rewrite Hcrop by done.
    destruct (zip2_shaped Cdiv _ _ _ (mask cfg) Hzs Hmask) as [-> _].
    f_equal.
    apply (zip_with2_undo Cmul Cdiv (λ m, m ≠ C0)
             (Z.to_nat (L cfg)) (Z.to_nat (L cfg))); try done.
    intros x y Hy. by apply Cdiv_Cmul.
  - injection HP as <-. by rewrite Hcrop.
Qed.

(** A block whose frame is the measured one is returned unchanged. *)
Lemma gs_correct_consistent (blk : matrix C) (frame : matrix R) :
  Np.has_shape (L cfg) (L cfg) blk →
  forward_np cfg blk = Some frame →
  gs_correct cfg frame blk = Some blk.
Proof.
  intros Hblk Hf.
  destruct (masked_pad_undo blk Hblk) as (P & HP & HPs & Hundo).
  assert (0 < Z.to_nat (M cfg))%nat as HM by (unfold M; lia).
  assert (IZR (M cfg) ≠ 0) as HMr.
  { apply not_0_IZR. unfold M. lia. }
  destruct (fft2_ifft2 _ _ (ifftshift P) HM HM)
    as (z & Hz & Hzs & Hback); [by apply ifftshift_shaped|].
  unfold forward_np in Hf. rewrite HP in Hf. simpl in Hf.
  rewrite Hz in Hf. simpl in Hf. injection Hf as <-.
  unfold gs_correct. rewrite HP. simpl. rewrite Hz. simpl.
  destruct (zip2_shaped (λ a v, Cmul (RtoC a) (cis (angle v)))
              (Z.to_nat (M cfg)) (Z.to_nat (M cfg))
              (mmap (λ v, Cabs v * IZR (M cfg)) z) z) as [-> _];
    [by apply mmap_shaped|done|].
  simpl. rewrite zip_with2_mmap_l.
  rewrite (mmap_ext _ (Cmul (RtoC (IZR (M cfg)))))
    by (intros; apply rescale_polar).
  unfold fft2.
  rewrite (is_empty2_shaped (Z.to_nat (M cfg)) (Z.to_nat (M cfg)) _ HM HM)
    by (by apply mmap_shaped).
  simpl.
  rewrite (dft2_mul _ _ _ _ _ HM Hzs).
  unfold fft2 in Hback. rewrite (is_empty2_shaped _ _ _ HM HM Hzs) in Hback.
  injection Hback as ->.
  rewrite fftshift_mmap, fftshift_ifftshift, mmap_compose.
  rewrite (mmap_ext _ (λ v, v)) by (intros; by apply Cdivr_Cmul_real).
  rewrite mmap_id. exact Hundo.
Qed.
End consistent_block.

End consistency_facts.

(** ** Exact measurements *)

Section exact_measurements.
Context (cfg : config).
Hypothesis Hpad : (0 ≤ pad_size cfg)%Z.
Hypothesis HL : (0 < L cfg ≤ N cfg)%Z.
Hypothesis Hmask :
  is_mask cfg = true → Np.has_shape (L cfg) (L cfg) (mask cfg).

Context (xs ys : list Z) (tf : Z).
Hypothesis Htf : (0 ≤ tf)%Z.
Hypothesis Hwin : ∀ i, i < Z.to_nat tf →
  ∃ x y, xs !! i = Some x ∧ ys !! i = Some y
         ∧ (0 ≤ x < N cfg)%Z ∧ (0 ≤ y < N cfg)%Z.

(** Without noise, frame [i] of the measurement is the forward model of
    the window [i] of the normalised spectrum. *)
Lemma measurement_frames (o : oracle) (xt : matrix C) (cnts : matrix Z) :
  is_noisy cfg = false →
  Np.has_shape (N cfg) (N cfg) xt → Np.has_shape (N cfg) (N cfg) cnts →
  ∃ f objectFT meas,
    fft2 xt = Some f
    ∧ Np.zip2 (λ z c, Cdivr z (sqrt (IZR c)))
        (mmap (λ z, Cdivr z (IZR (N cfg))) (fftshift f)) cnts
      = Some objectFT
    ∧ Np.has_shape (N cfg) (N cfg) objectFT
    ∧ measurement cfg o xt cnts xs ys tf = Some meas
    ∧ length meas = Z.to_nat tf
    ∧ Forall (Np.shaped (Z.to_nat (M cfg)) (Z.to_nat (M cfg))) meas
    ∧ ∀ i, i < Z.to_nat tf →
        ∃ x y frame,
          xs !! i = Some x ∧ ys !! i = Some y ∧ meas !! i = Some frame
          ∧ forward_np cfg (window cfg objectFT x y) = Some frame.
Proof.
  intros Hnoise Hxt Hcnts.
  destruct (measurement_fold cfg Hpad HL Hmask xs ys tf Htf Hwin o xt cnts
              Hxt Hcnts)
    as (f & objectFT & t & Hf & Hobj & Hos & Hmeas & Lt & St & Ht & _).
  rewrite Hnoise in Hmeas. by exists f, objectFT, t.
Qed.

Hypothesis Hnonzero :
  is_mask cfg = true → Forall (Forall (λ m, m ≠ C0)) (mask cfg).

(** A projection step whose frame is the forward model of the window it
    reads returns the estimate it was given. *)
Lemma projection_step_consistent (imSeqLowRes : list (matrix R))
    (loop i : nat) (x y : Z) (frame : matrix R) (est : matrix C)
    (tr : list event) :
  Np.has_shape (N cfg) (N cfg) est →
  xs !! i = Some x → ys !! i = Some y → i < Z.to_nat tf →
  imSeqLowRes !! i = Some frame →
  forward_np cfg (window cfg est x y) = Some frame →
  projection_step cfg imSeqLowRes xs ys loop (est, tr) i
  = Some (est, tr ++ [Projected loop i]).
Proof.
  intros Hest Hx Hy Hi Hframe Hfwd.
  destruct (Hwin i Hi) as (x' & y' & Hx' & Hy' & Hxb & Hyb). simplify_eq.
  unfold projection_step. rewrite Hx, Hy. simpl. rewrite Hframe. simpl.
  rewrite (read_window_window cfg est x y Hest) by lia.
  rewrite (gs_correct_consistent cfg Hpad ltac:(lia) Hmask Hnonzero
             (window cfg est x y) frame); [|apply window_shaped; lia || done
                                           |done].
  simpl. rewrite write_back_window by lia || done. done.
Qed.

(** The loops of the projection stage return the estimate they start
    from when every frame is the forward model of its window. *)
Lemma projection_stage_consistent (o : oracle)
    (imSeqLowRes : list (matrix R)) (est : matrix C) (loops : nat) :
  (∀ k l, Permutation (shuffle o k l) l) →
  Np.has_shape (N cfg) (N cfg) est →
  (∀ i, i < Z.to_nat tf →
     ∃ x y frame, xs !! i = Some x ∧ ys !! i = Some y
                  ∧ imSeqLowRes !! i = Some frame
                  ∧ forward_np cfg (window cfg est x y) = Some frame) →
  ∃ sq tr,
    foldlM (projection_loop cfg o imSeqLowRes xs ys)
      (est, seq 0 (Z.to_nat tf), []) (seq 0 loops)
    = Some (est, sq, tr).
Proof.
  intros Hperm Hest Hexact.
  destruct (foldlM_range (projection_loop cfg o imSeqLowRes xs ys)
              (λ _ st, st.1.1 = est
                       ∧ Permutation st.1.2 (seq 0 (Z.to_nat tf)))
              loops (est, seq 0 (Z.to_nat tf), []))
    as ([[e sq] tr] & Hrun & He & _); [done| |].
  - intros k [[e sq] tr] Hk [He Hsq]. simpl in *. subst e.
    unfold projection_loop. simpl.
    assert (Permutation (shuffle o k sq) (seq 0 (Z.to_nat tf))) as Hsq'
      by (etransitivity; [apply Hperm|done]).
    destruct (foldlM_prefix (projection_step cfg imSeqLowRes xs ys k)
                (λ i, i < Z.to_nat tf) (λ _ st, st.1 = est)
                (shuffle o k sq) (est, tr)) as ([e tr'] & -> & He);
      [done| |  |].
    + apply Forall_forall. intros i Hi.
      rewrite Hsq' in Hi. apply elem_of_seq in Hi. lia.
    + intros pre [e tr'] i He Hi. simpl in *. subst e.
      destruct (Hexact i Hi) as (x & y & frame & Hx & Hy & Hf & Hfwd).
      rewrite (projection_step_consistent imSeqLowRes k i x y frame est tr')
        by done.
      by eexists.
    + simpl in *. subst e. eexists. split; [done|]. by split.
  - simpl in *. subst e. by exists sq, tr.
Qed.
End exact_measurements.

(** ** Fixed points of the projection *)

(** X8. A block that already agrees with its frame is returned unchanged
    by the correction of a projection step: with the frame computed from
    the block by the forward model, the chain mask, pad, shift, inverse
    transform, amplitude substitution, transform, shift, division by M,
    crop and division by the mask gives the block back, provided no
    entry of the mask is zero. *)
Theorem gs_correct_keeps_consistent_block (cfg : config) (blk : matrix C) :
  (0 ≤ pad_size cfg)%Z → (0 < L cfg)%Z →
  (is_mask cfg = true → Np.has_shape (L cfg) (L cfg) (mask cfg)) →
  (is_mask cfg = true → Forall (Forall (λ m, m ≠ C0)) (mask cfg)) →
  Np.has_shape (L cfg) (L cfg) blk →
  ∃ frame, forward_np cfg blk = Some frame
           ∧ gs_correct cfg frame blk = Some blk.
Proof.
  intros Hpad HL Hmask Hnonzero Hblk.
  destruct (forward_np_shaped cfg Hpad HL Hmask blk Hblk) as (F & HF & _).
  exists F. split; [done|].
  by apply gs_correct_consistent.
Qed.

Lemma gs_correct_keeps_consistent_block_witness :
  ∃ frame, forward_np cfg_phase [[(1, 0); (0, 2)]; [(3, 1); (0, 0)]]%R
           = Some frame
           ∧ gs_correct cfg_phase frame [[(1, 0); (0, 2)]; [(3, 1); (0, 0)]]%R
             = Some [[(1, 0); (0, 2)]; [(3, 1); (0, 0)]]%R.
Proof.
  apply (gs_correct_keeps_consistent_block cfg_phase
           [[(1, 0); (0, 2)]; [(3, 1); (0, 0)]]%R).
  - simpl. lia.
  - simpl. lia.
  - intros _. split; [reflexivity|]. repeat constructor.
  - intros _. repeat constructor; intros [=]; lra.
  - split; [reflexivity|]. repeat constructor.
Defined.

(** X9. Without noise, the normalised spectrum of the object is a fixed
    point of the projection stage: the frames measured from it make every
    projection step, in whatever order the shuffles visit the frames and
    for any number of loops, return it unchanged. *)
Theorem projection_keeps_true_spectrum (cfg : config) (o : oracle)
    (xt : matrix C) (cnts : matrix Z) (xs ys : list Z) (tf : Z)
    (loops : nat) :
  (0 ≤ pad_size cfg)%Z → (0 < L cfg ≤ N cfg)%Z → (0 < pitch cfg)%Z →
  (is_mask cfg = true → Np.has_shape (L cfg) (L cfg) (mask cfg)) →
  (is_mask cfg = true → Forall (Forall (λ m, m ≠ C0)) (mask cfg)) →
  is_noisy cfg = false →
  xlocations cfg = Some xs → ylocations cfg = Some ys →
  total_frame cfg = Some tf →
  (∀ k l, Permutation (shuffle o k l) l) →
  Np.has_shape (N cfg) (N cfg) xt → Np.has_shape (N cfg) (N cfg) cnts →
  ∃ f objectFT imSeqLowRes sq tr,
    fft2 xt = Some f
    ∧ Np.zip2 (λ z c, Cdivr z (sqrt (IZR c)))
        (mmap (λ z, Cdivr z (IZR (N cfg))) (fftshift f)) cnts
      = Some objectFT
    ∧ measurement cfg o xt cnts xs ys tf = Some imSeqLowRes
    ∧ foldlM (projection_loop cfg o imSeqLowRes xs ys)
        (objectFT, seq 0 (Z.to_nat tf), []) (seq 0 loops)
      = Some (objectFT, sq, tr).
Proof.
  intros Hpad HL Hp Hmask Hnonzero Hnoise Hxs Hys Htf Hperm Hxt Hcnts.
  destruct (frames_inside cfg xs ys tf Hp ltac:(lia) Hxs Hys Htf)
    as [Hpos Hwin].
  destruct (measurement_frames cfg Hpad HL Hmask xs ys tf Hpos Hwin o xt cnts
              Hnoise Hxt Hcnts)
    as (f & objectFT & meas & Hf & Hobj & Hos & Hmeas & _ & _ & Hexact).
  destruct (projection_stage_consistent cfg Hpad HL Hmask xs ys tf Hwin
              Hnonzero o meas objectFT loops Hperm Hos Hexact)
    as (sq & tr & Hrun).
  by exists f, objectFT, meas, sq, tr.
Qed.

Lemma projection_keeps_true_spectrum_witness :
  ∃ f objectFT imSeqLowRes sq tr,
    fft2 (ones 4) = Some f
    ∧ Np.zip2 (λ z c, Cdivr z (sqrt (IZR c)))
        (mmap (λ z, Cdivr z (IZR 4)) (fftshift f)) (Np.full 4 4 1%Z)
      = Some objectFT
    ∧ measurement cfg_phase turning (ones 4) (Np.full 4 4 1%Z)
        [0; 2; 0; 2]%Z [0; 0; 2; 2]%Z 4 = Some imSeqLowRes
    ∧ foldlM (projection_loop cfg_phase turning imSeqLowRes
                [0; 2; 0; 2]%Z [0; 0; 2; 2]%Z)
        (objectFT, seq 0 (Z.to_nat 4), []) (seq 0 3)
      = Some (objectFT, sq, tr).
Proof.
  apply (projection_keeps_true_spectrum cfg_phase turning (ones 4)
           (Np.full 4 4 1%Z) [0; 2; 0; 2]%Z [0; 0; 2; 2]%Z 4 3).
  - simpl. lia.
  - simpl. lia.
  - simpl. lia.
  - intros _. split; [reflexivity|]. repeat constructor.
  - intros _. repeat constructor; intros [=]; lra.
  - reflexivity.
  - reflexivity.
  - reflexivity.
  - reflexivity.
  - intros k l. simpl. apply reverse_Permutation.
  - split; [reflexivity|]. repeat constructor.
  - split; [reflexivity|]. repeat constructor.
Defined.

(** ** From the spectrum back to the object *)

Section reconstruction_facts.
Local Open Scope R_scope.

Lemma ifft2_mul (w : C) (r c : nat) (m g : matrix C) :
  (0 < r)%nat → (0 < c)%nat → Np.shaped r c m →
  ifft2 m = Some g →
  ifft2 (mmap (Cmul w) m) = Some (mmap (Cmul w) g).
Proof.
  intros Hr Hc Hm Hg. unfold ifft2 in *.
  assert (Np.shaped r c (mmap (Cmul w) m)) as Hwm by (by apply mmap_shaped).
  rewrite (is_empty2_shaped r c _ Hr Hc Hm) in Hg.
  rewrite (is_empty2_shaped r c _ Hr Hc Hwm).
  injection Hg as <-. f_equal.
  rewrite (proj1 Hwm), (ncols_shaped r c _ Hr Hwm).
  rewrite (proj1 Hm), (ncols_shaped r c _ Hr Hm).
  rewrite (dft2_mul 1 w r c m Hr Hm).
  rewrite !mmap_compose. apply mmap_ext. intros z.
  by rewrite !Cdivr_as_mul, !Cmul_assoc, (Cmul_comm w).
Qed.




End reconstruction_facts.

(** ** The global phase is not measured *)

Section phase_facts_real.
Local Open Scope R_scope.

Lemma ncols_mmap {A B : Type} (f : A → B) (m : matrix A) :
  Np.ncols (mmap f m) = Np.ncols m.
Proof. destruct m as [|row m]; [done|]. simpl. by rewrite length_fmap. Qed.

Lemma pad_rows_cols_mmap (f : C → C) (b1 a1 b2 a2 : Z) (m : matrix C) :
  f C0 = C0 →
  pad_rows_cols b1 a1 b2 a2 (mmap f m) = mmap f (pad_rows_cols b1 a1 b2 a2 m).
Proof.
  intros Hf. unfold pad_rows_cols, pad_axis. rewrite ncols_mmap.
  unfold mmap. rewrite !fmap_app, !fmap_replicate, Hf.
  rewrite <- !list_fmap_compose. do 2 f_equal.
  apply list_fmap_ext. intros i row _. simpl.
  by rewrite !fmap_app, !fmap_replicate, Hf.
Qed.

Lemma zip_with2_mmap_left {A B : Type} (h : A → A) (f : A → B → A)
    (W : matrix A) (K : matrix B) :
  (∀ x y, f (h x) y = h (f x y)) →
  zip_with (zip_with f) (mmap h W) K = mmap h (zip_with (zip_with f) W K).
Proof.
  intros Hf. unfold mmap. revert K.
  induction W as [|row W IH]; intros [|rowK K]; try done.
  rewrite fmap_cons. cbn [zip_with]. rewrite fmap_cons. f_equal; [|apply IH].
  clear IH. revert rowK.
  induction row as [|x row IH]; intros [|y rowK]; try done.
  rewrite fmap_cons. cbn [zip_with]. rewrite fmap_cons. f_equal; [|apply IH].
  apply Hf.
Qed.

Lemma get2_mmap {A B : Type} (f : A → B) rr rc (m : matrix A) :
  Np.get2 rr rc (mmap f m) = mmap f (Np.get2 rr rc m).
Proof.
  unfold Np.get2, mmap. rewrite get1_fmap, <- !list_fmap_compose.
  apply list_fmap_ext. intros i row _. simpl. apply get1_fmap.
Qed.

Lemma repmat22_mmap {A B : Type} (f : A → B) (m : matrix A) :
  Np.repmat22 (mmap f m) = mmap f (Np.repmat22 m).
Proof.
  unfold Np.repmat22, mmap.
  assert ((λ row : list B, row ++ row) <$> ((λ row : list A, f <$> row) <$> m)
          = (λ row : list A, f <$> row)
              <$> ((λ row : list A, row ++ row) <$> m)) as ->.
  { rewrite <- !list_fmap_compose. apply list_fmap_ext. intros i row _.
    simpl. by rewrite fmap_app. }
  by rewrite fmap_app.
Qed.

Section phase_facts.
Context (cfg : config) (psi : R).
Hypothesis Hpad : (0 ≤ pad_size cfg)%Z.
Hypothesis HL : (0 < L cfg)%Z.
Hypothesis Hmask :
  is_mask cfg = true → Np.has_shape (L cfg) (L cfg) (mask cfg).

(** The frame of a block turned by a global phase is the frame of the
    block. *)
Lemma forward_np_phase (W : matrix C) :
  Np.has_shape (L cfg) (L cfg) W →
  forward_np cfg (mmap (Cmul (cis psi)) W) = forward_np cfg W.
Proof.
  intros HW.
  assert (Np.has_shape (L cfg) (L cfg) (mmap (Cmul (cis psi)) W)) as HW'.
  { apply shaped_has_shape; [lia..|]. apply mmap_shaped.
    apply shaped_has_shape; [lia..|done]. }
  destruct (masked_pad_shaped cfg Hpad HL Hmask W HW) as (P & HP & HPs).
  assert (masked_pad cfg (mmap (Cmul (cis psi)) W)
          = Some (mmap (Cmul (cis psi)) P)) as HP'.
  { unfold masked_pad, np_pad in *.
    destruct (Z.ltb_spec (pad_size cfg) 0); [lia|].
    apply shaped_has_shape in HW; [|lia..].
    apply shaped_has_shape in HW'; [|lia..].
    destruct (is_mask cfg) eqn:Hm.
    - specialize (Hmask eq_refl). apply shaped_has_shape in Hmask; [|lia..].
      destruct (zip2_shaped Cmul _ _ W (mask cfg) HW Hmask) as [Hz _].
      destruct (zip2_shaped Cmul _ _ _ (mask cfg) HW' Hmask) as [-> _].
      rewrite Hz in HP. simpl in *. injection HP as <-. f_equal.
      rewrite zip_with2_mmap_left
        by (intros; by rewrite <- Cmul_assoc).
      apply pad_rows_cols_mmap, Cmul_0_r.
    - injection HP as <-. f_equal. apply pad_rows_cols_mmap, Cmul_0_r. }
  unfold forward_np. rewrite HP, HP'. simpl.
  assert (0 < Z.to_nat (M cfg))%nat as HM by (unfold M; lia).
  destruct (ifft2_shaped _ _ (ifftshift P) HM HM) as (g & Hg & Hgs);
    [by apply ifftshift_shaped|].
  rewrite ifftshift_mmap.
  rewrite (ifft2_mul (cis psi) _ _ (ifftshift P) g HM HM)
    by (done || by apply ifftshift_shaped).
  rewrite Hg. simpl. f_equal. rewrite mmap_compose.
  apply mmap_ext. intros z. by rewrite Cabs_mul, Cabs_cis, Rmult_1_l.
Qed.
End phase_facts.

Lemma foldlM_ext {St B : Type} (f g : St → B → option St) (s : St)
    (l : list B) :
  (∀ s b, b ∈ l → f s b = g s b) → foldlM f s l = foldlM g s l.
Proof.
  revert s. induction l as [|b l IH]; intros s H; [done|].
  simpl. rewrite (H s b) by apply list_elem_of_here.
  destruct (g s b) as [s'|]; [|done]. simpl.
  apply IH. intros s0 b0 Hb0. apply H. by apply list_elem_of_further.
Qed.

Lemma fft2_mul (w : C) (r c : nat) (m f : matrix C) :
  (0 < r)%nat → (0 < c)%nat → Np.shaped r c m →
  fft2 m = Some f → fft2 (mmap (Cmul w) m) = Some (mmap (Cmul w) f).
Proof.
  intros Hr Hc Hm Hf. unfold fft2 in *.
  rewrite (is_empty2_shaped r c _ Hr Hc Hm) in Hf.
  rewrite (is_empty2_shaped r c _ Hr Hc) by (by apply mmap_shaped).
  injection Hf as <-. f_equal. by apply (dft2_mul (-1) w r c).
Qed.

Lemma Cdivr_Cmul (w z : C) (a : R) : Cdivr (Cmul w z) a = Cmul w (Cdivr z a).
Proof. unfold Cdivr, Cmul, Rdiv. simpl. f_equal; ring. Qed.

(** X11. Without noise the frames do not see a global phase: the
    measurement of an object turned by [e^{j psi}] is the measurement of
    the object, frame by frame. *)
Theorem measurement_blind_to_phase (cfg : config) (o : oracle)
    (xt : matrix C) (cnts : matrix Z) (xs ys : list Z) (tf : Z) (psi : R) :
  is_noisy cfg = false →
  (0 ≤ pad_size cfg)%Z → (0 < L cfg ≤ N cfg)%Z → (0 < pitch cfg)%Z →
  (is_mask cfg = true → Np.has_shape (L cfg) (L cfg) (mask cfg)) →
  xlocations cfg = Some xs → ylocations cfg = Some ys →
  total_frame cfg = Some tf →
  Np.has_shape (N cfg) (N cfg) xt → Np.has_shape (N cfg) (N cfg) cnts →
  ∃ imSeqLowRes,
    measurement cfg o xt cnts xs ys tf = Some imSeqLowRes
    ∧ measurement cfg o (mmap (Cmul (cis psi)) xt) cnts xs ys tf
      = Some imSeqLowRes.
Proof.
  intros Hnoise Hpad HL Hp Hmask Hxs Hys Htf Hxt Hcnts.
  destruct (frames_inside cfg xs ys tf Hp ltac:(lia) Hxs Hys Htf)
    as [Hpos Hwin].
  destruct (measurement_spec cfg Hpad HL Hmask xs ys tf Hpos Hwin o xt cnts
              0 0 Hxt Hcnts) as (meas & Hmeas & _).
  { rewrite Hnoise. discriminate. }
  exists meas. split; [done|]. rewrite <- Hmeas.
  unfold measurement.
  apply shaped_has_shape in Hxt; [|lia..].
  apply shaped_has_shape in Hcnts; [|lia..].
  set (n := Z.to_nat (N cfg)) in *.
  assert (0 < n)%nat as Hn by lia.
  destruct (fft2_shaped n n xt Hn Hn Hxt) as (f & Hf & Hfs).
  rewrite (fft2_mul (cis psi) n n xt f Hn Hn Hxt Hf), Hf. simpl.
  set (A := mmap (λ z, Cdivr z (IZR (N cfg))) (fftshift f)).
  assert (Np.shaped n n A) as HA by (by apply mmap_shaped, fftshift_shaped).
  assert (mmap (λ z, Cdivr z (IZR (N cfg)))
            (fftshift (mmap (Cmul (cis psi)) f))
          = mmap (Cmul (cis psi)) A) as ->.
  { unfold A. rewrite fftshift_mmap, !mmap_compose.
    apply mmap_ext. intros z. apply Cdivr_Cmul. }
  destruct (zip2_shaped (λ z c, Cdivr z (sqrt (IZR c))) n n A cnts HA Hcnts)
    as [-> Hos].
  destruct (zip2_shaped (λ z c, Cdivr z (sqrt (IZR c))) n n
              (mmap (Cmul (cis psi)) A) cnts) as [-> _];
    [by apply mmap_shaped|done|].
  simpl.
  rewrite zip_with2_mmap_left by (intros; apply Cdivr_Cmul).
  set (objectFT := zip_with (zip_with (λ z c, Cdivr z (sqrt (IZR c)))) A cnts)
    in *.
  rewrite repmat22_mmap.
  destruct (zeros3 0%R tf (M cfg) (M cfg)) as [t0|]; [|done]. simpl.
  rewrite (foldlM_ext
             (measure_frame cfg (mmap (Cmul (cis psi)) (Np.repmat22 objectFT))
                xs ys)
             (measure_frame cfg (Np.repmat22 objectFT) xs ys)); [done|].
  intros t i Hi. apply elem_of_seq in Hi.
  destruct (Hwin i ltac:(lia)) as (x & y & Hx & Hy & Hxb & Hyb).
  unfold measure_frame. rewrite Hx, Hy. simpl.
  rewrite get2_mmap.
  change (Np.get2 (Np.rng x (x + L cfg)) (Np.rng y (y + L cfg))
            (Np.repmat22 objectFT)) with (window cfg objectFT x y).
  rewrite (forward_np_phase cfg psi Hpad ltac:(lia) Hmask); [done|].
  apply window_shaped; try lia. apply shaped_has_shape; [lia..|done].
Qed.

Lemma measurement_blind_to_phase_witness :
  ∃ imSeqLowRes,
    measurement cfg_phase turning (ones 4) (Np.full 4 4 1%Z)
      [0; 2; 0; 2]%Z [0; 0; 2; 2]%Z 4 = Some imSeqLowRes
    ∧ measurement cfg_phase turning (mmap (Cmul (cis 1)) (ones 4))
        (Np.full 4 4 1%Z) [0; 2; 0; 2]%Z [0; 0; 2; 2]%Z 4
      = Some imSeqLowRes.
Proof.
  apply (measurement_blind_to_phase cfg_phase turning (ones 4)
           (Np.full 4 4 1%Z) [0; 2; 0; 2]%Z [0; 0; 2; 2]%Z 4 1).
  - reflexivity.
  - simpl. lia.
  - simpl. lia.
  - simpl. lia.
  - intros _. split; [reflexivity|]. repeat constructor.
  - reflexivity.
  - reflexivity.
  - reflexivity.
  - split; [reflexivity|]. repeat constructor.
  - split; [reflexivity|]. repeat constructor.
Defined.

End phase_facts_real.

(** ** The loss at its own frames *)

Section loss_facts.
Local Open Scope R_scope.

Lemma mapM_Forall_total {A B : Type} (f : A → option B) (g : A → B)
    (l : list A) :
  Forall (λ x, f x = Some (g x)) l → mapM f l = Some (g <$> l).
Proof.
  induction 1 as [|x l Hx _ IH]; [done|].
  cbn [mapM]. rewrite Hx, IH. done.
Qed.

Lemma sum_of_zeros (l : list R) :
  Forall (λ v, v = 0) l → foldr Rplus 0 l = 0.
Proof. induction 1 as [|x l -> _ IH]; simpl; [done|]. rewrite IH. ring. Qed.

(** The loss at a measurement that is the output of [FORWARD]. *)
Lemma loss_at_forward (cfg : config) (X_FT_EST : list (matrix C))
    (Y : list (matrix R)) :
  (0 ≤ M cfg)%Z →
  Tf.FORWARD cfg X_FT_EST = Some Y →
  Forall (Np.has_shape (M cfg) (M cfg)) Y →
  Tf.loss cfg X_FT_EST Y = Some C0.
Proof.
  intros HM HY HYs.
  unfold Tf.loss. rewrite HY. cbn [mbind option_bind].
  rewrite decide_True by done.
  rewrite zip_diag, mapM_fmap_input.
  rewrite (mapM_Forall_total _
             (mmap (λ a, (Rabs a - Rabs a) ^ 2))).
  2:{ eapply Forall_impl; [exact HYs|]. intros F HF.
      apply shaped_has_shape in HF; [|lia..]. cbn beta. cbn [fst snd].
      destruct (zip2_shaped (λ a b, (Rabs a - Rabs b) ^ 2) _ _ F F HF HF)
        as [-> _].
      f_equal. unfold mmap. rewrite zip_with_diag.
      apply list_fmap_ext. intros i row _. simpl. apply zip_with_diag. }
  cbn [mbind option_bind]. unfold RtoC, C0. do 2 f_equal.
  apply sum_of_zeros. apply Forall_concat, Forall_fmap, Forall_fmap.
  apply Forall_forall. intros F _. simpl.
  unfold Np.flatten, mmap. apply Forall_concat, Forall_fmap.
  apply Forall_forall. intros row _. simpl. apply Forall_fmap.
  apply Forall_forall. intros a _. simpl. ring.
Qed.

(** X12. The loss of the graph is 0 at its own frames: fed with the
    output of [FORWARD] for a batch as the measurement, the sum of the
    squared differences of the amplitudes vanishes. *)
Theorem loss_vanishes_on_own_frames (cfg : config)
    (X_FT_EST : list (matrix C)) :
  (0 ≤ pad_size cfg)%Z → (0 < L cfg)%Z →
  (is_mask cfg = true → Np.has_shape (L cfg) (L cfg) (mask cfg)) →
  Forall (Np.has_shape (L cfg) (L cfg)) X_FT_EST →
  ∃ Y, Tf.FORWARD cfg X_FT_EST = Some Y ∧ Tf.loss cfg X_FT_EST Y = Some C0.
Proof.
  intros Hpad HL Hmask HX.
  destruct (mapM_forward_defined cfg X_FT_EST Hpad HL Hmask HX)
    as (Y & HY & HYs).
  rewrite <- forward_tf_np in HY by done.
  exists Y. split; [done|].
  apply loss_at_forward; [unfold M; lia|done|done].
Qed.

Lemma loss_vanishes_on_own_frames_witness :
  ∃ Y, Tf.FORWARD cfg_masked [ones 2; Np.full 2 2 (0, 1)%R] = Some Y
       ∧ Tf.loss cfg_masked [ones 2; Np.full 2 2 (0, 1)%R] Y = Some C0.
Proof.
  apply (loss_vanishes_on_own_frames cfg_masked
           [ones 2; Np.full 2 2 (0, 1)%R]).
  - simpl. lia.
  - simpl. lia.
  - intros _. split; [reflexivity|]. repeat constructor.
  - repeat constructor.
Defined.

End loss_facts.

(** ** The error metric as a minimum over the global phase *)

Section minimum_facts.
Local Open Scope R_scope.

Lemma Csum_vdot_swap (x y : list C) :
  Csum (zip_with (λ a b, Cmul (Cconj a) b) y x)
  = Cconj (Csum (zip_with (λ a b, Cmul (Cconj a) b) x y)).
Proof.
  revert y. induction x as [|[a b] x IH]; intros [|[c d] y];
    try (unfold Cconj, C0; simpl; f_equal; ring).
  cbn [zip_with]. rewrite !Csum_cons, IH.
  destruct (Csum (zip_with (λ a b, Cmul (Cconj a) b) x y)) as [s t].
  unfold Cadd, Cmul, Cconj. cbn [fst snd]. f_equal; ring.
Qed.






(** X14. The error metric does not depend on the order of its two
    arguments, whether it is defined or not. *)
Theorem minAngMSE_symmetric (xt xest : list C) :
  minAngMSE xt xest = minAngMSE xest xt.
Proof.
  destruct (decide (length xt = length xest)) as [Hlen|Hlen].
  - destruct (decide (length xt = 0)%nat) as [Hz|Hz].
    { destruct xt, xest; try done. }
    rewrite (minAngMSE_value xt xest Hlen) by lia.
    rewrite (minAngMSE_value xest xt) by lia.
    rewrite (Csum_vdot_swap xt xest), Cabs_conj, Hlen.
    do 2 f_equal. ring.
  - unfold minAngMSE, vdot.
    rewrite (decide_False (P := length xt = length xest)) by done.
    rewrite (decide_False (P := length xest = length xt)) by done.
    by rewrite !decide_True by done.
Qed.

End minimum_facts.

(** ** Amplitudes, the random mask and the grid of frames *)

Section amplitude_facts.
Local Open Scope R_scope.

(** X15. No measured amplitude is negative.  Without noise the measurement
    is defined and every entry of every frame is at least 0.  With noise
    the same holds when the intensities are within the range of the
    Poisson sampler (the moduli of the signal are at most [B], those of
    the mask at most [K], at least 1, and [(M * N * B * K)^2] is at most
    [poisson_lam_max]) and the draws of the sampler are not negative. *)
Theorem measured_amplitudes_nonneg (cfg : config) (o : oracle)
    (xt : matrix C) (cnts : matrix Z) (xs ys : list Z) (tf : Z) (B K : R) :
  (0 ≤ pad_size cfg)%Z → (0 < L cfg ≤ N cfg)%Z → (0 < pitch cfg)%Z →
  (is_mask cfg = true → Np.has_shape (L cfg) (L cfg) (mask cfg)) →
  xlocations cfg = Some xs → ylocations cfg = Some ys →
  total_frame cfg = Some tf →
  Np.has_shape (N cfg) (N cfg) xt → Np.has_shape (N cfg) (N cfg) cnts →
  (is_noisy cfg = true →
     0 <= B ∧ 1 <= K
     ∧ Forall (Forall (λ z, Cabs z <= B)) xt
     ∧ (is_mask cfg = true → Forall (Forall (λ m, Cabs m <= K)) (mask cfg))
     ∧ (IZR (M cfg) * IZR (N cfg) * B * K) ^ 2 <= poisson_lam_max
     ∧ ∀ i r c m, 0 <= m → 0 <= poisson o i r c m) →
  ∃ imSeqLowRes,
    measurement cfg o xt cnts xs ys tf = Some imSeqLowRes
    ∧ Forall (Forall (Forall (λ v, 0 <= v))) imSeqLowRes.
Proof.
  intros Hpad HL Hp Hmask Hxs Hys Htf Hxt Hcnts Hrange.
  destruct (frames_inside cfg xs ys tf Hp ltac:(lia) Hxs Hys Htf)
    as [Hpos Hwin].
  destruct (measurement_spec cfg Hpad HL Hmask xs ys tf Hpos Hwin o xt cnts
              B K Hxt Hcnts) as (meas & Hmeas & _ & _ & Hnonneg).
  - intros Hnoise.
    destruct (Hrange Hnoise) as (HB & HK & HxtB & HmK & Hmax & _).
    by split_and!.
  - by exists meas.
Qed.

Lemma measured_amplitudes_nonneg_witness :
  ∃ imSeqLowRes,
    measurement cfg_masked turning (ones 4) (Np.full 4 4 1%Z)
      [0; 2; 0; 2]%Z [0; 0; 2; 2]%Z 4 = Some imSeqLowRes
    ∧ Forall (Forall (Forall (λ v, 0 <= v))) imSeqLowRes.
Proof.
  apply (measured_amplitudes_nonneg cfg_masked turning (ones 4)
           (Np.full 4 4 1%Z) [0; 2; 0; 2]%Z [0; 0; 2; 2]%Z 4 1 1).
  - simpl. lia.
  - simpl. lia.
  - simpl. lia.
  - intros _. split; [reflexivity|]. repeat constructor.
  - reflexivity.
  - reflexivity.
  - reflexivity.
  - split; [reflexivity|]. repeat constructor.
  - split; [reflexivity|]. repeat constructor.
  - intros _. split; [lra|]. split; [lra|]. split; [|split; [|split]].
    + apply full_Forall. rewrite Cabs_real; lra.
    + intros _. apply full_Forall. rewrite Cabs_real; lra.
    + change (IZR (M cfg_masked)) with 4.
      change (IZR (N cfg_masked)) with 4.
      pose proof poisson_lam_max_lower. lra.
    + intros i r c m Hm. simpl. lra.
Defined.

(** X16. The random phase mask has the shape of the window and entries of
    modulus 1; multiplying a block by it and dividing the product by it
    gives the block back. *)
Theorem random_phase_mask_undone (l : Z) (u : nat → nat → R) :
  (0 ≤ l)%Z →
  ∃ m, random_phase_mask l u = Some m
       ∧ Np.has_shape l l m
       ∧ Forall (Forall (λ z, Cabs z = 1)) m
       ∧ ∀ W, Np.has_shape l l W →
           ∃ Wm, Np.zip2 Cmul W m = Some Wm ∧ Np.zip2 Cdiv Wm m = Some W.
Proof.
  intros Hl. unfold random_phase_mask.
  destruct (Z.ltb_spec l 0); [lia|].
  eexists. split; [done|].
  set (m := (λ i, (λ j, cis (u i j * 2 * PI)) <$> seq 0 (Z.to_nat l))
              <$> seq 0 (Z.to_nat l)).
  assert (Np.shaped (Z.to_nat l) (Z.to_nat l) m) as Hm
    by apply (tabulate_is_shaped (λ i j, cis (u i j * 2 * PI))).
  assert (Forall (Forall (λ z, Cabs z = 1)) m) as Hunit.
  { apply Forall_fmap, Forall_forall. intros i _. simpl.
    apply Forall_fmap, Forall_forall. intros j _. simpl. apply Cabs_cis. }
  split; [by apply shaped_has_shape|]. split; [done|].
  intros W HW. apply shaped_has_shape in HW; [|lia..].
  destruct (zip2_shaped Cmul _ _ W m HW Hm) as [-> Hs].
  eexists. split; [done|].
  destruct (zip2_shaped Cdiv _ _ _ m Hs Hm) as [-> _]. f_equal.
  apply (zip_with2_undo Cmul Cdiv (λ z, Cabs z = 1)
           (Z.to_nat l) (Z.to_nat l)); try done.
  intros x y Hy. apply Cdiv_Cmul. intros ->.
  unfold Cabs, C0 in Hy. simpl in Hy.
  rewrite Rmult_0_l, Rplus_0_l, sqrt_0 in Hy. lra.
Qed.

Lemma random_phase_mask_undone_witness :
  ∃ m, random_phase_mask 2 (λ i j, INR (i + j) / 4) = Some m
       ∧ Np.has_shape 2 2 m
       ∧ Forall (Forall (λ z, Cabs z = 1)) m
       ∧ ∀ W, Np.has_shape 2 2 W →
           ∃ Wm, Np.zip2 Cmul W m = Some Wm ∧ Np.zip2 Cdiv Wm m = Some W.
Proof.
  apply (random_phase_mask_undone 2 (λ i j, INR (i + j) / 4)). lia.
Defined.

(** X17. The frames sit on a square grid in row-major order: with
    [n = N / pitch] positions per axis when the pitch divides N, frame
    [i] has the coordinates [((i mod n) * pitch, (i / n) * pitch)], both
    inside the array, and there are [n * n] frames. *)
Theorem frames_on_grid (cfg : config) (xs ys : list Z) (tf : Z) (i : nat) :
  (0 < pitch cfg)%Z → (0 ≤ N cfg)%Z → (pitch cfg | N cfg)%Z →
  xlocations cfg = Some xs → ylocations cfg = Some ys →
  total_frame cfg = Some tf → (i < Z.to_nat tf)%nat →
  let n := Z.to_nat (N cfg / pitch cfg) in
  Z.to_nat tf = (n * n)%nat
  ∧ xs !! i = Some (Z.of_nat (i mod n) * pitch cfg)%Z
  ∧ ys !! i = Some (Z.of_nat (i / n) * pitch cfg)%Z
  ∧ (0 ≤ Z.of_nat (i mod n) * pitch cfg < N cfg)%Z
  ∧ (0 ≤ Z.of_nat (i / n) * pitch cfg < N cfg)%Z.
Proof.
  intros Hp HN Hdiv Hxs Hys Htf Hi n.
  destruct (locations_spec cfg Hp HN)
    as (n' & xs' & ys' & Hxs' & Hys' & Htf' & Hle & Heq & Hin & Hat).
  simplify_eq. specialize (Heq Hdiv).
  assert (0 ≤ N cfg / pitch cfg)%Z as Hq by (apply Z.div_pos; lia).
  assert (n' = n) as -> by (unfold n; lia).
  assert (Z.to_nat ((N cfg / pitch cfg) ^ 2) = (n * n)%nat) as Hnn.
  { unfold n. rewrite Z.pow_2_r. rewrite Z2Nat.inj_mul by done. done. }
  rewrite Hnn in Hi. split; [done|].
  destruct (Hat i Hi) as [Hx Hy]. split; [done|]. split; [done|].
  assert (0 < n)%nat as Hn by (destruct n; [simpl in Hi|]; lia).
  split; apply Hin.
  - apply Nat.mod_upper_bound. lia.
  - apply Nat.Div0.div_lt_upper_bound. lia.
Qed.

Lemma frames_on_grid_witness :
  Z.to_nat 4 = (Z.to_nat (4 / 2) * Z.to_nat (4 / 2))%nat
  ∧ [0; 2; 0; 2]%Z !! 3%nat
    = Some (Z.of_nat (3 mod Z.to_nat (4 / 2)) * 2)%Z
  ∧ [0; 0; 2; 2]%Z !! 3%nat
    = Some (Z.of_nat (3 / Z.to_nat (4 / 2)) * 2)%Z
  ∧ (0 ≤ Z.of_nat (3 mod Z.to_nat (4 / 2)) * 2 < 4)%Z
  ∧ (0 ≤ Z.of_nat (3 / Z.to_nat (4 / 2)) * 2 < 4)%Z.
Proof.
  apply (frames_on_grid cfg_wrap [0; 2; 0; 2]%Z [0; 0; 2; 2]%Z 4 3).
  - simpl. lia.
  - simpl. lia.
  - exists 2%Z. reflexivity.
  - reflexivity.
  - reflexivity.
  - reflexivity.
  - simpl. lia.
Defined.

End amplitude_facts.

(** ** The transforms of the library, there and back *)

(** X18. On an array with at least one row and one column the two
    transforms are defined and undo each other, in both orders. *)
Theorem transforms_undo_each_other (r c : nat) (m : matrix C) :
  0 < r → 0 < c → Np.shaped r c m →
  ∃ f g, fft2 m = Some f ∧ ifft2 f = Some m
         ∧ ifft2 m = Some g ∧ fft2 g = Some m.
Proof.
  intros Hr Hc Hm.
  destruct (ifft2_fft2 r c m Hr Hc Hm) as (f & Hf & _ & Hfm).
  destruct (fft2_ifft2 r c m Hr Hc Hm) as (g & Hg & _ & Hgm).
  by exists f, g.
Qed.

Lemma transforms_undo_each_other_witness :
  ∃ f g, fft2 [[(1, 0); (0, 2); (3, 1)]; [(0, 0); (1, 1); (2, 0)]]%R = Some f
         ∧ ifft2 f = Some [[(1, 0); (0, 2); (3, 1)]; [(0, 0); (1, 1); (2, 0)]]%R
         ∧ ifft2 [[(1, 0); (0, 2); (3, 1)]; [(0, 0); (1, 1); (2, 0)]]%R
           = Some g
         ∧ fft2 g = Some [[(1, 0); (0, 2); (3, 1)]; [(0, 0); (1, 1); (2, 0)]]%R.
Proof.
  apply (transforms_undo_each_other 2 3
           [[(1, 0); (0, 2); (3, 1)]; [(0, 0); (1, 1); (2, 0)]]%R).
  - lia.
  - lia.
  - split; [reflexivity|]. repeat constructor.
Defined.

(** ** The loss at the true spectrum *)

(** X19. Without noise the loss of the gradient stage is 0 at the
    normalised spectrum of the object: the batch of its windows, fed to
    the graph together with the measurement, gives a sum of squared
    amplitude differences of 0. *)
Theorem loss_zero_at_true_spectrum (cfg : config) (o : oracle)
    (xt : matrix C) (cnts : matrix Z) (xs ys : list Z) (tf : Z) :
  (0 ≤ pad_size cfg)%Z → (0 < L cfg ≤ N cfg)%Z → (0 < pitch cfg)%Z →
  (is_mask cfg = true → Np.has_shape (L cfg) (L cfg) (mask cfg)) →
  is_noisy cfg = false →
  xlocations cfg = Some xs → ylocations cfg = Some ys →
  total_frame cfg = Some tf →
  Np.has_shape (N cfg) (N cfg) xt → Np.has_shape (N cfg) (N cfg) cnts →
  ∃ f objectFT imSeqLowRes batch_tensor,
    fft2 xt = Some f
    ∧ Np.zip2 (λ z c, Cdivr z (sqrt (IZR c)))
        (mmap (λ z, Cdivr z (IZR (N cfg))) (fftshift f)) cnts
      = Some objectFT
    ∧ measurement cfg o xt cnts xs ys tf = Some imSeqLowRes
    ∧ extract_batch cfg objectFT xs ys tf = Some batch_tensor
    ∧ Tf.loss cfg batch_tensor imSeqLowRes = Some C0.
Proof.
  intros Hpad HL Hp Hmask Hnoise Hxs Hys Htf Hxt Hcnts.
  destruct (frames_inside cfg xs ys tf Hp ltac:(lia) Hxs Hys Htf)
    as [Hpos Hwin].
  destruct (measurement_frames cfg Hpad HL Hmask xs ys tf Hpos Hwin o xt cnts
              Hnoise Hxt Hcnts)
    as (f & objectFT & meas & Hf & Hobj & Hos & Hmeas & Lmeas & Smeas
        & Hexact).
  destruct (extract_batch_windows cfg objectFT xs ys tf Hos ltac:(lia)
              Hpos Hwin) as (b & Hb & Lb & Hcells).
  exists f, objectFT, meas, b. split_and!; try done.
  apply loss_at_forward.
  - unfold M. lia.
  - rewrite forward_tf_np by done. apply mapM_Some.
    apply Forall2_same_length_lookup. split; [lia|].
    intros i W F HW HF.
    assert (i < Z.to_nat tf) as Hi.
    { apply lookup_lt_Some in HW. lia. }
    destruct (Hcells i Hi) as (x & y & Hx & Hy & HW').
    destruct (Hexact i Hi) as (x' & y' & F' & Hx' & Hy' & HF' & Hfwd).
    by simplify_eq.
  - eapply Forall_impl; [exact Smeas|]. intros F HF.
    apply shaped_has_shape; [unfold M; lia..|done].
Qed.

Lemma loss_zero_at_true_spectrum_witness :
  ∃ f objectFT imSeqLowRes batch_tensor,
    fft2 (ones 4) = Some f
    ∧ Np.zip2 (λ z c, Cdivr z (sqrt (IZR c)))
        (mmap (λ z, Cdivr z (IZR 4)) (fftshift f)) (Np.full 4 4 1%Z)
      = Some objectFT
    ∧ measurement cfg_phase still (ones 4) (Np.full 4 4 1%Z)
        [0; 2; 0; 2]%Z [0; 0; 2; 2]%Z 4 = Some imSeqLowRes
    ∧ extract_batch cfg_phase objectFT [0; 2; 0; 2]%Z [0; 0; 2; 2]%Z 4
      = Some batch_tensor
    ∧ Tf.loss cfg_phase batch_tensor imSeqLowRes = Some C0.
Proof.
  apply (loss_zero_at_true_spectrum cfg_phase still (ones 4)
           (Np.full 4 4 1%Z) [0; 2; 0; 2]%Z [0; 0; 2; 2]%Z 4).
  - simpl. lia.
  - simpl. lia.
  - simpl. lia.
  - intros _. split; [reflexivity|]. repeat constructor.
  - reflexivity.
  - reflexivity.
  - reflexivity.
  - reflexivity.
  - split; [reflexivity|]. repeat constructor.
  - split; [reflexivity|]. repeat constructor.
Defined.

(** ** The descent step, cell by cell *)

Lemma at2_zip_with2 {A B D : Type} (f : A → B → D) (a : matrix A)
    (b : matrix B) (p q : nat) :
  at2 (zip_with (zip_with f) a b) p q
  = x ← at2 a p q; y ← at2 b p q; Some (f x y).
Proof.
  unfold at2. rewrite lookup_zip_with.
  destruct (a !! p) as [ra|]; simpl; [|done].
  destruct (b !! p) as [rb|]; simpl.
  - rewrite lookup_zip_with. destruct (ra !! q); simpl; [|done].
    by destruct (rb !! q).
  - by destruct (ra !! q).
Qed.

Lemma at2_mmap {A B : Type} (f : A → B) (m : matrix A) (p q : nat) :
  at2 (mmap f m) p q = f <$> at2 m p q.
Proof.
  unfold at2, mmap. rewrite list_lookup_fmap.
  destruct (m !! p) as [row|]; simpl; [|done].
  by rewrite list_lookup_fmap.
Qed.

Lemma at2_full {A : Type} (r c : Z) (v : A) (p q : nat) :
  (Z.of_nat p < r)%Z → (Z.of_nat q < c)%Z →
  at2 (Np.full r c v) p q = Some v.
Proof.
  intros Hp Hq. unfold at2, Np.full.
  rewrite lookup_replicate_2 by lia. simpl.
  by rewrite lookup_replicate_2 by lia.
Qed.

Lemma Csum_snoc (l : list C) (z : C) : Csum (l ++ [z]) = Cadd (Csum l) z.
Proof.
  induction l as [|y l IH].
  - by rewrite app_nil_l, Csum_cons, Cadd_0_l, Cadd_0_r.
  - rewrite <- app_comm_cons, !Csum_cons, IH. apply Cadd_assoc.
Qed.

(** X20. The descent step, cell by cell: for gradient blocks of the size
    of the window, one per frame of the grid, the update is defined and
    cell [(p, q)] of the new estimate is
    [est[p, q] - lr * G[p, q] / counts[p, q]], where [G[p, q]] adds up, over
    all frames, the cell of the block of the frame at the cyclic offset
    [((p - x) mod N, (q - y) mod N)] whenever both offsets are below L. *)
Theorem gd_update_cells (cfg : config) (lr : R) (cnts : matrix Z)
    (xs ys : list Z) (tf : Z) (imageRecoverFT : matrix C)
    (gradient_tensor : list (matrix C)) :
  (0 < pitch cfg)%Z → (0 ≤ L cfg ≤ N cfg)%Z →
  total_frame cfg = Some tf →
  xlocations cfg = Some xs → ylocations cfg = Some ys →
  Np.has_shape (N cfg) (N cfg) imageRecoverFT →
  Np.has_shape (N cfg) (N cfg) cnts →
  length gradient_tensor = Z.to_nat tf →
  Forall (Np.has_shape (L cfg) (L cfg)) gradient_tensor →
  ∃ e, gd_update cfg lr cnts xs ys tf imageRecoverFT gradient_tensor = Some e
       ∧ Np.has_shape (N cfg) (N cfg) e
       ∧ ∀ (p q : nat) (v : C) (c : Z),
           at2 imageRecoverFT p q = Some v → at2 cnts p q = Some c →
           at2 e p q
           = Some (Csub v (Cdivr (Cscale lr (Csum (
               (λ i, match xs !! i, ys !! i, gradient_tensor !! i with
                     | Some x, Some y, Some g =>
                         let dx := ((Z.of_nat p - x) `mod` N cfg)%Z in
                         let dy := ((Z.of_nat q - y) `mod` N cfg)%Z in
                         if decide ((dx < L cfg)%Z ∧ (dy < L cfg)%Z)
                         then default C0 (at2 g (Z.to_nat dx) (Z.to_nat dy))
                         else C0
                     | _, _, _ => C0
                     end) <$> seq 0 (Z.to_nat tf)))) (IZR c))).
Proof.
  intros Hp HL Htf Hxs Hys Hest Hcnts Lgt Sgt.
  destruct (frames_inside cfg xs ys tf Hp ltac:(lia) Hxs Hys Htf)
    as [Hpos Hwin].
  set (contrib := λ (p q i : nat),
         match xs !! i, ys !! i, gradient_tensor !! i with
         | Some x, Some y, Some g =>
             let dx := ((Z.of_nat p - x) `mod` N cfg)%Z in
             let dy := ((Z.of_nat q - y) `mod` N cfg)%Z in
             if decide ((dx < L cfg)%Z ∧ (dy < L cfg)%Z)
             then default C0 (at2 g (Z.to_nat dx) (Z.to_nat dy))
             else C0
         | _, _, _ => C0
         end).
  unfold gd_update.
  destruct (zeros_spec C0 (N cfg) (N cfg)) as (-> & Hz & _); [lia..|].
  cbn [mbind option_bind].
  destruct (foldlM_range (scatter_frame cfg gradient_tensor xs ys)
              (λ k s, Np.has_shape (N cfg) (N cfg) s
                      ∧ ∀ p q : nat,
                          (Z.of_nat p < N cfg)%Z → (Z.of_nat q < N cfg)%Z →
                          at2 s p q
                          = Some (Csum (contrib p q <$> seq 0 k)))
              (Z.to_nat tf) (Np.full (N cfg) (N cfg) C0))
    as (G & -> & HG & Hcells).
  - split; [done|]. intros p q Hpn Hqn. by apply at2_full.
  - intros k s Hk [Hs Hsum].
    destruct (Hwin k Hk) as (x & y & Hx & Hy & Hxb & Hyb).
    unfold scatter_frame. rewrite Hx, Hy. cbn [mbind option_bind].
    destruct (lookup_lt_is_Some_2 gradient_tensor k ltac:(lia)) as [g Hg].
    rewrite Hg. cbn [mbind option_bind].
    pose proof (Forall_lookup_1 _ _ _ _ Sgt Hg) as Hgs. simpl in Hgs.
    destruct (wrapped_update_cells cfg Cadd s g x y Hs Hgs HL Hxb Hyb)
      as (s' & Hw & Hs' & Hcell).
    pose proof (Hw : scatter_add cfg s x y g = Some s') as ->.
    eexists. split; [done|]. split; [done|].
    intros p q Hpn Hqn.
    rewrite (Hcell p q Hpn Hqn), (Hsum p q Hpn Hqn).
    rewrite seq_S, fmap_app.
    change (contrib p q <$> [0 + k]) with [contrib p q k].
    rewrite Csum_snoc.
    rewrite (wrap_index_mod cfg x p Hxb Hpn), (wrap_index_mod cfg y q Hyb Hqn).
    assert (contrib p q k
            = if decide (((Z.of_nat p - x) `mod` N cfg < L cfg)%Z
                         ∧ ((Z.of_nat q - y) `mod` N cfg < L cfg)%Z)
              then default C0
                     (at2 g (Z.to_nat ((Z.of_nat p - x) `mod` N cfg))
                        (Z.to_nat ((Z.of_nat q - y) `mod` N cfg)))
              else C0) as ->
      by (unfold contrib; by rewrite Hx, Hy, Hg).
    destruct (decide ((Z.of_nat p - x) `mod` N cfg < L cfg)%Z) as [H1|H1],
             (decide ((Z.of_nat q - y) `mod` N cfg < L cfg)%Z) as [H2|H2].
    + rewrite decide_True by done.
      assert (0 < N cfg)%Z as HN by lia.
      pose proof (Z.mod_pos_bound (Z.of_nat p - x) (N cfg) HN).
      pose proof (Z.mod_pos_bound (Z.of_nat q - y) (N cfg) HN).
      destruct (at2_inside _ _ g
                  (Z.to_nat ((Z.of_nat p - x) `mod` N cfg))
                  (Z.to_nat ((Z.of_nat q - y) `mod` N cfg)) Hgs)
        as [d ->]; [lia..|].
      done.
    + rewrite decide_False by tauto. by rewrite Cadd_0_r.
    + rewrite decide_False by tauto. by rewrite Cadd_0_r.
    + rewrite decide_False by tauto. by rewrite Cadd_0_r.
  - cbn [mbind option_bind].
    apply shaped_has_shape in HG; [|lia..].
    apply shaped_has_shape in Hest; [|lia..].
    apply shaped_has_shape in Hcnts; [|lia..].
    destruct (zip2_shaped (λ g c, Cdivr g (IZR c)) _ _
                (mmap (Cscale lr) G) cnts (mmap_shaped _ _ _ _ HG) Hcnts)
      as [-> Hstep].
    cbn [mbind option_bind].
    destruct (zip2_shaped Csub _ _ imageRecoverFT _ Hest Hstep) as [-> He].
    eexists. split; [done|].
    split; [apply shaped_has_shape; [lia..|done]|].
    intros p q v c Hv Hc.
    assert (p < Z.to_nat (N cfg) ∧ q < Z.to_nat (N cfg)) as [Hpn Hqn].
    { destruct (decide (p < Z.to_nat (N cfg))) as [|Hge];
        [destruct (decide (q < Z.to_nat (N cfg))) as [|Hge]; [done|]|].
      - rewrite (at2_outside _ _ _ p q Hest) in Hv by lia. done.
      - rewrite (at2_outside _ _ _ p q Hest) in Hv by lia. done. }
    rewrite !at2_zip_with2, at2_mmap, Hv, Hc.
    rewrite (Hcells p q) by lia. done.
Qed.

Lemma gd_update_cells_witness :
  ∃ e, gd_update cfg_wrap 0.5 (Np.full 4 4 4%Z) [0; 2; 0; 2]%Z [0; 0; 2; 2]%Z 4
         (ones 4) (replicate 4 (ones 3)) = Some e
       ∧ Np.has_shape 4 4 e
       ∧ ∀ (p q : nat) (v : C) (c : Z),
           at2 (ones 4) p q = Some v → at2 (Np.full 4 4 4%Z) p q = Some c →
           at2 e p q
           = Some (Csub v (Cdivr (Cscale 0.5 (Csum (
               (λ i, match [0; 2; 0; 2]%Z !! i, [0; 0; 2; 2]%Z !! i,
                           replicate 4 (ones 3) !! i with
                     | Some x, Some y, Some g =>
                         let dx := ((Z.of_nat p - x) `mod` 4)%Z in
                         let dy := ((Z.of_nat q - y) `mod` 4)%Z in
                         if decide ((dx < 3)%Z ∧ (dy < 3)%Z)
                         then default C0 (at2 g (Z.to_nat dx) (Z.to_nat dy))
                         else C0
                     | _, _, _ => C0
                     end) <$> seq 0 (Z.to_nat 4)))) (IZR c))).
Proof.
  apply (gd_update_cells cfg_wrap 0.5 (Np.full 4 4 4%Z)
           [0; 2; 0; 2]%Z [0; 0; 2; 2]%Z 4 (ones 4) (replicate 4 (ones 3))).
  - simpl. lia.
  - simpl. lia.
  - reflexivity.
  - reflexivity.
  - reflexivity.
  - split; [reflexivity|]. repeat constructor.
  - split; [reflexivity|]. repeat constructor.
  - reflexivity.
  - repeat constructor.
Defined.

(** ** The energy map, cell by cell *)

Lemma at2_map2 {A : Type} (f : A → A) rr rc (m : matrix A) (cols i j : nat) :
  Forall (λ row, length row = cols) m →
  at2 (Np.map2 f rr rc m) i j
  = if decide (Np.lo (length m) rr ≤ i < Np.hi (length m) rr
               ∧ Np.lo cols rc ≤ j < Np.hi cols rc)
    then f <$> at2 m i j else at2 m i j.
Proof.
  intros Hrect. unfold at2, Np.map2. rewrite lookup_map1.
  destruct (m !! i) as [row|] eqn:Hrow.
  - pose proof (Forall_lookup_1 _ _ _ _ Hrect Hrow) as Hlen. simpl in Hlen.
    destruct (decide (Np.lo (length m) rr ≤ i < Np.hi (length m) rr))
      as [Hi|Hi]; simpl.
    + rewrite lookup_map1, Hlen.
      destruct (decide (Np.lo cols rc ≤ j < Np.hi cols rc)) as [Hj|Hj].
      * by rewrite decide_True by done.
      * by rewrite decide_False by tauto.
    + by rewrite decide_False by tauto.
  - by repeat case_decide.
Qed.

Lemma sumZ_snoc (l : list Z) (v : Z) : sumZ (l ++ [v]) = (sumZ l + v)%Z.
Proof. rewrite sumZ_app. unfold sumZ at 2. simpl. lia. Qed.

Lemma sumZ_fmap_add4 {A : Type} (a b c d e : A → Z) (l : list A) :
  (∀ x, e x = (a x + b x + c x + d x)%Z) →
  sumZ (e <$> l)
  = (sumZ (a <$> l) + sumZ (b <$> l) + sumZ (c <$> l) + sumZ (d <$> l))%Z.
Proof.
  intros H. induction l as [|x l IH]; [done|].
  rewrite !fmap_cons.
  change (e x + sumZ (e <$> l)
          = a x + sumZ (a <$> l) + (b x + sumZ (b <$> l))
            + (c x + sumZ (c <$> l)) + (d x + sumZ (d <$> l)))%Z.
  rewrite IH, H. lia.
Qed.

(** One axis: a position [p] of the array is under the window at [x] on
    the doubled grid, at [p] or at [p + N], exactly when its cyclic offset
    from [x] is below L, and never at both. *)
Lemma doubled_axis (n l x : Z) (p : nat) :
  (0 ≤ l ≤ n)%Z → (0 ≤ x < n)%Z → (Z.of_nat p < n)%Z →
  ((if decide (x ≤ Z.of_nat p < x + l)%Z then 1 else 0)
   + (if decide (x ≤ Z.of_nat p + n < x + l)%Z then 1 else 0))%Z
  = if decide (((Z.of_nat p - x) `mod` n < l)%Z) then 1%Z else 0%Z.
Proof.
  intros Hl Hx Hp.
  destruct (Z_le_gt_dec x (Z.of_nat p)) as [Hle|Hgt].
  - rewrite (Z.mod_small (Z.of_nat p - x)) by lia.
    repeat case_decide; lia.
  - rewrite <- (Z.mod_unique (Z.of_nat p - x) n (-1) (Z.of_nat p - x + n))
      by lia.
    repeat case_decide; lia.
Qed.

(** The cells of the energy map, from the cells of the doubled grid. *)
Lemma counts_at (cfg : config) (xs ys : list Z) (tf : Z) :
  (0 < pitch cfg)%Z → (0 ≤ L cfg ≤ N cfg)%Z →
  xlocations cfg = Some xs → ylocations cfg = Some ys →
  total_frame cfg = Some tf →
  ∃ c, counts cfg = Some c
       ∧ Np.has_shape (N cfg) (N cfg) c
       ∧ ∀ p q : nat, (Z.of_nat p < N cfg)%Z → (Z.of_nat q < N cfg)%Z →
           at2 c p q
           = Some (sumZ (
               (λ i, match xs !! i, ys !! i with
                     | Some x, Some y =>
                         if decide (((Z.of_nat p - x) `mod` N cfg < L cfg)%Z
                                    ∧ ((Z.of_nat q - y) `mod` N cfg < L cfg)%Z)
                         then 1%Z else 0%Z
                     | _, _ => 0%Z
                     end) <$> seq 0 (Z.to_nat tf))).
Proof.
  intros Hp HL Hxs Hys Htf.
  destruct (frames_inside cfg xs ys tf Hp ltac:(lia) Hxs Hys Htf)
    as [Hpos Hwin].
  set (n := Z.to_nat (N cfg)).
  set (ind := λ (i j w : nat),
         match xs !! w, ys !! w with
         | Some x, Some y =>
             if decide ((x ≤ Z.of_nat i < x + L cfg)%Z
                        ∧ (y ≤ Z.of_nat j < y + L cfg)%Z)
             then 1%Z else 0%Z
         | _, _ => 0%Z
         end).
  unfold counts, counts_2N. rewrite Htf, Hxs, Hys. cbn [mbind option_bind].
  destruct (zeros_spec 0%Z (2 * N cfg) (2 * N cfg)) as (-> & Hzs & _);
    [lia..|].
  cbn [mbind option_bind].
  destruct (foldlM_range (count_window cfg xs ys)
              (λ k cnt, Np.has_shape (2 * N cfg) (2 * N cfg) cnt
                        ∧ ∀ i j : nat, i < 2 * n → j < 2 * n →
                            at2 cnt i j = Some (sumZ (ind i j <$> seq 0 k)))
              (Z.to_nat tf) (Np.full (2 * N cfg) (2 * N cfg) 0%Z))
    as (cnt & -> & Hcnt & Hcells).
  - split; [done|]. intros i j Hi Hj. apply at2_full; lia.
  - intros k cnt Hk [Hsh Hsum].
    destruct (Hwin k Hk) as (x & y & Hx & Hy & Hxb & Hyb).
    unfold count_window. rewrite Hx, Hy. cbn [mbind option_bind].
    eexists. split; [done|].
    destruct (has_shape_nat _ _ _ Hsh) as [Hlen Hrect].
    destruct (map2_shape Z.succ (Np.rng x (x + L cfg)) (Np.rng y (y + L cfg))
                cnt _ Hrect) as [Hlen' Hrect'].
    split.
    + apply has_shape_of_nat; [lia|lia| |done].
      unfold footprint. simpl. lia.
    + intros i j Hi Hj. unfold footprint. cbn [fst snd].
      rewrite (at2_map2 _ _ _ _ (Z.to_nat (2 * N cfg))) by done.
      rewrite Hlen, !lo_rng, !hi_rng by lia.
      rewrite (Hsum i j Hi Hj).
      rewrite seq_S, fmap_app.
      change (ind i j <$> [0 + k]) with [ind i j k].
      rewrite sumZ_snoc.
      assert (ind i j k
              = if decide ((x ≤ Z.of_nat i < x + L cfg)%Z
                           ∧ (y ≤ Z.of_nat j < y + L cfg)%Z)
                then 1%Z else 0%Z) as ->
        by (unfold ind; by rewrite Hx, Hy).
      destruct (decide ((x ≤ Z.of_nat i < x + L cfg)%Z
                        ∧ (y ≤ Z.of_nat j < y + L cfg)%Z)) as [Hin|Hout].
      * rewrite decide_True by lia. done.
      * rewrite decide_False by lia. f_equal. lia.
  - cbn [mbind option_bind].
    destruct (fold_quadrants_spec (N cfg) cnt ltac:(lia) Hcnt)
      as (Hfold & Hshape & _).
    rewrite Hfold. eexists. split; [done|]. split; [done|].
    intros p q Hpn Hqn.
    destruct (has_shape_nat _ _ _ Hcnt) as [Hlen Hrect].
    assert (∀ a b c d : Z,
              (a = 0 ∧ b = N cfg ∨ a = N cfg ∧ b = 2 * N cfg)%Z →
              (c = 0 ∧ d = N cfg ∨ c = N cfg ∧ d = 2 * N cfg)%Z →
              at2 (Np.get2 (Np.rng a b) (Np.rng c d) cnt) p q
              = Some (sumZ (ind (Z.to_nat a + p) (Z.to_nat c + q)
                              <$> seq 0 (Z.to_nat tf)))) as Hq.
    { intros a b c d Hab Hcd.
      rewrite (at2_get2 _ _ _ (Z.to_nat (2 * N cfg))) by done.
      rewrite Hlen. unfold Np.width.
      rewrite !lo_rng, !hi_rng by lia.
      rewrite decide_True by lia.
      apply Hcells; lia. }
    rewrite !at2_zip_with2.
    rewrite (Hq 0 (N cfg) 0 (N cfg))%Z by lia.
    rewrite (Hq 0 (N cfg) (N cfg) (2 * N cfg))%Z by lia.
    rewrite (Hq (N cfg) (2 * N cfg) 0 (N cfg))%Z by lia.
    rewrite (Hq (N cfg) (2 * N cfg) (N cfg) (2 * N cfg))%Z by lia.
    cbn [mbind option_bind]. f_equal. symmetry.
    apply sumZ_fmap_add4. intros w. unfold ind.
    destruct (xs !! w) as [x|] eqn:Hx; [|done].
    destruct (ys !! w) as [y|] eqn:Hy; [|done].
    destruct (locations_range cfg xs ys w x y ltac:(lia) Hxs Hys Hx Hy)
      as [Hxb Hyb].
    pose proof (doubled_axis (N cfg) (L cfg) x p HL Hxb Hpn) as Dx.
    pose proof (doubled_axis (N cfg) (L cfg) y q HL Hyb Hqn) as Dy.
    replace (Z.of_nat (Z.to_nat 0 + p)) with (Z.of_nat p) by lia.
    replace (Z.of_nat (Z.to_nat 0 + q)) with (Z.of_nat q) by lia.
    replace (Z.of_nat (Z.to_nat (N cfg) + p)) with (Z.of_nat p + N cfg)%Z
      by lia.
    replace (Z.of_nat (Z.to_nat (N cfg) + q)) with (Z.of_nat q + N cfg)%Z
      by lia.
    repeat case_decide; lia.
Qed.

(** X21. The energy map counts cyclic coverage: for a positive pitch and
    a window no larger than the array, [counts] is defined, has the shape
    N x N, and its cell [(p, q)] is the number of frames [i] whose window
    contains [(p, q)] cyclically, that is with [(p - x_i) mod N < L] and
    [(q - y_i) mod N < L]; the accumulation on the 2N x 2N grid followed
    by the sum of the four quadrants computes this number. *)
Theorem counts_cells (cfg : config) (xs ys : list Z) (tf : Z) :
  (0 < pitch cfg)%Z → (0 ≤ L cfg ≤ N cfg)%Z →
  xlocations cfg = Some xs → ylocations cfg = Some ys →
  total_frame cfg = Some tf →
  ∃ c, counts cfg = Some c
       ∧ Np.has_shape (N cfg) (N cfg) c
       ∧ ∀ p q : nat, (Z.of_nat p < N cfg)%Z → (Z.of_nat q < N cfg)%Z →
           at2 c p q
           = Some (sumZ (
               (λ i, match xs !! i, ys !! i with
                     | Some x, Some y =>
                         if decide (((Z.of_nat p - x) `mod` N cfg < L cfg)%Z
                                    ∧ ((Z.of_nat q - y) `mod` N cfg < L cfg)%Z)
                         then 1%Z else 0%Z
                     | _, _ => 0%Z
                     end) <$> seq 0 (Z.to_nat tf))).
Proof. apply counts_at. Qed.

Lemma counts_cells_witness :
  ∃ c, counts cfg_wrap = Some c
       ∧ Np.has_shape 4 4 c
       ∧ ∀ p q : nat, (Z.of_nat p < 4)%Z → (Z.of_nat q < 4)%Z →
           at2 c p q
           = Some (sumZ (
               (λ i, match [0; 2; 0; 2]%Z !! i, [0; 0; 2; 2]%Z !! i with
                     | Some x, Some y =>
                         if decide (((Z.of_nat p - x) `mod` 4 < 3)%Z
                                    ∧ ((Z.of_nat q - y) `mod` 4 < 3)%Z)
                         then 1%Z else 0%Z
                     | _, _ => 0%Z
                     end) <$> seq 0 (Z.to_nat 4))).
Proof.
  apply (counts_cells cfg_wrap [0; 2; 0; 2]%Z [0; 0; 2; 2]%Z 4).
  - simpl. lia.
  - simpl. lia.
  - reflexivity.
  - reflexivity.
  - reflexivity.
Defined.

(** ** A constant energy map *)

Lemma sumZ_fmap_ext {A : Type} (f g : A → Z) (l : list A) :
  (∀ x, x ∈ l → f x = g x) → sumZ (f <$> l) = sumZ (g <$> l).
Proof.
  intros H. f_equal. apply list_fmap_ext. intros i x Hx.
  apply H. by eapply list_elem_of_lookup_2.
Qed.

Lemma sumZ_fmap_scale {A : Type} (f : A → Z) (c : Z) (l : list A) :
  sumZ ((λ x, f x * c)%Z <$> l) = (sumZ (f <$> l) * c)%Z.
Proof.
  induction l as [|x l IH]; [done|]. rewrite !fmap_cons.
  change (f x * c + sumZ ((λ x, f x * c)%Z <$> l)
          = (f x + sumZ (f <$> l)) * c)%Z.
  rewrite IH. lia.
Qed.

Lemma sumZ_fmap_add {A : Type} (f g : A → Z) (l : list A) :
  sumZ ((λ x, f x + g x)%Z <$> l) = (sumZ (f <$> l) + sumZ (g <$> l))%Z.
Proof.
  induction l as [|x l IH]; [done|]. rewrite !fmap_cons.
  change (f x + g x + sumZ ((λ x, f x + g x)%Z <$> l)
          = f x + sumZ (f <$> l) + (g x + sumZ (g <$> l)))%Z.
  rewrite IH. lia.
Qed.

(** The number of positions of [0 .. n-1] in an interval. *)
Lemma count_interval (lo hi n : nat) :
  sumZ ((λ a, if decide (lo ≤ a < hi) then 1%Z else 0%Z) <$> seq 0 n)
  = Z.of_nat (hi `min` n - lo `min` n).
Proof.
  induction n as [|n IH]; [simpl; lia|].
  rewrite seq_S, fmap_app.
  change ((λ a, if decide (lo ≤ a < hi) then 1%Z else 0%Z) <$> [0 + n])
    with [if decide (lo ≤ n < hi) then 1%Z else 0%Z].
  rewrite sumZ_snoc, IH. case_decide; lia.
Qed.

(** The sum over a grid in row-major order of a product of a function of
    the column and a function of the row. *)
Lemma sumZ_grid (F G : nat → Z) (n rows : nat) :
  0 < n →
  sumZ ((λ i, (F (i mod n)%nat * G (i / n)%nat)%Z) <$> seq 0 (n * rows))
  = (sumZ (F <$> seq 0 n) * sumZ (G <$> seq 0 rows))%Z.
Proof.
  intros Hn. induction rows as [|r IH].
  - rewrite Nat.mul_0_r. simpl. lia.
  - assert (sumZ ((λ i, (F (i mod n)%nat * G (i / n)%nat)%Z)
                    <$> seq (n * r) n)
            = (sumZ (F <$> seq 0 n) * G r)%Z) as Hrow.
    { replace (seq (n * r) n) with ((λ a, n * r + a) <$> seq 0 n)
        by (rewrite fmap_add_seq; f_equal; lia).
      rewrite <- list_fmap_compose, <- sumZ_fmap_scale.
      apply sumZ_fmap_ext. intros a Ha. apply elem_of_seq in Ha. simpl.
      replace (n * r + a) with (a + r * n) by lia.
      rewrite Nat.Div0.mod_add, Nat.div_add by lia.
      rewrite Nat.mod_small, Nat.div_small by lia. done. }
    replace (n * S r) with (n * r + n) by lia.
    rewrite seq_app, fmap_app, sumZ_app, IH. cbn [Nat.add].
    rewrite Hrow.
    rewrite (seq_S r 0), fmap_app.
    change (G <$> [0 + r]) with [G r].
    rewrite sumZ_snoc. lia.
Qed.

(** A multiple of the pitch plus a remainder, taken modulo the size. *)
Lemma mod_of_multiple (n d k r : Z) :
  (0 < n)%Z → (0 < d)%Z → (0 ≤ r < d)%Z →
  ((k * d + r) `mod` (n * d) = (k `mod` n) * d + r)%Z.
Proof.
  intros Hn Hd Hr. symmetry.
  pose proof (Z.mod_pos_bound k n Hn) as Hk.
  apply (Z.mod_unique _ _ (k / n)); [nia|].
  pose proof (Z.div_mod k n ltac:(lia)) as Hdm. nia.
Qed.

(** Along one axis, a position is under [L / pitch] windows. *)
Lemma axis_count (n m d : Z) (p : nat) :
  (0 < d)%Z → (0 ≤ m ≤ n)%Z → (Z.of_nat p < n * d)%Z →
  sumZ ((λ a, if decide (((Z.of_nat p - Z.of_nat a * d) `mod` (n * d)
                          < m * d)%Z) then 1%Z else 0%Z)
          <$> seq 0 (Z.to_nat n)) = m.
Proof.
  intros Hd Hm Hp.
  assert (0 < n)%Z as Hn by nia.
  set (p0 := (Z.of_nat p / d)%Z). set (r := (Z.of_nat p `mod` d)%Z).
  pose proof (Z.div_mod (Z.of_nat p) d ltac:(lia)) as Hdm.
  pose proof (Z.mod_pos_bound (Z.of_nat p) d Hd) as Hr.
  fold p0 r in Hdm, Hr.
  assert (0 ≤ p0 < n)%Z as Hp0.
  { split; [apply Z.div_pos; lia|]. apply Z.div_lt_upper_bound; lia. }
  set (lo1 := Z.to_nat (Z.max 0 (p0 - m + 1))).
  set (hi1 := Z.to_nat (p0 + 1)).
  set (lo2 := Z.to_nat (Z.min n (p0 + n - m + 1))).
  rewrite (sumZ_fmap_ext _
             (λ a, (if decide (lo1 ≤ a < hi1)%nat then 1 else 0)
                   + (if decide (lo2 ≤ a < Z.to_nat n)%nat then 1 else 0))%Z).
  - rewrite (sumZ_fmap_add
               (λ a, if decide (lo1 ≤ a < hi1)%nat then 1%Z else 0%Z)
               (λ a, if decide (lo2 ≤ a < Z.to_nat n)%nat then 1%Z else 0%Z)).
    rewrite !count_interval. lia.
  - intros a Ha. apply elem_of_seq in Ha.
    replace (Z.of_nat p - Z.of_nat a * d)%Z
      with ((p0 - Z.of_nat a) * d + r)%Z by lia.
    rewrite mod_of_multiple by lia.
    assert (∀ k, (0 ≤ k)%Z → (k * d + r < m * d)%Z ↔ (k < m)%Z) as Hiff.
    { intros k Hk. split; intros; nia. }
    destruct (Z_le_gt_dec (Z.of_nat a) p0) as [Hle|Hgt].
    + rewrite (Z.mod_small (p0 - Z.of_nat a)) by lia.
      destruct (decide ((p0 - Z.of_nat a) * d + r < m * d)%Z) as [H|H].
      * apply Hiff in H; [|lia].
        rewrite decide_True, decide_False by lia. done.
      * assert (¬ (p0 - Z.of_nat a < m)%Z) by (rewrite <- Hiff; [done|lia]).
        rewrite !decide_False by lia. done.
    + rewrite <- (Z.mod_unique (p0 - Z.of_nat a) n (-1)
                    (p0 - Z.of_nat a + n)) by lia.
      destruct (decide ((p0 - Z.of_nat a + n) * d + r < m * d)%Z) as [H|H].
      * apply Hiff in H; [|lia].
        rewrite decide_False, decide_True by lia. done.
      * assert (¬ (p0 - Z.of_nat a + n < m)%Z) by (rewrite <- Hiff; [done|lia]).
        rewrite !decide_False by lia. done.
Qed.

(** X22. When the pitch divides both the size and the window, the energy
    map is constant: every entry of [counts] is [(L / pitch)^2], so the
    divisions by [counts] and by its root are divisions by one number. *)
Theorem counts_constant (cfg : config) :
  (0 < pitch cfg)%Z → (pitch cfg | N cfg)%Z → (pitch cfg | L cfg)%Z →
  (0 ≤ L cfg ≤ N cfg)%Z →
  counts cfg = Some (Np.full (N cfg) (N cfg) ((L cfg / pitch cfg) ^ 2)%Z).
Proof.
  intros Hp HdN HdL HL.
  destruct (locations_spec cfg Hp ltac:(lia))
    as (n' & xs & ys & Hxs & Hys & Htf & _ & Heq & _ & Hat).
  specialize (Heq HdN).
  destruct (counts_at cfg xs ys _ Hp HL Hxs Hys Htf)
    as (c & -> & Hshape & Hcells).
  f_equal.
  set (d := pitch cfg) in *. set (n := (N cfg / d)%Z) in *.
  set (m := (L cfg / d)%Z).
  assert (N cfg = n * d)%Z as HN.
  { destruct HdN as [k Hk]. unfold n. rewrite Hk, Z.div_mul by lia. done. }
  assert (L cfg = m * d)%Z as HLm.
  { destruct HdL as [k Hk]. unfold m. rewrite Hk, Z.div_mul by lia. done. }
  assert (0 ≤ m ≤ n)%Z as Hm by nia.
  assert (0 ≤ n)%Z as Hn0 by nia.
  assert (n' = Z.to_nat n) as -> by lia.
  assert (Z.to_nat (n ^ 2) = Z.to_nat n * Z.to_nat n) as Hnn.
  { rewrite Z.pow_2_r. by rewrite Z2Nat.inj_mul by done. }
  apply (at2_ext (Z.to_nat (N cfg)) (Z.to_nat (N cfg))).
  - by apply has_shape_nat.
  - apply has_shape_nat, zeros_spec; [lia|lia].
  - intros p q Hpn Hqn.
    rewrite Hcells, at2_full by lia. f_equal.
    assert (0 < Z.to_nat n) as Hnpos by nia.
    rewrite Hnn.
    rewrite (sumZ_fmap_ext _
               (λ i, ((if decide (((Z.of_nat p - Z.of_nat (i mod Z.to_nat n) * d)
                                   `mod` (n * d) < m * d)%Z) then 1 else 0)
                      * (if decide (((Z.of_nat q - Z.of_nat (i / Z.to_nat n) * d)
                                     `mod` (n * d) < m * d)%Z) then 1 else 0))%Z)).
    + pose proof (sumZ_grid
                 (λ a, if decide (((Z.of_nat p - Z.of_nat a * d)
                                   `mod` (n * d) < m * d)%Z) then 1%Z else 0%Z)
                 (λ b, if decide (((Z.of_nat q - Z.of_nat b * d)
                                   `mod` (n * d) < m * d)%Z) then 1%Z else 0%Z)
                 (Z.to_nat n) (Z.to_nat n) Hnpos) as Hgrid.
      cbn beta in Hgrid. rewrite Hgrid.
      rewrite !axis_count by lia. by rewrite Z.pow_2_r.
    + intros i Hi. apply elem_of_seq in Hi.
      destruct (Hat i ltac:(lia)) as [-> ->].
      rewrite HN, HLm. repeat case_decide; lia.
Qed.

Lemma counts_constant_witness :
  counts (example_cfg 6 4 2) = Some (Np.full 6 6 ((4 / 2) ^ 2)%Z).
Proof.
  apply (counts_constant (example_cfg 6 4 2)).
  - simpl. lia.
  - exists 3%Z. reflexivity.
  - exists 2%Z. reflexivity.
  - simpl. lia.
Defined.
